(** * Yhteystieto-scraper: a shallow embedding of the scraper, the batch
    route and the CSV utilities, with the properties of their specification.

    Sources embedded here:
    - [src/lib/scraper.ts]          (class [FinnishCompanyScraper])
    - [src/app/api/scrape/route.ts] (the [PUT] batch handler)
    - [src/utils/csvUtils.ts]       (class [CSVUtils])
    - the CSV upload route          ([POST] of the upload handler)

    JavaScript strings are sequences of UTF-16 code units; they are modelled
    as lists of [N].  Platform functions whose code is not part of the
    repository ([String.prototype.toLowerCase], [new URL], the HTTP client,
    the clock, [Math.random], the HTML parser and its selector engine) are
    the methods of the classes [Unicode], [UrlSyntax] and [Web].

    The file has two parts: the definitions, in the order of the sources,
    and then the lemmas and theorems about them. *)

From Stdlib Require Import String Ascii.
From Stdlib Require Import List NArith Bool Lia PeanoNat.
Import ListNotations.


(* ================================================================== *)
(** ** JavaScript strings *)
(* ================================================================== *)

Module JS.

(** A string is a list of UTF-16 code units. *)
Definition jsstring : Type := list N.

(** Source literals are written as UTF-8 Rocq strings and decoded to code
    units (one, two and three byte sequences: the Basic Multilingual Plane). *)
Fixpoint utf8_decode (bs : list N) : jsstring :=
  match bs with
  | [] => []
  | b :: rest =>
      if (b <? 128)%N then b :: utf8_decode rest
      else if (b <? 224)%N then
        match rest with
        | c :: rest' => ((b - 192) * 64 + (c - 128))%N :: utf8_decode rest'
        | [] => [b]
        end
      else
        match rest with
        | c :: d :: rest' =>
            ((b - 224) * 4096 + (c - 128) * 64 + (d - 128))%N :: utf8_decode rest'
        | _ => [b]
        end
  end.

Definition js (s : string) : jsstring :=
  utf8_decode (List.map N_of_ascii (list_ascii_of_string s)).
Arguments js s%_string.

Definition eqb (s t : jsstring) : bool :=
  if list_eq_dec N.eq_dec s t then true else false.

(** [s.startsWith(p)] *)
Fixpoint startsWith (s p : jsstring) {struct p} : bool :=
  match p, s with
  | [], _ => true
  | _ :: _, [] => false
  | c :: p', d :: s' => (c =? d)%N && startsWith s' p'
  end.

(** [s.includes(p)] *)
Fixpoint includes (s p : jsstring) : bool :=
  startsWith s p ||
  match s with
  | [] => false
  | _ :: s' => includes s' p
  end.

(** [s.substring(n)] *)
Definition substring (n : nat) (s : jsstring) : jsstring := skipn n s.

(** [parts.join(sep)] *)
Fixpoint join (sep : jsstring) (parts : list jsstring) : jsstring :=
  match parts with
  | [] => []
  | [p] => p
  | p :: ps => p ++ sep ++ join sep ps
  end.

(** The decimal digits [0-9] (the class [\d] of a non-unicode regex). *)
Definition isDigit (c : N) : bool := (48 <=? c)%N && (c <=? 57)%N.

(** White space and line terminators: the class [\s], and what [trim] strips. *)
Definition isSpace (c : N) : bool :=
  ((9 <=? c) && (c <=? 13) || (c =? 32) || (c =? 160) || (c =? 5760)
   || (8192 <=? c) && (c <=? 8202) || (c =? 8232) || (c =? 8233)
   || (c =? 8239) || (c =? 8287) || (c =? 12288) || (c =? 65279))%N.

(** The class [\w] that decides [\b] in a non-unicode regex. *)
Definition isWord (c : N) : bool :=
  ((48 <=? c) && (c <=? 57) || (65 <=? c) && (c <=? 90) || (c =? 95)
   || (97 <=? c) && (c <=? 122))%N.

Fixpoint trimStart (s : jsstring) : jsstring :=
  match s with
  | c :: s' => if isSpace c then trimStart s' else s
  | [] => []
  end.

(** [s.trim()] *)
Definition trim (s : jsstring) : jsstring :=
  rev (trimStart (rev (trimStart s))).

(** [String(n)] for a non-negative integer. *)
Fixpoint digitsOf (fuel : nat) (n : N) (acc : jsstring) : jsstring :=
  match fuel with
  | O => acc
  | S fuel' =>
      let acc' := (48 + n mod 10)%N :: acc in
      if (n <? 10)%N then acc' else digitsOf fuel' (n / 10) acc'
  end.

Definition ofNumber (n : N) : jsstring := digitsOf (S (N.to_nat (N.log2 n))) n [].

End JS.

Import JS.

(* ================================================================== *)
(** ** Regular expressions, as the source uses them *)
(* ================================================================== *)

Module Regex.

(** The fragment of JavaScript regular expressions that occurs in the
    source: literals, character classes, sequence, alternation, an optional
    group, repetition of a class, [\b], [^] and [$].  No [i], [u] or [m]
    flag is used anywhere, so classes are sets of code units. *)
Inductive regex : Type :=
| Lit (c : N)
| Class (p : N -> bool)
| Seq (r1 r2 : regex)
| Alt (r1 r2 : regex)
| Opt (r : regex)
| Rep (p : N -> bool) (lo : nat) (more : option nat)
    (* [p{lo,lo+n}] for [more = Some n], [p{lo,}] for [more = None] *)
| WordBoundary
| Bol
| Eol.

Definition Plus (p : N -> bool) : regex := Rep p 1 None.

(** A continuation receives the code unit before the current position (for
    [\b] and [^]) and the rest of the input; a successful match answers with
    the input left after the whole match. *)
Definition cont : Type := option N -> jsstring -> option jsstring.

Definition orElse (a : option jsstring) (b : option jsstring) : option jsstring :=
  match a with
  | Some x => Some x
  | None => b
  end.

(** Exactly [n] code units of the class. *)
Fixpoint exactly (n : nat) (p : N -> bool) (prev : option N) (s : jsstring)
  (k : cont) : option jsstring :=
  match n with
  | O => k prev s
  | S n' =>
      match s with
      | c :: s' => if p c then exactly n' p (Some c) s' k else None
      | [] => None
      end
  end.

(** At most [n] code units of the class, the longest run first. *)
Fixpoint upto (n : nat) (p : N -> bool) (prev : option N) (s : jsstring)
  (k : cont) : option jsstring :=
  match n with
  | O => k prev s
  | S n' =>
      match s with
      | c :: s' =>
          if p c then orElse (upto n' p (Some c) s' k) (k prev s) else k prev s
      | [] => k prev s
      end
  end.

(** Any number of code units of the class, the longest run first. *)
Fixpoint many (p : N -> bool) (prev : option N) (s : jsstring)
  (k : cont) : option jsstring :=
  match s with
  | c :: s' =>
      if p c then orElse (many p (Some c) s' k) (k prev s) else k prev s
  | [] => k prev s
  end.

Definition wordBefore (prev : option N) : bool :=
  match prev with Some c => isWord c | None => false end.

Definition wordAfter (s : jsstring) : bool :=
  match s with c :: _ => isWord c | [] => false end.

(** The backtracking matcher: alternatives are tried left to right and
    quantifiers are greedy, as in the ECMAScript semantics. *)
Fixpoint rmatch (r : regex) (prev : option N) (s : jsstring) (k : cont)
  : option jsstring :=
  match r with
  | Lit c =>
      match s with
      | d :: s' => if (c =? d)%N then k (Some d) s' else None
      | [] => None
      end
  | Class p =>
      match s with
      | d :: s' => if p d then k (Some d) s' else None
      | [] => None
      end
  | Seq r1 r2 => rmatch r1 prev s (fun prev' s' => rmatch r2 prev' s' k)
  | Alt r1 r2 => orElse (rmatch r1 prev s k) (rmatch r2 prev s k)
  | Opt r1 => orElse (rmatch r1 prev s k) (k prev s)
  | Rep p lo None => exactly lo p prev s (fun prev' s' => many p prev' s' k)
  | Rep p lo (Some n) => exactly lo p prev s (fun prev' s' => upto n p prev' s' k)
  | WordBoundary => if xorb (wordBefore prev) (wordAfter s) then k prev s else None
  | Bol => match prev with None => k prev s | Some _ => None end
  | Eol => match s with [] => k prev s | _ :: _ => None end
  end.

Definition done : cont := fun _ rest => Some rest.

(** The leftmost match: [Some (m, rest)] with [m] the matched text. *)
Fixpoint execFrom (r : regex) (prev : option N) (s : jsstring)
  : option (jsstring * jsstring) :=
  match rmatch r prev s done with
  | Some rest => Some (firstn (length s - length rest) s, rest)
  | None =>
      match s with
      | c :: s' => execFrom r (Some c) s'
      | [] => None
      end
  end.

(** [re.test(s)] *)
Definition test (r : regex) (s : jsstring) : bool :=
  match execFrom r None s with Some _ => true | None => false end.

(** [s.match(re)[0]] when [s.match(re)] is not null: the first match, with
    or without the [g] flag. *)
Definition firstMatch (r : regex) (s : jsstring) : option jsstring :=
  match execFrom r None s with Some (m, _) => Some m | None => None end.

(** All matches of a [g] regex, left to right, not overlapping; an empty
    match advances by one code unit. *)
Fixpoint matchAllFrom (fuel : nat) (r : regex) (prev : option N) (s : jsstring)
  : list jsstring :=
  match fuel with
  | O => []
  | S fuel' =>
      match execFrom r prev s with
      | None => []
      | Some (m, rest) =>
          match m, rest with
          | [], [] => [m]
          | [], c :: rest' => m :: matchAllFrom fuel' r (Some c) rest'
          | _ :: _, _ => m :: matchAllFrom fuel' r (Some (last m 0%N)) rest
          end
      end
  end.

Definition matchAll (r : regex) (s : jsstring) : list jsstring :=
  matchAllFrom (S (length s)) r None s.

(** Sequencing of several pieces, and a literal string. *)
Fixpoint seqs (rs : list regex) : regex :=
  match rs with
  | [] => Rep (fun _ => false) 0 (Some 0)
  | [r] => r
  | r :: rs' => Seq r (seqs rs')
  end.

Definition lits (s : jsstring) : regex := seqs (List.map Lit s).

(** [/^body$/] *)
Definition anchored (body : regex) : regex := Seq Bol (Seq body Eol).

(** The language of a regex without [\b], [^] and [$]: the strings it
    matches as a whole.  [simple] recognises that fragment. *)
Fixpoint simple (r : regex) : bool :=
  match r with
  | Lit _ | Class _ | Rep _ _ _ => true
  | Seq a b | Alt a b => simple a && simple b
  | Opt a => simple a
  | WordBoundary | Bol | Eol => false
  end.

Fixpoint Lang (r : regex) (s : jsstring) : Prop :=
  match r with
  | Lit c => s = [c]
  | Class p => exists c, s = [c] /\ p c = true
  | Seq a b => exists s1 s2, s = s1 ++ s2 /\ Lang a s1 /\ Lang b s2
  | Alt a b => Lang a s \/ Lang b s
  | Opt a => Lang a s \/ s = []
  | Rep p lo more =>
      forallb p s = true /\ lo <= length s /\
      match more with Some n => length s <= lo + n | None => True end
  | WordBoundary | Bol | Eol => False
  end.

(** The code unit before the position reached after reading [s]. *)
Definition lastOr (prev : option N) (s : jsstring) : option N :=
  fold_left (fun _ c => Some c) s prev.

(** Classes of the source. *)
Definition inRange (lo hi c : N) : bool := ((lo <=? c) && (c <=? hi))%N.
Definition oneOf (cs : jsstring) (c : N) : bool := existsb (N.eqb c) cs.

End Regex.

Import Regex.

(* ================================================================== *)
(** ** Data model ([src/types/index.ts]) *)
(* ================================================================== *)

Record Contact : Type := mkContact {
  name : jsstring;
  title : jsstring;
  phone : option jsstring;
  email : option jsstring
}.

Module Person.
Record t : Type := mk {
  name : jsstring;
  title : jsstring
}.
End Person.

Record ContactInfo : Type := mkContactInfo {
  contacts : list Contact;
  phoneNumbers : list jsstring;
  emailAddresses : list jsstring;
  people : list Person.t
}.

Record ScrapingResult : Type := mkScrapingResult {
  url : jsstring;
  success : bool;
  data : option ContactInfo;
  error : option jsstring;
  timestamp : jsstring
}.

(** What a [throw] carries: an [Error] object with its message, or a value
    that is not an [Error] (the [instanceof Error] tests tell them apart). *)
Inductive thrown : Type :=
| ErrorObj (message : jsstring)
| NotAnError.

Inductive outcome (A : Type) : Type :=
| Ok (a : A)
| Throw (e : thrown).
Arguments Ok {A} a.
Arguments Throw {A} e.

(* ================================================================== *)
(** ** Platform interfaces *)
(* ================================================================== *)

(** [String.prototype.toLowerCase] (the Unicode case mapping). *)
Class Unicode : Type := {
  toLowerCase : jsstring -> jsstring
}.

(** [new URL(s)] succeeds. *)
Class UrlSyntax : Type := {
  parsesAsUrl : jsstring -> bool
}.

(** The configuration object of an [axios.get] call. *)
Record RequestConfig : Type := mkRequestConfig {
  headers : list (jsstring * jsstring);
  timeout : N;
  maxRedirects : N;
  validateStatus : N -> bool
}.

Record Response (Data : Type) : Type := mkResponse {
  status : N;
  statusText : jsstring;
  responseData : Data
}.
Arguments mkResponse {Data} _ _ _.
Arguments status {Data} _.
Arguments statusText {Data} _.
Arguments responseData {Data} _.

(** The world outside the program: the network behind [axios], the clock,
    [Math.random], and the HTML parser and selector engine of [cheerio].
    Every use threads the [World] state, so two requests for one URL may
    answer differently. *)
Class Web : Type := {
  World : Type;
  Data : Type;
  Dom : Type;
  Element : Type;
  axios_get : jsstring -> RequestConfig -> World -> outcome (Response Data) * World;
  (** [Math.floor(Math.random() * n)] *)
  randomBelow : nat -> World -> nat * World;
  (** [await delay(ms)] *)
  delay : N -> World -> World;
  (** [new Date().toISOString()] *)
  isoNow : World -> jsstring;
  cheerio_load : Data -> outcome Dom;
  (** [$(selector)]: the matching elements in document order *)
  select : Dom -> jsstring -> list Element;
  text : Element -> jsstring;
  attr : Element -> jsstring -> option jsstring
}.

(* ================================================================== *)
(** ** The scraper ([src/lib/scraper.ts]) *)
(* ================================================================== *)

Module FinnishCompanyScraper.

(** *** Normalizer *)

(** [phone.replace(/[^\d+]/g, '')] *)
Definition stripNonPhone (phone : jsstring) : jsstring :=
  filter (fun c => isDigit c || (c =? 43)%N) phone.

Definition digit : N -> bool := inRange 48 57.

(** [(\+358|0)] *)
Definition prefix358or0 : regex := Alt (lits (js "+358")) (Lit 48).

(** [/^(\+358|0)[0-9]{8,9}$/] *)
Definition reCleanPhone : regex :=
  anchored (seqs [prefix358or0; Rep digit 8 (Some 1)]).

(** [/^(\+358|0)[0-9]{2}\s?[0-9]{3}\s?[0-9]{4}$/] *)
Definition reSpacedPhone : regex :=
  anchored (seqs [prefix358or0; Rep digit 2 (Some 0); Opt (Class isSpace);
                  Rep digit 3 (Some 0); Opt (Class isSpace); Rep digit 4 (Some 0)]).

Definition isValidPhoneNumber (phone : jsstring) : bool :=
  let cleanPhone := stripNonPhone phone in
  test reCleanPhone cleanPhone || test reSpacedPhone phone.

Definition normalizePhoneNumber (phone : jsstring) : jsstring :=
  let cleanPhone := stripNonPhone phone in
  if startsWith cleanPhone (js "+358") then cleanPhone
  else if startsWith cleanPhone (js "0") then js "+358" ++ substring 1 cleanPhone
  else phone.

(** The numeric patterns of the specification: a national prefix [0] or the
    international prefix [+358], followed by 8 or 9 digits. *)
Definition FinnishNumeric (cleanPhone : jsstring) : Prop :=
  exists ds, (cleanPhone = js "0" ++ ds \/ cleanPhone = js "+358" ++ ds) /\
             forallb isDigit ds = true /\ 8 <= length ds <= 9.

Definition alnum (c : N) : bool :=
  inRange 97 122 c || inRange 65 90 c || inRange 48 57 c.
Definition alpha (c : N) : bool := inRange 97 122 c || inRange 65 90 c.

(** [[a-zA-Z0-9._%+-]+@[a-zA-Z0-9.-]+\.[a-zA-Z]{2,}] *)
Definition emailBody : regex :=
  seqs [Plus (fun c => alnum c || oneOf (js "._%+-") c); Lit 64;
        Plus (fun c => alnum c || oneOf (js ".-") c); Lit 46; Rep alpha 2 None].

Definition emailPattern : regex := emailBody.

Definition isValidEmail (email : jsstring) : bool :=
  test (anchored emailBody) email.

(** *** Pattern matcher *)

Definition upperFi (c : N) : bool := inRange 65 90 c || oneOf (js "ÄÖÅ") c.
Definition lowerFi (c : N) : bool := inRange 97 122 c || oneOf (js "äöå") c.
Definition upperAscii : N -> bool := inRange 65 90.
Definition lowerAscii : N -> bool := inRange 97 122.

(** [[A-Z][a-z]+] over the given classes *)
Definition capitalized (up lo : N -> bool) : regex := Seq (Class up) (Plus lo).

Definition namePatterns : list regex :=
  [ seqs [WordBoundary; capitalized upperFi lowerFi; Lit 32; capitalized upperFi lowerFi;
          Opt (Seq (Class isSpace) (capitalized upperFi lowerFi)); WordBoundary];
    seqs [WordBoundary; capitalized upperAscii lowerAscii; Lit 32;
          capitalized upperAscii lowerAscii;
          Opt (Seq (Class isSpace) (capitalized upperAscii lowerAscii)); WordBoundary];
    seqs [WordBoundary; capitalized upperFi lowerFi; Plus isSpace;
          capitalized upperFi lowerFi; WordBoundary] ].

Definition titleKeywords : list jsstring :=
  List.map js
  [ "toimitusjohtaja"; "tj"; "ceo"; "managing director";
    "myyntipäällikkö"; "sales manager"; "myynti";
    "markkinointipäällikkö"; "marketing manager"; "markkinointi";
    "asiakaspalvelupäällikkö"; "customer service manager";
    "henkilöstöpäällikkö"; "hr manager"; "henkilöstö";
    "talouspäällikkö"; "financial manager"; "talous";
    "projektipäällikkö"; "project manager"; "projekti";
    "tiimipäällikkö"; "team leader"; "tiimi";
    "päällikkö"; "manager"; "johtaja"; "director";
    "asiantuntija"; "specialist"; "konsultti"; "consultant";
    "kehittäjä"; "developer"; "suunnittelija"; "designer";
    "avustaja"; "assistant"; "koordinaattori"; "coordinator" ]%string.

Definition phonePatterns : list regex :=
  [ seqs [lits (js "+358"); Opt (Class isSpace); Rep digit 2 (Some 0);
          Opt (Class isSpace); Rep digit 3 (Some 0); Opt (Class isSpace);
          Rep digit 4 (Some 0)];
    seqs [Lit 48; Rep digit 1 (Some 1); Opt (Class isSpace); Rep digit 3 (Some 0);
          Opt (Class isSpace); Rep digit 4 (Some 0)];
    seqs [Lit 48; Rep digit 1 (Some 1); Lit 45; Rep digit 3 (Some 0); Lit 45;
          Rep digit 4 (Some 0)];
    seqs [Lit 48; Rep digit 1 (Some 1); Lit 46; Rep digit 3 (Some 0); Lit 46;
          Rep digit 4 (Some 0)] ].

(** [s] is [l] with some elements left out, the order kept. *)
Inductive Subsequence {A : Type} : list A -> list A -> Prop :=
| Subsequence_nil : forall l, Subsequence [] l
| Subsequence_skip : forall x s l, Subsequence s l -> Subsequence s (x :: l)
| Subsequence_take : forall x s l, Subsequence s l -> Subsequence (x :: s) (x :: l).

(** [k] is the first element of [l] that satisfies [P]. *)
Definition FirstSuch {A : Type} (P : A -> Prop) (l : list A) (k : A) : Prop :=
  exists before after,
    l = before ++ k :: after /\ P k /\ forall k', In k' before -> ~ P k'.

(** The first element of a list that a partial function accepts: the
    [for (...) { if (...) { ...; break } }] loops of the source. *)
Fixpoint firstSome {A B : Type} (f : A -> option B) (l : list A) : option B :=
  match l with
  | [] => None
  | a :: l' =>
      match f a with
      | Some b => Some b
      | None => firstSome f l'
      end
  end.

Section Extraction.
Context {U : Unicode}.

(** The title loop of [extractContactFromElement]. *)
Definition findTitle (text : jsstring) : jsstring :=
  match firstSome
          (fun keyword =>
             if includes (toLowerCase text) keyword then Some keyword else None)
          titleKeywords with
  | Some keyword => keyword
  | None => js "Tuntematon"
  end.

(** The phone loop of [extractContactFromElement]: only the first match of
    each pattern is looked at. *)
Definition findPhone (text : jsstring) : option jsstring :=
  firstSome
    (fun pattern =>
       match firstMatch pattern text with
       | Some m => if isValidPhoneNumber m then Some (normalizePhoneNumber m) else None
       | None => None
       end)
    phonePatterns.

Definition findEmail (text : jsstring) : option jsstring :=
  match firstMatch emailPattern text with
  | Some m => if isValidEmail m then Some (toLowerCase m) else None
  | None => None
  end.

(** [extractContactFromElement], as a function of [$element.text()].  An
    empty name is falsy, hence the test on [trim m]. *)
Definition extractContactFromElement (text : jsstring) : option Contact :=
  match firstSome (fun pattern => firstMatch pattern text) namePatterns with
  | None => None
  | Some m =>
      match trim m with
      | [] => None
      | name =>
          Some {| name := name;
                  title := findTitle text;
                  phone := findPhone text;
                  email := findEmail text |}
      end
  end.

(** The deduplication key of a contact: its lower-cased name. *)
Definition nameKey (contact : Contact) : jsstring := toLowerCase (name contact).

(** [contact] occurs in [contacts] with no record of the same key before it. *)
Definition FirstOccurrence (contacts : list Contact) (contact : Contact) : Prop :=
  exists before after,
    contacts = before ++ contact :: after /\
    forall earlier, In earlier before -> nameKey earlier <> nameKey contact.

(** [uniqueContacts.some(existing => existing.name.toLowerCase() ===
    contact.name.toLowerCase())] *)
Definition isDuplicate (uniqueContacts : list Contact) (contact : Contact) : bool :=
  existsb (fun existing => JS.eqb (toLowerCase (name existing)) (toLowerCase (name contact)))
          uniqueContacts.

(** The [forEach] of [removeDuplicateContacts]: a left fold that pushes. *)
Definition pushUnique (uniqueContacts : list Contact) (contact : Contact)
  : list Contact :=
  if isDuplicate uniqueContacts contact then uniqueContacts
  else uniqueContacts ++ [contact].

Definition removeDuplicateContacts (contacts : list Contact) : list Contact :=
  let uniqueContacts := fold_left pushUnique contacts [] in
  firstn 10 uniqueContacts.

End Extraction.

(** *** Effects: the world, the console, and exceptions *)

(** What the scraper and the routes write on the console. *)
Inductive logEntry : Type :=
| LogScraped (url : jsstring) (contacts phoneNumbers emailAddresses people : nat)
    (pageTitle : jsstring)
| WarnAttemptFailed (attempt maxRetries : nat) (url message : jsstring)
| LogNotRetrying (url message : jsstring)
| ErrorBatchFailed.

Section Effects.
Context {W : Web}.

Record State : Type := mkState {
  world : World;
  console : list logEntry
}.

(** A computation that may throw and that changes the state. *)
Definition M (A : Type) : Type := State -> outcome A * State.

Definition ret {A : Type} (a : A) : M A := fun st => (Ok a, st).

Definition throw {A : Type} (e : thrown) : M A := fun st => (Throw e, st).

Definition bind {A B : Type} (m : M A) (f : A -> M B) : M B :=
  fun st =>
    match m st with
    | (Ok a, st') => f a st'
    | (Throw e, st') => (Throw e, st')
    end.

(** [try { m } catch (error) { handler error }] *)
Definition tryCatch {A : Type} (m : M A) (handler : thrown -> M A) : M A :=
  fun st =>
    match m st with
    | (Ok a, st') => (Ok a, st')
    | (Throw e, st') => handler e st'
    end.

Definition liftWorld {A : Type} (f : World -> A * World) : M A :=
  fun st => let (a, w) := f (world st) in (Ok a, mkState w (console st)).

Definition liftOutcome {A : Type} (f : World -> outcome A * World) : M A :=
  fun st => let (o, w) := f (world st) in (o, mkState w (console st)).

Definition ofOutcome {A : Type} (o : outcome A) : M A := fun st => (o, st).

Definition sleep (ms : N) : M unit :=
  fun st => (Ok tt, mkState (delay ms (world st)) (console st)).

Definition now : M jsstring := fun st => (Ok (isoNow (world st)), st).

Definition log (entry : logEntry) : M unit :=
  fun st => (Ok tt, mkState (world st) (console st ++ [entry])).

End Effects.

Notation "x <- m ;; k" := (bind m (fun x => k))
  (at level 61, m at next level, right associativity).
Notation "m ;;; k" := (bind m (fun _ => k))
  (at level 61, right associativity).

(** *** Fetcher *)

Definition userAgents : list jsstring :=
  List.map js
  [ "Mozilla/5.0 (Windows NT 10.0; Win64; x64) AppleWebKit/537.36 (KHTML, like Gecko) Chrome/120.0.0.0 Safari/537.36";
    "Mozilla/5.0 (Macintosh; Intel Mac OS X 10_15_7) AppleWebKit/537.36 (KHTML, like Gecko) Chrome/120.0.0.0 Safari/537.36";
    "Mozilla/5.0 (Windows NT 10.0; Win64; x64; rv:121.0) Gecko/20100101 Firefox/121.0";
    "Mozilla/5.0 (Macintosh; Intel Mac OS X 10_15_7) AppleWebKit/605.1.15 (KHTML, like Gecko) Version/17.1 Safari/605.1.15";
    "Mozilla/5.0 (X11; Linux x86_64) AppleWebKit/537.36 (KHTML, like Gecko) Chrome/120.0.0.0 Safari/537.36" ]%string.

Definition maxRetries : nat := 3.

Definition header (k v : string) : jsstring * jsstring := (js k, js v).

Definition below500 (status : N) : bool := (status <? 500)%N.

Definition nonRetryablePatterns : list jsstring :=
  List.map js
  [ "Invalid URL"; "404"; "403"; "401"; "400"; "ENOTFOUND"; "ECONNREFUSED" ]%string.

(** [isNonRetryableError], as a function of [error.message]. *)
Definition isNonRetryableError (message : jsstring) : bool :=
  existsb (fun pattern => includes message pattern) nonRetryablePatterns.

(** [error instanceof Error ? error : new Error('Unknown error')], as the
    message of the resulting [Error]. *)
Definition asError (error : thrown) : jsstring :=
  match error with
  | ErrorObj message => message
  | NotAnError => js "Unknown error"
  end.

(** [`HTTP ${response.status}: ${response.statusText}`] *)
Definition httpErrorMessage (status : N) (statusText : jsstring) : jsstring :=
  js "HTTP " ++ ofNumber status ++ js ": " ++ statusText.

(** [`Failed to scrape ${url} after ${maxRetries} attempts:
    ${lastError?.message || 'Unknown error'}`] *)
Definition finalErrorMessage (url : jsstring) (lastError : option jsstring) : jsstring :=
  js "Failed to scrape " ++ url ++ js " after " ++ ofNumber (N.of_nat maxRetries)
  ++ js " attempts: "
  ++ match lastError with
     | Some (c :: message) => c :: message
     | Some [] | None => js "Unknown error"
     end.

Section Fetcher.
Context {L : UrlSyntax} {W : Web}.

Definition isValidUrl (url : jsstring) : bool := parsesAsUrl url.

Definition fetchWithFullHeaders (url userAgent : jsstring) : M (Response Data) :=
  liftOutcome (axios_get url
    {| headers :=
         [ (js "User-Agent", userAgent);
           header "Accept" "text/html,application/xhtml+xml,application/xml;q=0.9,image/webp,image/apng,*/*;q=0.8";
           header "Accept-Language" "fi-FI,fi;q=0.9,en-US;q=0.8,en;q=0.7";
           header "Accept-Encoding" "gzip, deflate, br";
           header "Connection" "keep-alive";
           header "Upgrade-Insecure-Requests" "1";
           header "Sec-Fetch-Dest" "document";
           header "Sec-Fetch-Mode" "navigate";
           header "Sec-Fetch-Site" "none";
           header "Sec-Fetch-User" "?1";
           header "Cache-Control" "no-cache";
           header "Pragma" "no-cache";
           header "DNT" "1";
           header "Referer" "https://www.google.com/" ];
       timeout := 20000;
       maxRedirects := 10;
       validateStatus := below500 |}).

Definition fetchWithMinimalHeaders (url userAgent : jsstring) : M (Response Data) :=
  liftOutcome (axios_get url
    {| headers :=
         [ (js "User-Agent", userAgent);
           header "Accept" "text/html,application/xhtml+xml,application/xml;q=0.9,*/*;q=0.8";
           header "Accept-Language" "fi-FI,fi;q=0.9,en;q=0.8";
           header "Connection" "keep-alive" ];
       timeout := 25000;
       maxRedirects := 15;
       validateStatus := below500 |}).

Definition fetchSimple (url : jsstring) : M (Response Data) :=
  liftOutcome (axios_get url
    {| headers := [];
       timeout := 30000;
       maxRedirects := 20;
       validateStatus := below500 |}).

(** The request of one attempt, up to the status check: the body of the
    [try] block before the page is parsed. *)
Definition fetchAttempt (url : jsstring) (attempt : nat) : M (Response Data) :=
  (if isValidUrl url then ret tt else throw (ErrorObj (js "Invalid URL provided"))) ;;;
  (if 1 <? attempt then sleep (1000 * N.of_nat attempt) else ret tt) ;;;
  i <- liftWorld (randomBelow (length userAgents)) ;;
  let userAgent := nth i userAgents [] in
  jitter <- liftWorld (randomBelow 1000) ;;
  sleep (N.of_nat jitter + 500) ;;;
  response <-
    (if attempt =? 1 then fetchWithFullHeaders url userAgent
     else if attempt =? 2 then fetchWithMinimalHeaders url userAgent
     else fetchSimple url) ;;
  if (400 <=? status response)%N
  then throw (ErrorObj (httpErrorMessage (status response) (statusText response)))
  else ret response.

End Fetcher.

(** *** Extractor over a parsed page *)

(** A quoted attribute value inside a selector, [tag[attr<op>"value"]]. *)
Definition attrSelector (tag attrOp value : string) : jsstring :=
  js tag ++ js "[" ++ js attrOp ++ [34%N] ++ js value ++ [34%N] ++ js "]".

Definition classContains (tag word : string) : jsstring :=
  attrSelector tag "class*=" word.

Definition contactSelectors : list jsstring :=
  [ classContains "section" "contact"; classContains "section" "team";
    classContains "section" "henkilöstö"; classContains "section" "staff";
    classContains "section" "employee"; classContains "section" "person";
    classContains "div" "contact"; classContains "div" "team";
    classContains "div" "henkilöstö"; classContains "div" "staff";
    classContains "div" "employee"; classContains "div" "person";
    classContains "div" "yhteystiedot"; classContains "div" "henkilökunta" ]
  ++ List.map js
  [ ".contact-info"; ".contact-details"; ".team-member"; ".staff-member";
    ".employee-card"; ".person-card"; ".contact-card"; ".contact-item";
    ".team-item"; ".staff-item"; ".person-item";
    "#contact"; "#team"; "#henkilöstö"; "#henkilökunta"; "#yhteystiedot";
    "[data-contact]"; "[data-team-member]"; "[data-staff-member]";
    "footer"; "address"; ".footer-contact"; ".contact-section";
    ".team-section"; ".staff-section" ]%string.

Definition cardSelector : jsstring :=
  js ".contact-item, .team-item, .person, .staff, .member, .employee, .worker".

(** [/\b[A-ZÄÖÅ][a-zäöå]+ [A-ZÄÖÅ][a-zäöå]+/] *)
Definition hasNamePattern : regex :=
  seqs [WordBoundary; capitalized upperFi lowerFi; Lit 32; capitalized upperFi lowerFi].

(** [/(\+358|0)[0-9\s\-\.]{8,}/] *)
Definition hasPhonePattern : regex :=
  Seq prefix358or0 (Rep (fun c => digit c || isSpace c || oneOf (js "-.") c) 8 None).

(** The selectors of [extractPeople]. *)
Definition peopleSelectors : list jsstring :=
  [ classContains "section" "contact"; classContains "section" "team";
    classContains "section" "henkilöstö"; classContains "div" "contact";
    classContains "div" "team"; classContains "div" "henkilöstö" ]
  ++ List.map js
  [ ".contact-info"; ".team-member"; ".staff-member"; "#contact"; "#team";
    "#henkilöstö" ]%string.

(** [s.replace(pattern, replacement)] with a string pattern: the first
    occurrence only. *)
Fixpoint replaceFirst (s pattern replacement : jsstring) : jsstring :=
  if startsWith s pattern then replacement ++ skipn (length pattern) s
  else match s with
       | [] => []
       | c :: s' => c :: replaceFirst s' pattern replacement
       end.

(** [set.add(x)] on a [Set] kept in insertion order. *)
Definition setAdd (set : list jsstring) (x : jsstring) : list jsstring :=
  if existsb (JS.eqb x) set then set else set ++ [x].

Fixpoint findIndexFrom {A : Type} (f : A -> bool) (l : list A) (i : nat) : option nat :=
  match l with
  | [] => None
  | a :: l' => if f a then Some i else findIndexFrom f l' (S i)
  end.

(** [l.findIndex(f)], with [None] for [-1]. *)
Definition findIndex {A : Type} (f : A -> bool) (l : list A) : option nat :=
  findIndexFrom f l 0.

Section PageExtraction.
Context {U : Unicode} {W : Web}.

(** [$(selector).text()]: the texts of all matched elements, concatenated. *)
Definition textOf (dom : Dom) (selector : jsstring) : jsstring :=
  concat (List.map text (select dom selector)).

(** [$(selector).each(...)] pushing what [extractContactFromElement] finds. *)
Definition contactsOf (elements : list Element) : list Contact :=
  flat_map (fun element =>
              match extractContactFromElement (text element) with
              | Some contactData => [contactData]
              | None => []
              end)
           elements.

Definition extractGroupedContacts (dom : Dom) : list Contact :=
  let fromSelectors :=
    flat_map (fun selector => contactsOf (select dom selector)) contactSelectors in
  let fromCards := contactsOf (select dom cardSelector) in
  let fromCatchAll :=
    contactsOf
      (filter (fun element =>
                 let t := text element in
                 let hasName := test hasNamePattern t in
                 let hasPhone := test hasPhonePattern t in
                 let hasEmail := test emailPattern t in
                 hasName && (hasPhone || hasEmail))
              (select dom (js "div, section, article"))) in
  removeDuplicateContacts (fromSelectors ++ fromCards ++ fromCatchAll).

Definition extractPhoneNumbers (dom : Dom) : list jsstring :=
  let fromLinks :=
    fold_left
      (fun phoneNumbers element =>
         match attr element (js "href") with
         | Some (c :: href) =>
             let phone := trim (replaceFirst (c :: href) (js "tel:") []) in
             if isValidPhoneNumber phone
             then setAdd phoneNumbers (normalizePhoneNumber phone)
             else phoneNumbers
         | _ => phoneNumbers
         end)
      (select dom (attrSelector "a" "href^=" "tel:")) [] in
  let textContent := textOf dom (js "body") in
  fold_left
    (fun phoneNumbers pattern =>
       fold_left
         (fun phoneNumbers m =>
            let phone := trim m in
            if isValidPhoneNumber phone
            then setAdd phoneNumbers (normalizePhoneNumber phone)
            else phoneNumbers)
         (matchAll pattern textContent) phoneNumbers)
    phonePatterns fromLinks.

Definition extractEmailAddresses (dom : Dom) : list jsstring :=
  let fromLinks :=
    fold_left
      (fun emailAddresses element =>
         match attr element (js "href") with
         | Some (c :: href) =>
             let email := trim (replaceFirst (c :: href) (js "mailto:") []) in
             if isValidEmail email
             then setAdd emailAddresses (toLowerCase email)
             else emailAddresses
         | _ => emailAddresses
         end)
      (select dom (attrSelector "a" "href^=" "mailto:")) [] in
  let textContent := textOf dom (js "body") in
  fold_left
    (fun emailAddresses m =>
       let email := trim m in
       if isValidEmail email
       then setAdd emailAddresses (toLowerCase email)
       else emailAddresses)
    (matchAll emailPattern textContent) fromLinks.

Definition findAssociatedTitle (text : jsstring) (keywords : list jsstring)
  : option jsstring :=
  firstSome (fun keyword => if includes text keyword then Some keyword else None)
            keywords.

Definition extractPeople (dom : Dom) : list Person.t :=
  let people :=
    flat_map
      (fun selector =>
         flat_map
           (fun element =>
              let sectionText := toLowerCase (text element) in
              flat_map
                (fun m =>
                   let cleanName := trim m in
                   if (3 <? length cleanName) && (length cleanName <? 50)
                   then [ Person.mk cleanName
                            match findAssociatedTitle sectionText titleKeywords with
                            | Some (c :: keyword) => c :: keyword
                            | _ => js "Tuntematon"
                            end ]
                   else [])
                (matchAll (nth 0 namePatterns Eol) sectionText))
           (select dom selector))
      peopleSelectors in
  let uniquePeople :=
    List.map snd
      (filter
         (fun ip =>
            match findIndex
                    (fun p => JS.eqb (toLowerCase (Person.name p))
                                     (toLowerCase (Person.name (snd ip))))
                    people with
            | Some j => fst ip =? j
            | None => false
            end)
         (combine (seq 0 (length people)) people)) in
  firstn 10 uniquePeople.

End PageExtraction.

(** *** [scrapeContactInfo] *)

Section Scrape.
Context {U : Unicode} {L : UrlSyntax} {W : Web}.

(** The rest of the [try] block: parse the page and extract. *)
Definition extractPage (url : jsstring) (response : Response Data) : M ContactInfo :=
  dom <- ofOutcome (cheerio_load (responseData response)) ;;
  let contacts := extractGroupedContacts dom in
  let phoneNumbers := extractPhoneNumbers dom in
  let emailAddresses := extractEmailAddresses dom in
  let people := extractPeople dom in
  log (LogScraped url (length contacts) (length phoneNumbers) (length emailAddresses)
         (length people) (firstn 50 (textOf dom (js "title")))) ;;;
  ret {| contacts := contacts;
         phoneNumbers := phoneNumbers;
         emailAddresses := emailAddresses;
         people := people |}.

(** One pass through the [try] block. *)
Definition attemptBody (url : jsstring) (attempt : nat) : M ContactInfo :=
  response <- fetchAttempt url attempt ;;
  extractPage url response.

(** The [for (attempt = 1; attempt <= maxRetries; attempt++)] loop with
    [remaining = maxRetries + 1 - attempt] passes still allowed, followed by
    the final [throw]. *)
Fixpoint retryLoop (remaining attempt : nat) (lastError : option jsstring)
  (url : jsstring) : M ContactInfo :=
  match remaining with
  | O => throw (ErrorObj (finalErrorMessage url lastError))
  | S remaining' =>
      tryCatch (attemptBody url attempt)
        (fun error =>
           let lastError := asError error in
           log (WarnAttemptFailed attempt maxRetries url lastError) ;;;
           if isNonRetryableError lastError
           then log (LogNotRetrying url lastError) ;;;
                throw (ErrorObj (finalErrorMessage url (Some lastError)))
           else retryLoop remaining' (S attempt) (Some lastError) url)
  end.

Definition scrapeContactInfo (url : jsstring) : M ContactInfo :=
  retryLoop maxRetries 1 None url.

(** The state after the [catch] block has written its warning. *)
Definition warned (attempt : nat) (url : jsstring) (e : thrown) (st : State) : State :=
  mkState (world st)
          (console st ++ [WarnAttemptFailed attempt maxRetries url (asError e)]).

(** The state after the [catch] block has given up. *)
Definition gaveUp (attempt : nat) (url : jsstring) (e : thrown) (st : State) : State :=
  mkState (world st)
          (console st ++ [WarnAttemptFailed attempt maxRetries url (asError e)]
                      ++ [LogNotRetrying url (asError e)]).

(** The number of failed attempts a console records. *)
Definition failedAttempts (entries : list logEntry) : nat :=
  length (filter (fun entry =>
                    match entry with WarnAttemptFailed _ _ _ _ => true | _ => false end)
                 entries).

(** The retry policy, in the words of its statement. *)

(** The message of what was thrown: the message of an [Error], and the
    words [Unknown error] for any other value. *)
Inductive Message : thrown -> jsstring -> Prop :=
| Message_error : forall message, Message (ErrorObj message) message
| Message_other : Message NotAnError (js "Unknown error").

(** A message that holds one of the substrings that end the loop. *)
Definition HoldsPattern (message : jsstring) : Prop :=
  exists pattern,
    In pattern
       (List.map js
          ["Invalid URL"; "404"; "403"; "401"; "400"; "ENOTFOUND"; "ECONNREFUSED"]%string) /\
    includes message pattern = true.

(** The state after attempt [attempt] has failed with [message] and its
    warning has been written. *)
Definition afterWarning (attempt : nat) (url message : jsstring) (st : State) : State :=
  mkState (world st) (console st ++ [WarnAttemptFailed attempt 3 url message]).

(** The state after attempt [attempt] has failed with [message] and the loop
    has been left: the warning, then the line that says so. *)
Definition afterGivingUp (attempt : nat) (url message : jsstring) (st : State) : State :=
  mkState (world st)
          (console st ++ [WarnAttemptFailed attempt 3 url message;
                          LogNotRetrying url message]).

(** [Retried url attempt st attempt' st']: started in [st], the attempts
    [attempt], ..., [attempt' - 1] all fail with a message that holds no
    pattern, each is followed by its warning and by the next attempt, and
    attempt [attempt'] starts in [st']. *)
Inductive Retried (url : jsstring) : nat -> State -> nat -> State -> Prop :=
| Retried_none : forall attempt st, Retried url attempt st attempt st
| Retried_next : forall attempt st e message st1 attempt' st',
    attemptBody url attempt st = (Throw e, st1) ->
    Message e message ->
    ~ HoldsPattern message ->
    Retried url (S attempt) (afterWarning attempt url message st1) attempt' st' ->
    Retried url attempt st attempt' st'.

End Scrape.

(** A case mapping for the examples: Basic Latin and Latin-1 letters are
    lower-cased as [toLowerCase] does, every other code unit is kept. *)
Definition lowerLatin1 (c : N) : N :=
  if inRange 65 90 c || inRange 192 214 c || inRange 216 222 c then (c + 32)%N else c.

Definition latin1 : Unicode := {| toLowerCase := List.map lowerLatin1 |}.

End FinnishCompanyScraper.

Import FinnishCompanyScraper.

(* ================================================================== *)
(** ** The batch route ([src/app/api/scrape/route.ts], [PUT]) *)
(* ================================================================== *)

Module ScrapeRoute.

(** What [await request.json()] gives, as far as [PUT] looks at it: the
    call may reject; otherwise the [urls] property is missing or falsy, is a
    value that is not an array, or is an array (of strings, by the type
    annotation of the handler). *)
Inductive urlsField : Type :=
| UrlsMissing
| UrlsNotArray
| UrlsArray (urls : list jsstring).

Inductive requestBody : Type :=
| BodyRejected
| BodyJson (urls : urlsField).

(** [NextResponse.json(payload, { status })] *)
Inductive jsonResponse : Type :=
| ErrorJson (status : N) (error : jsstring)
| ResultsJson (status : N) (results : list ScrapingResult).

Definition concurrencyLimit : nat := 5.

(** [urls.slice(from, to)] *)
Definition slice {A : Type} (from to : nat) (l : list A) : list A :=
  firstn (to - from) (skipn from l).

(** [for (let i = 0; i < urls.length; i += concurrencyLimit)
       chunks.push(urls.slice(i, i + concurrencyLimit))];
    [fuel] bounds the number of passes and [length urls] is enough. *)
Fixpoint chunkLoop {A : Type} (fuel i : nat) (urls : list A) : list (list A) :=
  match fuel with
  | O => []
  | S fuel' =>
      if i <? length urls
      then slice i (i + concurrencyLimit) urls :: chunkLoop fuel' (i + concurrencyLimit) urls
      else []
  end.

Definition chunksOf {A : Type} (urls : list A) : list (list A) :=
  chunkLoop (length urls) 0 urls.

Section Batch.
Context {U : Unicode} {L : UrlSyntax} {W : Web}.

(** The [async (url) => { try {...} catch (error) {...} }] of a chunk. *)
Definition scrapeOne (url : jsstring) : M ScrapingResult :=
  tryCatch
    (data <- scrapeContactInfo url ;;
     timestamp <- now ;;
     ret {| url := url; success := true; data := Some data; error := None;
            timestamp := timestamp |})
    (fun error =>
       timestamp <- now ;;
       ret {| url := url; success := false; data := None;
              error := Some (asError error); timestamp := timestamp |}).

(** [chunk.map(...)] and [Promise.all]: the pipelines of a chunk are started
    in the order of the chunk and their results are collected in that order.
    The model runs them one after the other. *)
Fixpoint mapM {A B : Type} (f : A -> M B) (l : list A) : M (list B) :=
  match l with
  | [] => ret []
  | a :: l' =>
      b <- f a ;;
      bs <- mapM f l' ;;
      ret (b :: bs)
  end.

(** [for (const chunk of chunks) { ...; results.push(...chunkResults) }] *)
Fixpoint processChunks (chunks : list (list jsstring)) (results : list ScrapingResult)
  : M (list ScrapingResult) :=
  match chunks with
  | [] => ret results
  | chunk :: chunks' =>
      chunkResults <- mapM scrapeOne chunk ;;
      processChunks chunks' (results ++ chunkResults)
  end.

Definition PUT (body : requestBody) : State -> jsonResponse * State :=
  fun st =>
    match body with
    | BodyRejected =>
        (ErrorJson 500 (js "Batch scraping failed"),
         mkState (world st) (console st ++ [ErrorBatchFailed]))
    | BodyJson UrlsMissing | BodyJson UrlsNotArray =>
        (ErrorJson 400 (js "URLs array is required"), st)
    | BodyJson (UrlsArray urls) =>
        if 50 <? length urls
        then (ErrorJson 400 (js "Maximum 50 URLs allowed per batch"), st)
        else
          match processChunks (chunksOf urls) [] st with
          | (Ok results, st') => (ResultsJson 200 results, st')
          | (Throw _, st') =>
              (ErrorJson 500 (js "Batch scraping failed"),
               mkState (world st') (console st' ++ [ErrorBatchFailed]))
          end
    end.

(** What the batch owes for one URL: the result built from the outcome of
    the pipeline of that URL, and nothing else. *)
Definition resultOf (url : jsstring) (o : outcome ContactInfo) (timestamp : jsstring)
  : ScrapingResult :=
  match o with
  | Ok data =>
      {| url := url; success := true; data := Some data; error := None;
         timestamp := timestamp |}
  | Throw e =>
      {| url := url; success := false; data := None; error := Some (asError e);
         timestamp := timestamp |}
  end.

(** [Collected st urls results st']: running the pipeline of every URL of
    [urls] in turn from [st] gives [results], one result per URL and in the
    order of [urls], and ends in [st']. *)
Inductive Collected : State -> list jsstring -> list ScrapingResult -> State -> Prop :=
| Collected_nil : forall st, Collected st [] [] st
| Collected_cons : forall st url urls o st1 results st',
    scrapeContactInfo url st = (o, st1) ->
    Collected st1 urls results st' ->
    Collected st (url :: urls) (resultOf url o (isoNow (world st1)) :: results) st'.

(** The same in the words of the statement, the fields of a result being
    written out: [Reported url timestamp o r] when [r] is the result owed for
    [url] whose pipeline ended with [o]: the data on success, and on failure
    the message of the error that the pipeline threw. *)
Inductive Reported (url timestamp : jsstring) : outcome ContactInfo -> ScrapingResult -> Prop :=
| Reported_data : forall info,
    Reported url timestamp (Ok info)
      {| url := url; success := true; data := Some info; error := None;
         timestamp := timestamp |}
| Reported_error : forall e message,
    Message e message ->
    Reported url timestamp (Throw e)
      {| url := url; success := false; data := None; error := Some message;
         timestamp := timestamp |}.

(** [Answered st urls results st']: the pipelines of [urls] are run in turn
    from [st], each from the state in which the one before it ended, whatever
    its outcome; [results] holds the result owed for each URL, in the order of
    [urls], and the last pipeline ends in [st']. *)
Inductive Answered : State -> list jsstring -> list ScrapingResult -> State -> Prop :=
| Answered_nil : forall st, Answered st [] [] st
| Answered_cons : forall st url urls o st1 r results st',
    scrapeContactInfo url st = (o, st1) ->
    Reported url (isoNow (world st1)) o r ->
    Answered st1 urls results st' ->
    Answered st (url :: urls) (r :: results) st'.

End Batch.

End ScrapeRoute.

(* ================================================================== *)
(** ** CSV utilities ([src/utils/csvUtils.ts]) *)
(* ================================================================== *)

(** The [csv-parser] package with its default options: the separator is the
    comma, the quote and escape character is the double quote, the first row
    is read as headers, rows need not have the length of the header row.
    The package reads the bytes of [Buffer.from(text)], the UTF-8 encoding
    of the text in which a surrogate outside a pair is encoded as U+FFFD, and
    decodes every cell from its bytes.  The separator, the quote and the row
    ends are ASCII and no byte of a longer sequence is ASCII, so the scan of
    the bytes is the scan that follows over the code units of the text that
    the bytes decode to, [toWellFormed text]. *)
Module CsvParser.

Definition quote : N := 34.
Definition comma : N := 44.
Definition nl : N := 10.
Definition cr : N := 13.

Definition isHighSurrogate (c : N) : bool := (55296 <=? c)%N && (c <=? 56319)%N.
Definition isLowSurrogate (c : N) : bool := (56320 <=? c)%N && (c <=? 57343)%N.

Definition startsWithLow (s : jsstring) : bool :=
  match s with
  | d :: _ => isLowSurrogate d
  | [] => false
  end.

(** What the UTF-8 bytes of a text decode to: a high surrogate followed by a
    low one is a pair and is kept, any other surrogate becomes U+FFFD.
    [paired] holds when the code unit at the head is the second half of a
    pair. *)
Fixpoint decodeEncoded (paired : bool) (s : jsstring) : jsstring :=
  match s with
  | [] => []
  | c :: rest =>
      if paired then c :: decodeEncoded false rest
      else if isHighSurrogate c && startsWithLow rest then c :: decodeEncoded true rest
      else if isHighSurrogate c || isLowSurrogate c
      then 65533%N :: decodeEncoded false rest
      else c :: decodeEncoded false rest
  end.

(** [Buffer.from(s).toString()], which is also [s.toWellFormed()]. *)
Definition toWellFormed (s : jsstring) : jsstring := decodeEncoded false s.

Record scanState : Type := mkScan {
  escaped : bool;
  quoted : bool;
  first : bool;
  newline : N
}.

Definition initialScan : scanState := mkScan false false true nl.

Definition nextIs (c : N) (rest : jsstring) : bool :=
  match rest with
  | d :: _ => (d =? c)%N
  | [] => false
  end.

(** The scan of the input for row ends: answers the rows found, the state
    at the end and the text after the last row end.  [atStart] holds on the
    first code unit only; [line] is the current row so far, reversed. *)
Fixpoint transform (st : scanState) (atStart : bool) (line : jsstring) (s : jsstring)
  : list jsstring * scanState * jsstring :=
  match s with
  | [] => ([], st, rev line)
  | chr :: rest =>
      if negb (escaped st) && (chr =? quote)%N && nextIs quote rest && negb atStart
      then transform (mkScan true (quoted st) (first st) (newline st)) false
                     (chr :: line) rest
      else if (chr =? quote)%N
      then transform (if escaped st
                      then mkScan false (quoted st) (first st) (newline st)
                      else mkScan false (negb (quoted st)) (first st) (newline st))
                     false (chr :: line) rest
      else if quoted st
      then transform st false (chr :: line) rest
      else
        let newline' :=
          if first st
          then if (chr =? nl)%N then nl
               else if (chr =? cr)%N && negb (nextIs nl rest) then cr
               else newline st
          else newline st in
        if (chr =? newline')%N
        then let '(lines, st', leftover) :=
               transform (mkScan (escaped st) (quoted st) false newline') false [] rest in
             (rev line :: lines, st', leftover)
        else transform (mkScan (escaped st) (quoted st) (first st) newline') false
                       (chr :: line) rest
  end.

(** The rows of an input, as decoded from its bytes: those ended by a row
    end, and on flush the text after the last row end, unless it is empty or
    the scan stopped inside an escape. *)
Definition splitLines (s : jsstring) : list jsstring :=
  let '(lines, st, leftover) := transform initialScan true [] (toWellFormed s) in
  lines ++
  match leftover with
  | [] => []
  | _ :: _ => if escaped st then [] else [leftover]
  end.

(** [parseCell]: the quotes around a quoted cell are removed and an escape
    character before a quote is dropped. *)
Fixpoint unescape (s : jsstring) : jsstring :=
  match s with
  | c :: rest =>
      match rest with
      | d :: rest' =>
          if (c =? quote)%N && (d =? quote)%N then d :: unescape rest'
          else c :: unescape rest
      | [] => [c]
      end
  | [] => []
  end.

Definition parseCell (raw : jsstring) : jsstring :=
  match raw with
  | c :: _ =>
      if (c =? quote)%N && (last raw 0 =? quote)%N
      then unescape (removelast (tl raw))
      else unescape raw
  | [] => []
  end.

(** The cell loop of [parseLine]; [cell] is the current cell so far,
    reversed. *)
Fixpoint cellLoop (isQuoted : bool) (cell : jsstring) (line : jsstring)
  : list jsstring :=
  match line with
  | [] =>
      match cell with
      | [] => []
      | _ :: _ => [parseCell (rev cell)]
      end
  | c :: rest =>
      let isStartingQuote := negb isQuoted && (c =? quote)%N in
      let isEndingQuote := isQuoted && (c =? quote)%N && nextIs comma rest in
      let isEscape := isQuoted && (c =? quote)%N && nextIs quote rest in
      if isStartingQuote || isEndingQuote
      then cellLoop (negb isQuoted) (c :: cell) rest
      else if isEscape
      then match rest with
           | d :: rest' => cellLoop isQuoted (d :: c :: cell) rest'
           | [] => cellLoop isQuoted (c :: cell) rest
           end
      else if (c =? comma)%N && negb isQuoted
      then parseCell (rev cell) :: cellLoop isQuoted [] rest
      else cellLoop isQuoted (c :: cell) rest
  end.

Definition endsWith (c : N) (s : jsstring) : bool :=
  match rev s with
  | d :: _ => (d =? c)%N
  | [] => false
  end.

(** [parseLine]: a carriage return before the row end is dropped; a row
    that ends with the separator has one more, empty, cell. *)
Definition parseLine (line : jsstring) : list jsstring :=
  let line := if endsWith cr line then removelast line else line in
  cellLoop false [] line ++ (if endsWith comma line then [[]] else []).

(** A row object: its properties in the order of their creation. *)
Definition object : Type := list (jsstring * jsstring).

Fixpoint objectSet (o : object) (key value : jsstring) : object :=
  match o with
  | [] => [(key, value)]
  | (k, v) :: o' =>
      if JS.eqb k key then (k, value) :: o' else (k, v) :: objectSet o' key value
  end.

(** [o[key] = value] on the plain object of a row, for a string [value]: the
    key [__proto__] reaches the setter of [Object.prototype], which ignores a
    string, and no property is created. *)
Definition assign (o : object) (key value : jsstring) : object :=
  if JS.eqb key (js "__proto__") then o else objectSet o key value.

(** [writeRow]: cell [index] is stored under header [index], or under
    [_index] when the header row is shorter. *)
Fixpoint writeRow (headers : list jsstring) (index : nat) (cells : list jsstring)
  (o : object) : object :=
  match cells with
  | [] => o
  | cell :: cells' =>
      let key :=
        match nth_error headers index with
        | Some header => header
        | None => 95%N :: ofNumber (N.of_nat index)
        end in
      writeRow headers (S index) cells' (assign o key cell)
  end.

(** The rows that the parser emits. *)
Definition parse (csvContent : jsstring) : list object :=
  match List.map parseLine (splitLines csvContent) with
  | [] => []
  | headers :: rows => List.map (fun cells => writeRow headers 0 cells []) rows
  end.

(** A property key that is an array index: a canonical decimal numeral
    below [2^32 - 1]. *)
Definition arrayIndex (key : jsstring) : option N :=
  match key with
  | [] => None
  | c :: rest =>
      if forallb isDigit key && (negb (c =? 48)%N || match rest with [] => true | _ => false end)
      then let n := fold_left (fun acc d => (acc * 10 + (d - 48))%N) key 0%N in
           if (n <? 4294967295)%N then Some n else None
      else None
  end.

Fixpoint insertByIndex (n : N) (v : jsstring) (l : list (N * jsstring))
  : list (N * jsstring) :=
  match l with
  | [] => [(n, v)]
  | (m, w) :: l' =>
      if (n <? m)%N then (n, v) :: l else (m, w) :: insertByIndex n v l'
  end.

(** [Object.values(o)]: array-index keys first, in ascending order, then
    the other keys in the order of their creation. *)
Definition objectValues (o : object) : list jsstring :=
  let indexed :=
    fold_left (fun acc kv =>
                 match arrayIndex (fst kv) with
                 | Some n => insertByIndex n (snd kv) acc
                 | None => acc
                 end) o [] in
  let named :=
    filter (fun kv => match arrayIndex (fst kv) with Some _ => false | None => true end) o in
  List.map snd indexed ++ List.map snd named.

(** An object none of whose keys is an array index. *)
Definition named (o : object) : Prop :=
  Forall (fun kv => arrayIndex (fst kv) = None) o.

End CsvParser.

Module CSVUtils.

Section WithUrlSyntax.
Context {L : UrlSyntax}.

Definition isValidUrl (url : jsstring) : bool := parsesAsUrl url.

(** A URL that [parseCSVUrls] keeps as it is. *)
Definition kept (u : jsstring) : Prop :=
  u <> [] /\ trim u = u /\ isValidUrl u = true.

(** The [data] handler of [parseCSVUrls], row after row. *)
Definition parseCSVUrls (csvContent : jsstring) : list jsstring :=
  flat_map
    (fun row =>
       match CsvParser.objectValues row with
       | (c :: v) :: _ =>
           let firstColumnValue := c :: v in
           if isValidUrl (trim firstColumnValue) then [trim firstColumnValue] else []
       | _ => []
       end)
    (CsvParser.parse csvContent).

End WithUrlSyntax.

Definition headers : list jsstring :=
  List.map js ["URL"; "Name"; "Title"; "Phone"; "Email"; "Error"]%string.

(** [value || fallback] on an optional string. *)
Definition orDefault (value : option jsstring) (fallback : jsstring) : jsstring :=
  match value with
  | Some (c :: v) => c :: v
  | _ => fallback
  end.

(** The rows that one result contributes. *)
Definition rowsOf (result : ScrapingResult) : list (list jsstring) :=
  match success result, data result with
  | true, Some d =>
      match contacts d with
      | _ :: _ =>
          List.map (fun contact =>
                      [ url result; name contact; title contact;
                        orDefault (phone contact) []; orDefault (email contact) []; [] ])
                   (contacts d)
      | [] =>
          [ [ url result;
              join (js "; ") (List.map Person.name (people d));
              join (js "; ") (List.map Person.title (people d));
              join (js "; ") (phoneNumbers d);
              join (js "; ") (emailAddresses d);
              [] ] ]
      end
  | _, _ =>
      [ [ url result; []; []; []; []; orDefault (error result) (js "Unknown error") ] ]
  end.

(** The global replace of [escapeCSVValue]: every double quote is doubled. *)
Definition doubleQuotes (value : jsstring) : jsstring :=
  flat_map (fun c => if (c =? 34)%N then [34%N; 34%N] else [c]) value.

Definition escapeCSVValue (value : jsstring) : jsstring :=
  if includes value [44%N] || includes value [34%N] || includes value [10%N]
  then [34%N] ++ doubleQuotes value ++ [34%N]
  else value.

Definition createCSVFromResults (results : list ScrapingResult) : jsstring :=
  let rows := flat_map rowsOf results in
  let escapedRows := List.map (List.map escapeCSVValue) rows in
  join [10%N] (join [44%N] headers :: List.map (join [44%N]) escapedRows).

(** The text of one row of an export. *)
Definition rowText (cells : list jsstring) : jsstring :=
  join [44%N] (List.map escapeCSVValue cells).

(** The header row of an export. *)
Definition headerText : jsstring := join [44%N] headers.

(** A row with at least two cells. *)
Definition wide (row : list jsstring) : Prop :=
  exists v v2 cells, row = v :: v2 :: cells.

(** The text of an export, from its rows. *)
Definition csvOfRows (rows : list (list jsstring)) : jsstring :=
  join [10%N] (headerText :: List.map rowText rows).



Section ReadBack.
Context {L : UrlSyntax}.



End ReadBack.

End CSVUtils.

(* ================================================================== *)
(** ** The CSV upload route ([POST] of the upload handler) *)
(* ================================================================== *)

Module UploadRoute.

Record File : Type := mkFile {
  fileName : jsstring;
  size : N;
  fileText : jsstring
}.

Inductive uploadResponse : Type :=
| UploadError (status : N) (error : jsstring)
| UploadOk (urls : list jsstring) (count : nat).

(** [name.endsWith(suffix)] *)
Definition endsWith (s suffix : jsstring) : bool := startsWith (rev s) (rev suffix).

Section WithUrlSyntax.
Context {L : UrlSyntax}.

(** The handler on a form whose field [file] is a File or is absent:
    [formData.get('file')] is [None] when no file was sent.  Every other
    request is answered by the [catch] block, see [handler] below. *)
Definition POST (file : option File) : uploadResponse :=
  match file with
  | None => UploadError 400 (js "No file uploaded")
  | Some file =>
      if negb (endsWith (fileName file) (js ".csv"))
      then UploadError 400 (js "Only CSV files are allowed")
      else if (5 * 1024 * 1024 <? size file)%N
      then UploadError 400 (js "File size must be less than 5MB")
      else
        let urls := CSVUtils.parseCSVUrls (fileText file) in
        if length urls =? 0
        then UploadError 400 (js "No valid URLs found in CSV file")
        else if 50 <? length urls
        then UploadError 400 (js "Maximum 50 URLs allowed per CSV file")
        else UploadOk urls (length urls)
  end.

(** What the handler meets before it has a file: [request.formData()] may
    reject; the field [file] of the form is absent, a string, or a File. *)
Inductive fileField : Type :=
| FieldAbsent
| FieldString (value : jsstring)
| FieldFile (file : File).

Inductive uploadRequest : Type :=
| FormRejected
| Form (field : fileField).

(** The handler on any request.  An empty string is falsy, as an absent
    field is; a non-empty string has no [name], so [file.name.endsWith]
    throws and the [catch] block answers 500, as it does when the form cannot
    be read.  The second component tells whether [console.error] was
    called. *)
Definition handler (request : uploadRequest) : uploadResponse * bool :=
  match request with
  | Form FieldAbsent | Form (FieldString []) => (POST None, false)
  | Form (FieldFile file) => (POST (Some file), false)
  | FormRejected | Form (FieldString (_ :: _)) =>
      (UploadError 500 (js "Failed to process CSV file"), true)
  end.

End WithUrlSyntax.

End UploadRoute.

(* ================================================================== *)
(** ** A scripted world, for the examples *)
(* ================================================================== *)

(** A world in which the answers of the network are written in advance:
    every request takes the next answer of the script.  A page is given
    parsed, as the list of its elements with the selectors they match. *)
Module Scripted.

Record element : Type := mkElement {
  matches : list jsstring;
  elementText : jsstring;
  href : option jsstring
}.

Definition page : Type := list element.

Definition answer : Type := outcome (Response page).

Definition request (url : jsstring) (config : RequestConfig) (script : list answer)
  : answer * list answer :=
  match script with
  | a :: script' => (a, script')
  | [] => (Throw (ErrorObj (js "socket hang up")), [])
  end.

Definition web : Web :=
  {| World := list answer;
     Data := page;
     Dom := page;
     Element := element;
     axios_get := request;
     randomBelow := fun _ w => (0, w);
     delay := fun _ w => w;
     isoNow := fun _ => js "2024-01-01T00:00:00.000Z";
     cheerio_load := fun p => Ok p;
     select := fun p selector => filter (fun e => existsb (JS.eqb selector) (matches e)) p;
     text := elementText;
     attr := fun e a => if JS.eqb a (js "href") then href e else None |}.

(** URLs for the examples: [http://] or [https://] followed by a host that
    starts with a letter or a digit, with no white space anywhere.  Every
    such string parses with [new URL], and a string without a scheme does
    not. *)
Definition httpUrl (s : jsstring) : bool :=
  let afterScheme (rest : jsstring) :=
    match rest with
    | c :: _ => alnum c && forallb (fun d => negb (isSpace d)) s
    | [] => false
    end in
  if startsWith s (js "https://") then afterScheme (skipn 8 s)
  else if startsWith s (js "http://") then afterScheme (skipn 7 s)
  else false.

Definition urls : UrlSyntax := {| parsesAsUrl := httpUrl |}.

Definition start (script : list answer) : State (W := web) :=
  mkState (W := web) script [].

Definition respond (status : N) (statusText : string) (p : page) : answer :=
  Ok (mkResponse status (js statusText) p).

End Scripted.

(* ================================================================== *)
(** ** Inputs of the examples *)
(* ================================================================== *)

Module Examples.

Definition toimitusjohtajaRegion : jsstring :=
  js "Matti Meikäläinen, Toimitusjohtaja, 040 123 4567 matti@example.fi".

Definition toimitusjohtajaContact : Contact :=
  {| name := js "Matti Meikäläinen";
     title := js "toimitusjohtaja";
     phone := Some (js "+358401234567");
     email := Some (js "matti@example.fi") |}.

Definition exampleUrl : jsstring := js "https://example.fi".

Definition fiftyOne : list jsstring := repeat exampleUrl 51.
Definition fifty : list jsstring := repeat exampleUrl 50.

Definition noUrlFile : UploadRoute.File :=
  UploadRoute.mkFile (js "urls.csv") 32 (js "URL,Name,Title,Phone,Email,Error").


Definition twoContacts : ScrapingResult :=
  {| url := js "https://a.fi/x,y"; success := true;
     data := Some {| contacts :=
                       [ mkContact (js "Matti Virtanen") (js "ceo") None None;
                         mkContact (js "Liisa Virtanen") (js "manager")
                                   (Some (js "+358401234567")) None ];
                     phoneNumbers := []; emailAddresses := []; people := [] |};
     error := None; timestamp := js "2024-01-01T00:00:00.000Z" |}.


Definition failedFetch : ScrapingResult :=
  {| url := js "https://b.fi"; success := false; data := None;
     error := Some (js "Failed to scrape https://b.fi after 3 attempts: HTTP 404: Not Found");
     timestamp := js "2024-01-01T00:00:00.000Z" |}.

End Examples.

(* ================================================================== *)
(** ** Further definitions: shapes, scanned regions, the single route *)
(* ================================================================== *)

Module Shapes.

(** A phone number in canonical form: [+358] and then 8 or 9 digits. *)
Definition canonicalPhone (phone : jsstring) : Prop :=
  exists ds, phone = js "+358" ++ ds /\ forallb isDigit ds = true /\ 8 <= length ds <= 9.

(** The number of occurrences of a code unit. *)
Definition occurrences (c : N) (s : jsstring) : nat := count_occ N.eq_dec s c.

(** [x] is what is left of [s] after a prefix. *)
Definition Suffix (x s : jsstring) : Prop := exists before, s = before ++ x.

(** A continuation that answers with a suffix of the input it is given. *)
Definition suffixCont (k : cont) : Prop :=
  forall prev s x, k prev s = Some x -> Suffix x s.

End Shapes.

Module EmailShape.

(** A printable ASCII code unit: neither a control character nor a space. *)
Definition printable (c : N) : bool := (33 <=? c)%N && (c <=? 126)%N.

(** The classes of the local part and of the domain in [emailBody]. *)
Definition localClass (c : N) : bool := alnum c || oneOf (js "._%+-") c.
Definition domainClass (c : N) : bool := alnum c || oneOf (js ".-") c.

End EmailShape.

Module Regions.
Import Shapes.

Section WithPage.
Context {U : Unicode} {W : Web}.

(** The test of the catch-all scan of [extractGroupedContacts]. *)
Definition catchAll (element : Element) : bool :=
  let t := text element in
  test hasNamePattern t && (test hasPhonePattern t || test emailPattern t).

(** The regions that [extractGroupedContacts] looks at, in scan order: the
    matches of the selectors, then the cards, then the catch-all scan. *)
Definition scannedElements (dom : Dom) : list Element :=
  flat_map (select dom) contactSelectors
  ++ select dom cardSelector
  ++ filter catchAll (select dom (js "div, section, article")).

(** No upper-case letter of a name is left in the lower-cased text of the
    sections that [extractPeople] reads. *)
Definition peopleTextLowered (dom : Dom) : bool :=
  forallb (fun selector =>
             forallb (fun element =>
                        forallb (fun c => negb (upperFi c))
                                (toLowerCase (text element)))
                     (select dom selector))
          peopleSelectors.

(** The invariant of the phone set while it is filled. *)
Definition phoneSet (set : list jsstring) : Prop :=
  NoDup set /\ Forall canonicalPhone set.

(** The invariant of the email set while it is filled. *)
Definition emailSet (set : list jsstring) : Prop :=
  NoDup set /\
  Forall (fun e => exists m, isValidEmail m = true /\ e = toLowerCase m) set.

(** The result that [extractPage] builds from a parsed page. *)
Definition pageInfo (dom : Dom) : ContactInfo :=
  {| contacts := extractGroupedContacts dom;
     phoneNumbers := extractPhoneNumbers dom;
     emailAddresses := extractEmailAddresses dom;
     people := extractPeople dom |}.

End WithPage.

End Regions.

Module Effects.

Section WithWorld.
Context {W : Web}.

(** A computation that writes nothing on the console. *)
Definition silent {A : Type} (m : M A) : Prop :=
  forall st o st', m st = (o, st') -> console st' = console st.

End WithWorld.

End Effects.

(* ================================================================== *)
(** ** The single-URL route ([POST] of the scrape handler) *)
(* ================================================================== *)

Module SingleRoute.

(** What [await request.json()] gives, as far as [POST] looks at it: the
    call may reject (the destructuring of a body that is not an object
    throws as well); otherwise the [url] property is falsy or is a non-empty
    string.  The handler awaits it in the [try] block and once more, on the
    same request, in the [catch] block.  The body of a request can be read
    once: whatever the first call gave, the second call rejects, with an
    error of the platform. *)
Inductive urlField : Type :=
| UrlFalsy
| UrlString (url : jsstring).

Record request : Type := mkRequest {
  firstRead : outcome urlField;
  rereadError : thrown
}.

(** The second [await request.json()], in the [catch] block. *)
Definition secondRead (req : request) : outcome urlField := Throw (rereadError req).

(** [NextResponse.json(payload, { status })] *)
Inductive postResponse : Type :=
| PostError (status : N) (error : jsstring)
| PostResult (status : N) (result : ScrapingResult).

(** What the handler answers, or the error it rejects with, and the errors
    it has passed to [console.error]. *)
Record answered : Type := mkAnswered {
  response : outcome postResponse;
  logged : list thrown
}.

(** [error instanceof Error ? error.message : 'Unknown error occurred'] *)
Definition errorMessage (error : thrown) : jsstring :=
  match error with
  | ErrorObj message => message
  | NotAnError => js "Unknown error occurred"
  end.

(** [(await request.json()).url || 'unknown'] *)
Definition urlOrUnknown (body : urlField) : jsstring :=
  match body with
  | UrlString (c :: url) => c :: url
  | _ => js "unknown"
  end.

Section WithWorld.
Context {U : Unicode} {L : UrlSyntax} {W : Web}.

(** The [try] block of [POST]. *)
Definition tryBlock (req : request) : M postResponse :=
  body <- ofOutcome (firstRead req) ;;
  match body with
  | UrlFalsy | UrlString [] => ret (PostError 400 (js "URL is required"))
  | UrlString url =>
      if parsesAsUrl url
      then
        data <- scrapeContactInfo url ;;
        timestamp <- now ;;
        ret (PostResult 200
               {| url := url; success := true; data := Some data; error := None;
                  timestamp := timestamp |})
      else ret (PostError 400 (js "Invalid URL format"))
  end.

Definition POST (req : request) : State -> answered * State :=
  fun st =>
    match tryBlock req st with
    | (Ok answer, st') => (mkAnswered (Ok answer) [], st')
    | (Throw error, st') =>
        match secondRead req with
        | Ok body =>
            (mkAnswered
               (Ok (PostResult 500
                      {| url := urlOrUnknown body; success := false; data := None;
                         error := Some (errorMessage error);
                         timestamp := isoNow (world st') |}))
               [error], st')
        | Throw error' => (mkAnswered (Throw error') [error], st')
        end
    end.

End WithWorld.

End SingleRoute.

Module MoreExamples.

(** A page with one team member, whose text is also the text of the body. *)
Definition teamPage : Scripted.page :=
  [ Scripted.mkElement [js ".team-member"] Examples.toimitusjohtajaRegion None;
    Scripted.mkElement [js "body"] Examples.toimitusjohtajaRegion None ].


(** A file of one line, which is a URL. *)
Definition bareUrlFile : UploadRoute.File :=
  UploadRoute.mkFile (js "urls.csv") 18 Examples.exampleUrl.

(** A file with a header row and one URL. *)
Definition oneUrlFile : UploadRoute.File :=
  UploadRoute.mkFile (js "urls.csv") 22 (js "URL" ++ [10%N] ++ Examples.exampleUrl).

(** The contact of the team page under its name in capitals, with another
    title and no phone. *)
Definition shoutedContact : Contact :=
  {| name := js "MATTI MEIKÄLÄINEN";
     title := js "ceo";
     phone := None;
     email := Some (js "matti@example.fi") |}.

Definition liisaContact : Contact :=
  {| name := js "Liisa Virtanen";
     title := js "manager";
     phone := Some (js "+358501234567");
     email := None |}.

(** The failure of a URL that is one high surrogate. *)
Definition loneSurrogateResult : ScrapingResult :=
  {| url := [55357%N]; success := false; data := None;
     error := Some (js "Invalid URL provided");
     timestamp := js "2024-01-01T00:00:00.000Z" |}.

(** The error of a second read of a body. *)
Definition bodyUnusable : thrown :=
  ErrorObj (js "Body is unusable: Body has already been read").

(** A request whose URL does not parse. *)
Definition unparsableRequest : SingleRoute.request :=
  SingleRoute.mkRequest (Ok (SingleRoute.UrlString (js "not a url"))) bodyUnusable.

(** A request for the example URL. *)
Definition consumedRequest : SingleRoute.request :=
  SingleRoute.mkRequest (Ok (SingleRoute.UrlString Examples.exampleUrl)) bodyUnusable.

(** The state in which a scrape answered by HTTP 404 ends. *)
Definition notFoundEnd : State (W := Scripted.web) :=
  snd (scrapeContactInfo (U := latin1) (L := Scripted.urls) (W := Scripted.web)
         Examples.exampleUrl (Scripted.start [Scripted.respond 404 "Not Found" []])).

End MoreExamples.

Module Trace.


(** The failure result of the batch route for a URL that does not parse. *)
Definition invalidResult (timestamp url : jsstring) : ScrapingResult :=
  {| url := url; success := false; data := None;
     error := Some (finalErrorMessage url (Some (js "Invalid URL provided")));
     timestamp := timestamp |}.

End Trace.

Module TraceExamples.



End TraceExamples.


(* ================================================================== *)
(** * Lemmas and theorems *)
(* ================================================================== *)

Import ScrapeRoute Examples.
(* ================================================================== *)
(** ** Facts about strings *)
(* ================================================================== *)

Module JSFacts.

Lemma eqb_eq (s t : jsstring) : JS.eqb s t = true <-> s = t.
Proof. unfold JS.eqb. destruct (list_eq_dec N.eq_dec s t); split; congruence. Qed.

Lemma startsWith_app (p rest : jsstring) : startsWith (p ++ rest) p = true.
Proof.
  induction p as [|c p IH]; simpl; [reflexivity|].
  now rewrite N.eqb_refl, IH.
Qed.

Lemma startsWith_iff (s p : jsstring) :
  startsWith s p = true <-> exists rest, s = p ++ rest.
Proof.
  revert s; induction p as [|c p IH]; intros s; simpl.
  - split; [intros _; now exists s | reflexivity].
  - destruct s as [|d s]; simpl.
    + split; [discriminate | intros [rest H]; discriminate].
    + rewrite andb_true_iff, N.eqb_eq, IH. split.
      * intros [-> [rest ->]]. now exists rest.
      * intros [rest H]. injection H as -> ->. split; [reflexivity | now exists rest].
Qed.

Lemma includes_iff (s p : jsstring) :
  includes s p = true <-> exists before after, s = before ++ p ++ after.
Proof.
  induction s as [|d s IH]; simpl.
  - rewrite orb_false_r, startsWith_iff. split.
    + intros [rest H]. exists [], rest. exact H.
    + intros [before [after H]]. destruct before; simpl in H.
      * now exists after.
      * discriminate.
  - rewrite orb_true_iff, IH, startsWith_iff. split.
    + intros [[rest H] | [before [after H]]].
      * exists [], rest. exact H.
      * exists (d :: before), after. simpl. now rewrite H.
    + intros [before [after H]]. destruct before as [|b before]; simpl in H.
      * left. now exists after.
      * right. injection H as _ H. now exists before, after.
Qed.



End JSFacts.

(* ================================================================== *)
(** ** The matcher decides the language of a regex *)
(* ================================================================== *)

Module RegexFacts.

Lemma orElse_some (a b : option jsstring) :
  orElse a b <> None <-> a <> None \/ b <> None.
Proof. destruct a, b; simpl; split; (tauto || (intros; try congruence)); intuition congruence. Qed.

Lemma lastOr_app (prev : option N) (s t : jsstring) :
  lastOr prev (s ++ t) = lastOr (lastOr prev s) t.
Proof. unfold lastOr. apply fold_left_app. Qed.

Section Runs.
Variable p : N -> bool.

Lemma exactly_spec (n : nat) (prev : option N) (s : jsstring) (k : cont) :
  exactly n p prev s k <> None <->
  exists s1 s2, s = s1 ++ s2 /\ forallb p s1 = true /\ length s1 = n /\
                k (lastOr prev s1) s2 <> None.
Proof.
  revert prev s; induction n as [|n IH]; intros prev s; simpl.
  - split.
    + intros H. exists [], s. now repeat split.
    + intros [s1 [s2 [-> [_ [Hl Hk]]]]]. destruct s1; [exact Hk | discriminate].
  - destruct s as [|c s].
    + split; [congruence|]. intros [s1 [s2 [H [_ [Hl _]]]]].
      destruct s1; discriminate.
    + destruct (p c) eqn:Hc.
      * rewrite IH. split.
        -- intros [s1 [s2 [-> [Hp [Hl Hk]]]]]. exists (c :: s1), s2. simpl.
           rewrite Hc, Hp, Hl. now repeat split.
        -- intros [s1 [s2 [H [Hp [Hl Hk]]]]]. destruct s1 as [|d s1]; [discriminate|].
           simpl in *. injection H as <- ->. apply andb_true_iff in Hp as [_ Hp].
           exists s1, s2. repeat split; auto.
      * split; [congruence|]. intros [s1 [s2 [H [Hp [Hl _]]]]].
        destruct s1 as [|d s1]; [discriminate|]. simpl in *. injection H as <- _.
        rewrite Hc in Hp. discriminate.
Qed.

Lemma upto_spec (n : nat) (prev : option N) (s : jsstring) (k : cont) :
  upto n p prev s k <> None <->
  exists s1 s2, s = s1 ++ s2 /\ forallb p s1 = true /\ length s1 <= n /\
                k (lastOr prev s1) s2 <> None.
Proof.
  revert prev s; induction n as [|n IH]; intros prev s; simpl.
  - split.
    + intros H. exists [], s. now repeat split.
    + intros [s1 [s2 [-> [_ [Hl Hk]]]]]. destruct s1; [exact Hk | simpl in Hl; lia].
  - assert (Hnil : k prev s <> None <->
                   exists s1 s2, s = s1 ++ s2 /\ forallb p s1 = true /\ length s1 <= S n /\
                     k (lastOr prev s1) s2 <> None /\ s1 = []).
    { split.
      - intros H. exists [], s. repeat split; auto. simpl; lia.
      - intros [s1 [s2 [-> [_ [_ [Hk ->]]]]]]. exact Hk. }
    destruct s as [|c s].
    + rewrite Hnil. split.
      * intros [s1 [s2 H]]. exists s1, s2. tauto.
      * intros [s1 [s2 [H [Hp [Hl Hk]]]]]. exists s1, s2.
        destruct s1; [tauto | discriminate].
    + destruct (p c) eqn:Hc.
      * rewrite orElse_some, IH, Hnil. split.
        -- intros [[s1 [s2 [-> [Hp [Hl Hk]]]]] | [s1 [s2 H]]].
           ++ exists (c :: s1), s2. simpl. rewrite Hc, Hp. repeat split; auto. lia.
           ++ exists s1, s2. tauto.
        -- intros [s1 [s2 [H [Hp [Hl Hk]]]]]. destruct s1 as [|d s1].
           ++ right. exists [], s2. tauto.
           ++ left. simpl in *. injection H as <- ->.
              apply andb_true_iff in Hp as [_ Hp].
              exists s1, s2. repeat split; auto. lia.
      * rewrite Hnil. split.
        -- intros [s1 [s2 H]]. exists s1, s2. tauto.
        -- intros [s1 [s2 [H [Hp [Hl Hk]]]]]. exists s1, s2.
           destruct s1 as [|d s1]; [tauto|]. simpl in *. injection H as <- _.
           rewrite Hc in Hp. discriminate.
Qed.

Lemma many_spec (prev : option N) (s : jsstring) (k : cont) :
  many p prev s k <> None <->
  exists s1 s2, s = s1 ++ s2 /\ forallb p s1 = true /\ k (lastOr prev s1) s2 <> None.
Proof.
  revert prev; induction s as [|c s IH]; intros prev; simpl.
  - split.
    + intros H. exists [], []. now repeat split.
    + intros [s1 [s2 [H [_ Hk]]]]. symmetry in H. apply app_eq_nil in H as [-> ->].
      exact Hk.
  - assert (Hnil : k prev (c :: s) <> None <->
                   exists s1 s2, c :: s = s1 ++ s2 /\ forallb p s1 = true /\
                     k (lastOr prev s1) s2 <> None /\ s1 = []).
    { split.
      - intros H. exists [], (c :: s). repeat split; auto.
      - intros [s1 [s2 [H [_ [Hk ->]]]]]. simpl in H. subst s2. exact Hk. }
    destruct (p c) eqn:Hc.
    + rewrite orElse_some, IH, Hnil. split.
      * intros [[s1 [s2 [-> [Hp Hk]]]] | [s1 [s2 H]]].
        -- exists (c :: s1), s2. simpl. rewrite Hc, Hp. repeat split; auto.
        -- exists s1, s2. tauto.
      * intros [s1 [s2 [H [Hp Hk]]]]. destruct s1 as [|d s1].
        -- right. exists [], s2. tauto.
        -- left. simpl in *. injection H as <- ->.
           apply andb_true_iff in Hp as [_ Hp].
           exists s1, s2. repeat split; auto.
    + rewrite Hnil. split.
      * intros [s1 [s2 H]]. exists s1, s2. tauto.
      * intros [s1 [s2 [H [Hp Hk]]]]. exists s1, s2.
        destruct s1 as [|d s1]; [tauto|]. simpl in *. injection H as <- _.
        rewrite Hc in Hp. discriminate.
Qed.

End Runs.

(** The matcher succeeds exactly when some prefix is in the language and the
    continuation accepts what follows. *)
Lemma rmatch_spec (r : regex) :
  simple r = true ->
  forall (prev : option N) (s : jsstring) (k : cont),
    rmatch r prev s k <> None <->
    exists s1 s2, s = s1 ++ s2 /\ Lang r s1 /\ k (lastOr prev s1) s2 <> None.
Proof.
  induction r as [c|p|r1 IH1 r2 IH2|r1 IH1 r2 IH2|r1 IH1|p lo more| | |];
    simpl; intros Hs prev s k; try discriminate.
  - destruct s as [|d s].
    + split; [congruence|]. intros [s1 [s2 [H [-> _]]]]. discriminate.
    + destruct (N.eqb_spec c d) as [->|Hne].
      * split.
        -- intros H. exists [d], s. now repeat split.
        -- intros [s1 [s2 [H [-> Hk]]]]. injection H as ->. exact Hk.
      * split; [congruence|]. intros [s1 [s2 [H [-> _]]]]. injection H as H _.
        congruence.
  - destruct s as [|d s].
    + split; [congruence|]. intros [s1 [s2 [H [[c [-> _]] _]]]]. discriminate.
    + destruct (p d) eqn:Hd.
      * split.
        -- intros H. exists [d], s. repeat split; auto. now exists d.
        -- intros [s1 [s2 [H [[c [-> Hc]] Hk]]]]. injection H as -> ->. exact Hk.
      * split; [congruence|]. intros [s1 [s2 [H [[c [-> Hc]] _]]]].
        injection H as -> _. congruence.
  - apply andb_true_iff in Hs as [Hs1 Hs2]. rewrite (IH1 Hs1). split.
    + intros [s1 [s2 [-> [H1 Hk]]]]. apply (IH2 Hs2) in Hk as [s3 [s4 [-> [H2 Hk]]]].
      exists (s1 ++ s3), s4. rewrite app_assoc, lastOr_app. repeat split; auto.
      now exists s1, s3.
    + intros [s13 [s4 [-> [[s1 [s3 [-> [H1 H2]]]] Hk]]]].
      exists s1, (s3 ++ s4). rewrite <- app_assoc. repeat split; auto.
      apply (IH2 Hs2). exists s3, s4. rewrite <- lastOr_app. now repeat split.
  - apply andb_true_iff in Hs as [Hs1 Hs2].
    rewrite orElse_some, (IH1 Hs1), (IH2 Hs2). split.
    + intros [[s1 [s2 [-> [H Hk]]]] | [s1 [s2 [-> [H Hk]]]]];
        exists s1, s2; repeat split; auto.
    + intros [s1 [s2 [-> [[H|H] Hk]]]]; [left | right]; exists s1, s2; now repeat split.
  - rewrite orElse_some, (IH1 Hs). split.
    + intros [[s1 [s2 [-> [H Hk]]]] | Hk].
      * exists s1, s2. repeat split; auto.
      * exists [], s. repeat split; auto.
    + intros [s1 [s2 [-> [[H | ->] Hk]]]].
      * left. exists s1, s2. now repeat split.
      * right. exact Hk.
  - destruct more as [n|]; rewrite exactly_spec; split.
    + intros [s1 [s2 [-> [Hp [Hl Hk]]]]]. apply upto_spec in Hk as [s3 [s4 [-> [Hp' [Hl' Hk]]]]].
      exists (s1 ++ s3), s4. rewrite app_assoc, lastOr_app, forallb_app, Hp, Hp', length_app.
      repeat split; auto; lia.
    + intros [t [s4 [-> [[Hp [Hlo Hhi]] Hk]]]].
      exists (firstn lo t), (skipn lo t ++ s4).
      rewrite app_assoc, firstn_skipn.
      rewrite <- (firstn_skipn lo t), forallb_app in Hp. apply andb_true_iff in Hp as [Hp1 Hp2].
      repeat split; auto.
      * rewrite length_firstn. lia.
      * apply upto_spec. exists (skipn lo t), s4. rewrite <- lastOr_app, firstn_skipn.
        repeat split; auto. rewrite length_skipn. lia.
    + intros [s1 [s2 [-> [Hp [Hl Hk]]]]]. apply many_spec in Hk as [s3 [s4 [-> [Hp' Hk]]]].
      exists (s1 ++ s3), s4. rewrite app_assoc, lastOr_app, forallb_app, Hp, Hp', length_app.
      repeat split; auto; lia.
    + intros [t [s4 [-> [[Hp [Hlo _]] Hk]]]].
      exists (firstn lo t), (skipn lo t ++ s4).
      rewrite app_assoc, firstn_skipn.
      rewrite <- (firstn_skipn lo t), forallb_app in Hp. apply andb_true_iff in Hp as [Hp1 Hp2].
      repeat split; auto.
      * rewrite length_firstn. lia.
      * apply many_spec. exists (skipn lo t), s4. rewrite <- lastOr_app, firstn_skipn.
        repeat split; auto.
Qed.

(** An anchored regex can only match from the first position. *)
Lemma execFrom_anchored_later (body : regex) (c : N) (s : jsstring) :
  execFrom (anchored body) (Some c) s = None.
Proof.
  revert c; induction s as [|d s IH]; intros c; simpl; [reflexivity | apply IH].
Qed.

(** [/^body$/.test(s)] holds exactly for the strings of the language. *)
Lemma test_anchored (body : regex) (s : jsstring) :
  simple body = true ->
  test (anchored body) s = true <-> Lang body s.
Proof.
  intros Hs. unfold test.
  assert (H : rmatch (anchored body) None s done <> None <-> Lang body s).
  { simpl. rewrite (rmatch_spec body Hs). split.
    - intros [s1 [s2 [-> [HL Hk]]]]. destruct s2; [|congruence].
      now rewrite app_nil_r.
    - intros HL. exists s, []. rewrite app_nil_r. repeat split; auto.
      unfold done. congruence. }
  destruct s as [|c s]; cbn [execFrom].
  - destruct (rmatch (anchored body) None [] done) eqn:E.
    + split; [intros _; apply H; congruence | reflexivity].
    + split; [discriminate | intros HL; apply H in HL; congruence].
  - destruct (rmatch (anchored body) None (c :: s) done) eqn:E.
    + split; [intros _; apply H; congruence | reflexivity].
    + rewrite execFrom_anchored_later.
      split; [discriminate | intros HL; apply H in HL; congruence].
Qed.

End RegexFacts.

(* ================================================================== *)
(** ** Normalizer *)
(* ================================================================== *)

Module NormalizerFacts.
Import JSFacts RegexFacts.

Lemma plus358 : js "+358" = [43; 51; 53; 56]%N.
Proof. reflexivity. Qed.

Lemma zero : js "0" = [48]%N.
Proof. reflexivity. Qed.


Lemma stripNonPhone_app (s t : jsstring) :
  stripNonPhone (s ++ t) = stripNonPhone s ++ stripNonPhone t.
Proof. apply filter_app. Qed.

Lemma stripNonPhone_digits (ds : jsstring) :
  forallb isDigit ds = true -> stripNonPhone ds = ds.
Proof.
  unfold stripNonPhone. induction ds as [|c ds IH]; simpl; [reflexivity|].
  intros H. apply andb_true_iff in H as [Hc Hds]. now rewrite Hc, IH.
Qed.

Lemma isSpace_stripped (c : N) : isSpace c = true -> stripNonPhone [c] = [].
Proof.
  unfold stripNonPhone, isSpace, isDigit. simpl. intros H.
  destruct ((48 <=? c)%N && (c <=? 57)%N || (c =? 43)%N) eqn:E; [|reflexivity].
  exfalso.
  assert (E' : (48 <= c <= 57 \/ c = 43)%N).
  { apply orb_true_iff in E as [E | E].
    - apply andb_true_iff in E as [E1 E2]. apply N.leb_le in E1, E2. lia.
    - apply N.eqb_eq in E. lia. }
  clear E.
  repeat (apply orb_true_iff in H; destruct H as [H | H]);
    try (apply andb_true_iff in H; destruct H as [H1 H2]; apply N.leb_le in H1, H2; lia);
    apply N.eqb_eq in H; lia.
Qed.

(** The cleaned string of a phone that starts with [+358] is left alone. *)
Lemma normalize_international (p : jsstring) :
  startsWith (stripNonPhone p) (js "+358") = true ->
  normalizePhoneNumber p = stripNonPhone p.
Proof. unfold normalizePhoneNumber. now intros ->. Qed.

Lemma normalize_national (p rest : jsstring) :
  stripNonPhone p = js "0" ++ rest ->
  normalizePhoneNumber p = js "+358" ++ rest.
Proof.
  unfold normalizePhoneNumber. intros ->. reflexivity.
Qed.


Lemma Lang_prefix (a : jsstring) :
  Lang prefix358or0 a <-> a = js "+358" \/ a = js "0".
Proof.
  unfold prefix358or0. rewrite plus358, zero. simpl. split.
  - intros [[s1 [s2 [-> [-> [s3 [s4 [-> [-> [s5 [s6 [-> [-> ->]]]]]]]]]]]] | ->]; auto.
  - intros [-> | ->]; [left | now right].
    exists [43%N], [51; 53; 56]%N. repeat split.
    exists [51%N], [53; 56]%N. repeat split.
    exists [53%N], [56%N]. repeat split.
Qed.

(** [/^(\+358|0)[0-9]{8,9}$/] describes the numeric patterns. *)
Lemma reCleanPhone_spec (s : jsstring) :
  test reCleanPhone s = true <-> FinnishNumeric s.
Proof.
  unfold reCleanPhone. rewrite test_anchored by reflexivity.
  cbn [seqs Lang]. unfold FinnishNumeric. split.
  - intros [a [ds [-> [Ha [Hd [Hlo Hhi]]]]]]. apply Lang_prefix in Ha.
    exists ds. repeat split; auto; try lia.
    destruct Ha as [-> | ->]; [right | left]; reflexivity.
  - intros [ds [Hs [Hd [Hlo Hhi]]]]. destruct Hs as [-> | ->].
    + exists (js "0"), ds. repeat split; auto; try lia. apply Lang_prefix. now right.
    + exists (js "+358"), ds. repeat split; auto; try lia. apply Lang_prefix. now left.
Qed.

Lemma Lang_optSpace (o : jsstring) :
  Lang (Opt (Class isSpace)) o -> stripNonPhone o = [].
Proof.
  simpl. intros [[c [-> Hc]] | ->]; [now apply isSpace_stripped | reflexivity].
Qed.

Lemma Lang_digits (n : nat) (ds : jsstring) :
  Lang (Rep digit n (Some 0)) ds -> forallb isDigit ds = true /\ length ds = n.
Proof. simpl. intros [H [Hlo Hhi]]. split; [exact H | lia]. Qed.

(** Whatever the second pattern of [isValidPhoneNumber] accepts, the first
    accepts once cleaned. *)
Lemma reSpacedPhone_clean (p : jsstring) :
  test reSpacedPhone p = true -> FinnishNumeric (stripNonPhone p).
Proof.
  unfold reSpacedPhone. rewrite test_anchored by reflexivity.
  cbn [seqs]. cbn [Lang].
  intros (a & r1 & -> & Ha & d2 & r2 & -> & H2 & o1 & r3 & -> & Ho1 & d3 & r4 & -> & H3
          & o2 & d4 & -> & Ho2 & H4).
  apply Lang_prefix in Ha.
  change (Lang (Rep digit 2 (Some 0)) d2) in H2.
  change (Lang (Rep digit 3 (Some 0)) d3) in H3.
  change (Lang (Rep digit 4 (Some 0)) d4) in H4.
  change (Lang (Opt (Class isSpace)) o1) in Ho1.
  change (Lang (Opt (Class isSpace)) o2) in Ho2.
  apply Lang_digits in H2 as [H2 L2], H3 as [H3 L3], H4 as [H4 L4].
  apply Lang_optSpace in Ho1, Ho2.
  rewrite !stripNonPhone_app, Ho1, Ho2, !(stripNonPhone_digits _ H2),
    !(stripNonPhone_digits _ H3), !(stripNonPhone_digits _ H4). simpl.
  exists (d2 ++ d3 ++ d4). repeat split.
  - destruct Ha as [-> | ->]; [right | left]; reflexivity.
  - now rewrite !forallb_app, H2, H3, H4.
  - rewrite !length_app. lia.
  - rewrite !length_app. lia.
Qed.

End NormalizerFacts.

Module NormalizerSpec.
Import JSFacts RegexFacts NormalizerFacts.




End NormalizerSpec.

(* ================================================================== *)
(** ** Extractor: titles and deduplication *)
(* ================================================================== *)

Module ExtractorFacts.
Import JSFacts.

Lemma firstSome_spec {A B : Type} (f : A -> option B) (l : list A) :
  match firstSome f l with
  | Some b => exists before a after,
      l = before ++ a :: after /\ f a = Some b /\
      forall a', In a' before -> f a' = None
  | None => forall a, In a l -> f a = None
  end.
Proof.
  induction l as [|a l IH]; simpl.
  - intros a [].
  - destruct (f a) as [b|] eqn:E.
    + exists [], a, l. repeat split; auto. intros a' [].
    + destruct (firstSome f l) as [b|].
      * destruct IH as (before & a0 & after & -> & Ha0 & Hbefore).
        exists (a :: before), a0, after. repeat split; auto.
        intros a' [<- | H]; auto.
      * intros a' [<- | H]; auto.
Qed.

Lemma Subsequence_refl {A : Type} (l : list A) : Subsequence l l.
Proof. induction l; [constructor | now apply Subsequence_take]. Qed.

Lemma Subsequence_firstn {A : Type} (n : nat) (s l : list A) :
  Subsequence s l -> Subsequence (firstn n s) l.
Proof.
  intros H; revert n; induction H; intros n.
  - rewrite firstn_nil. constructor.
  - constructor. apply IHSubsequence.
  - destruct n; simpl; [constructor | apply Subsequence_take, IHSubsequence].
Qed.

Lemma Subsequence_In {A : Type} (s l : list A) (x : A) :
  Subsequence s l -> In x s -> In x l.
Proof.
  induction 1; simpl; intros Hx; auto.
  - contradiction.
  - destruct Hx; auto.
Qed.

Section WithUnicode.
Context {U : Unicode}.

Lemma findTitle_spec (text : jsstring) :
  FirstSuch (fun k => includes (toLowerCase text) k = true) titleKeywords (findTitle text)
  \/ (forall k, In k titleKeywords -> includes (toLowerCase text) k = false) /\
     findTitle text = js "Tuntematon".
Proof.
  unfold findTitle.
  pose proof (firstSome_spec
    (fun keyword => if includes (toLowerCase text) keyword then Some keyword else None)
    titleKeywords) as H.
  destruct (firstSome _ titleKeywords) as [k|].
  - left. destruct H as (before & a & after & Hl & Ha & Hbefore).
    destruct (includes (toLowerCase text) a) eqn:Ea; [|discriminate].
    injection Ha as <-. exists before, after. repeat split; auto.
    intros k' Hk' Hinc. apply Hbefore in Hk'. rewrite Hinc in Hk'. discriminate.
  - right. split; [|reflexivity]. intros k Hk. apply H in Hk.
    destruct (includes (toLowerCase text) k); [discriminate | reflexivity].
Qed.

Lemma extractContactFromElement_title (text : jsstring) (contact : Contact) :
  extractContactFromElement text = Some contact -> title contact = findTitle text.
Proof.
  unfold extractContactFromElement.
  destruct (firstSome _ namePatterns) as [m|]; [|discriminate].
  destruct (trim m); [discriminate|]. intros H. injection H as <-. reflexivity.
Qed.

Lemma isDuplicate_iff (acc : list Contact) (c : Contact) :
  isDuplicate acc c = true <-> exists d, In d acc /\ nameKey d = nameKey c.
Proof.
  unfold isDuplicate. rewrite existsb_exists. split.
  - intros [d [Hd E]]. apply eqb_eq in E. now exists d.
  - intros [d [Hd E]]. exists d. split; auto. now apply eqb_eq.
Qed.

(** The fold of [removeDuplicateContacts] only appends, and what it appends
    are the first occurrences of the keys not yet present. *)
Lemma fold_pushUnique_spec (l acc : list Contact) :
  exists extra,
    fold_left pushUnique l acc = acc ++ extra /\
    Subsequence extra l /\
    (forall c, In c extra ->
       FirstOccurrence l c /\ forall d, In d acc -> nameKey d <> nameKey c) /\
    (NoDup (List.map nameKey acc) -> NoDup (List.map nameKey (acc ++ extra))) /\
    (forall c, In c l -> exists d, In d (acc ++ extra) /\ nameKey d = nameKey c).
Proof.
  revert acc; induction l as [|x l IH]; intros acc; simpl.
  - exists []. rewrite app_nil_r.
    split; [reflexivity|]. split; [constructor|].
    split; [intros c []|]. split; [auto | intros c []].
  - unfold pushUnique at 2. destruct (isDuplicate acc x) eqn:Edup.
    + apply isDuplicate_iff in Edup as [d0 [Hd0 Ed0]].
      destruct (IH acc) as (extra & Hfold & Hsub & Hfirst & Hnd & Hcov).
      exists extra. repeat split; auto.
      * now constructor.
      * destruct (Hfirst c H) as [(before & after & -> & Hb) Hacc].
        exists (x :: before), after. split; [reflexivity|].
        intros e [<- | He]; auto. rewrite <- Ed0. now apply Hacc.
      * now apply Hfirst.
      * intros c [<- | Hc]; auto. exists d0. split; auto. apply in_or_app. now left.
    + destruct (IH (acc ++ [x])) as (extra & Hfold & Hsub & Hfirst & Hnd & Hcov).
      assert (Hnew : forall d, In d acc -> nameKey d <> nameKey x).
      { intros d Hd E. assert (isDuplicate acc x = true) as H
          by (apply isDuplicate_iff; now exists d). congruence. }
      exists (x :: extra). rewrite Hfold, <- app_assoc. simpl. repeat split; auto.
      * now constructor.
      * destruct H as [<- | Hc].
        -- exists [], l. split; [reflexivity | intros e []].
        -- destruct (Hfirst c Hc) as [(before & after & -> & Hb) Hacc].
           exists (x :: before), after. split; [reflexivity|].
           intros e [<- | He]; auto. apply Hacc. apply in_or_app. right. now left.
      * destruct H as [<- | Hc]; auto. intros d Hd.
        apply (Hfirst c Hc). apply in_or_app. now left.
      * intros Hacc. rewrite <- app_assoc in Hnd. apply Hnd.
        rewrite map_app. simpl. apply NoDup_app; auto.
        -- constructor; [intros [] | constructor].
        -- intros k Hk [<- | []]. apply in_map_iff in Hk as [d [Ed Hd]].
           now apply (Hnew d).
      * rewrite <- app_assoc in Hcov. intros c [<- | Hc]; auto.
        exists x. split; auto. apply in_or_app. right. now left.
Qed.

Lemma NoDup_firstn {A : Type} (n : nat) (l : list A) : NoDup l -> NoDup (firstn n l).
Proof.
  intros H. rewrite <- (firstn_skipn n l) in H. now apply NoDup_app_remove_r in H.
Qed.

End WithUnicode.
End ExtractorFacts.

Module ExtractorSpec.
Import JSFacts ExtractorFacts.

Section WithUnicode.
Context {U : Unicode}.

(** C4 (amended): the title of the record extracted from a region is the
    first keyword of [titleKeywords] that occurs in the lower-cased text of
    the region; when no keyword occurs it is the sentinel [Tuntematon]. *)
Theorem extracted_title_first_keyword (text : jsstring) (contact : Contact) :
  extractContactFromElement text = Some contact ->
  FirstSuch (fun k => includes (toLowerCase text) k = true) titleKeywords (title contact)
  \/ ((forall k, In k titleKeywords -> includes (toLowerCase text) k = false) /\
      title contact = js "Tuntematon").
Proof.
  intros H. rewrite (extractContactFromElement_title text contact H).
  apply findTitle_spec.
Qed.

(** C5: deduplication keeps the encounter order, keeps for every name (up
    to case) its first record, and returns at most 10 records. *)
Theorem removeDuplicateContacts_stable_bounded (contacts : list Contact) :
  let result := removeDuplicateContacts contacts in
  length result <= 10 /\
  Subsequence result contacts /\
  NoDup (List.map nameKey result) /\
  (forall c, In c result -> FirstOccurrence contacts c) /\
  exists uniqueContacts,
    result = firstn 10 uniqueContacts /\
    NoDup (List.map nameKey uniqueContacts) /\
    (forall c, In c uniqueContacts -> FirstOccurrence contacts c) /\
    (forall c, In c contacts ->
       exists d, In d uniqueContacts /\ nameKey d = nameKey c).
Proof.
  unfold removeDuplicateContacts. cbv zeta.
  destruct (fold_pushUnique_spec contacts []) as (extra & Hfold & Hsub & Hfirst & Hnd & Hcov).
  simpl in Hfold, Hnd, Hcov. rewrite Hfold.
  assert (Hnd' : NoDup (List.map nameKey extra)) by (apply Hnd; constructor).
  split; [apply firstn_le_length|].
  split; [now apply Subsequence_firstn|].
  split; [rewrite <- firstn_map; now apply NoDup_firstn|].
  split.
  - intros c Hc. apply Hfirst. rewrite <- (firstn_skipn 10 extra).
    apply in_or_app. now left.
  - exists extra. repeat split; auto. intros c Hc. now apply Hfirst.
Qed.

End WithUnicode.

(** C4, as first stated, fails: a region with a name and no title keyword
    gets the title [Tuntematon], not [unknown]. *)
Lemma title_sentinel_counterexample :
  exists contact,
    extractContactFromElement (U := latin1) (js "Matti Virtanen") = Some contact /\
    (forall k, In k titleKeywords ->
       includes (toLowerCase (Unicode := latin1) (js "Matti Virtanen")) k = false) /\
    title contact <> js "unknown".
Proof.
  eexists. split; [vm_compute; reflexivity|]. split.
  - assert (H : forallb (fun k => negb (includes
                (toLowerCase (Unicode := latin1) (js "Matti Virtanen")) k))
              titleKeywords = true) by (vm_compute; reflexivity).
    intros k Hk. rewrite forallb_forall in H. apply H in Hk.
    now apply negb_true_iff in Hk.
  - vm_compute. discriminate.
Qed.

Lemma extracted_title_first_keyword_witness :
  FirstSuch (fun k => includes (toLowerCase (Unicode := latin1) toimitusjohtajaRegion) k = true)
            titleKeywords (title toimitusjohtajaContact)
  \/ ((forall k, In k titleKeywords ->
         includes (toLowerCase (Unicode := latin1) toimitusjohtajaRegion) k = false) /\
      title toimitusjohtajaContact = js "Tuntematon").
Proof.
  apply (extracted_title_first_keyword (U := latin1) toimitusjohtajaRegion
           toimitusjohtajaContact).
  vm_compute. reflexivity.
Defined.

(** Two regions give the same name in different case with different titles:
    the first record is the one kept. *)
Lemma removeDuplicateContacts_first_title_wins :
  removeDuplicateContacts (U := latin1)
    [ {| name := js "Matti Virtanen"; title := js "ceo"; phone := None; email := None |};
      {| name := js "MATTI VIRTANEN"; title := js "manager"; phone := None;
         email := Some (js "matti@example.fi") |} ]
  = [ {| name := js "Matti Virtanen"; title := js "ceo"; phone := None; email := None |} ].
Proof. vm_compute. reflexivity. Qed.

End ExtractorSpec.

(* ================================================================== *)
(** ** Fetcher: the retry loop *)
(* ================================================================== *)

Module FetcherFacts.
Import JSFacts.

Lemma isNonRetryableError_iff (message : jsstring) :
  isNonRetryableError message = true <->
  exists pattern, In pattern nonRetryablePatterns /\ includes message pattern = true.
Proof. unfold isNonRetryableError. apply existsb_exists. Qed.



Section WithWorld.
Context {U : Unicode} {L : UrlSyntax} {W : Web}.

Lemma fetchAttempt_invalid (url : jsstring) (attempt : nat) (st : State) :
  isValidUrl url = false ->
  fetchAttempt url attempt st = (Throw (ErrorObj (js "Invalid URL provided")), st).
Proof. intros H. unfold fetchAttempt, bind. rewrite H. reflexivity. Qed.

Lemma attemptBody_invalid (url : jsstring) (attempt : nat) (st : State) :
  isValidUrl url = false ->
  attemptBody url attempt st = (Throw (ErrorObj (js "Invalid URL provided")), st).
Proof.
  intros H. unfold attemptBody, bind. now rewrite (fetchAttempt_invalid url attempt st H).
Qed.

Lemma retryLoop_success (remaining attempt : nat) (lastError : option jsstring)
  (url : jsstring) (st st1 : State) (info : ContactInfo) :
  attemptBody url attempt st = (Ok info, st1) ->
  retryLoop (S remaining) attempt lastError url st = (Ok info, st1).
Proof. intros H. simpl. unfold tryCatch. now rewrite H. Qed.

Lemma retryLoop_stop (remaining attempt : nat) (lastError : option jsstring)
  (url : jsstring) (st st1 : State) (e : thrown) :
  attemptBody url attempt st = (Throw e, st1) ->
  isNonRetryableError (asError e) = true ->
  retryLoop (S remaining) attempt lastError url st =
  (Throw (ErrorObj (finalErrorMessage url (Some (asError e)))), gaveUp attempt url e st1).
Proof.
  intros H Hn. simpl. unfold tryCatch. rewrite H. unfold bind, log, throw. simpl.
  rewrite Hn. simpl. unfold gaveUp. now rewrite <- app_assoc.
Qed.

Lemma retryLoop_next (remaining attempt : nat) (lastError : option jsstring)
  (url : jsstring) (st st1 : State) (e : thrown) :
  attemptBody url attempt st = (Throw e, st1) ->
  isNonRetryableError (asError e) = false ->
  retryLoop (S remaining) attempt lastError url st =
  retryLoop remaining (S attempt) (Some (asError e)) url (warned attempt url e st1).
Proof.
  intros H Hn. simpl. unfold tryCatch. rewrite H. unfold bind, log. simpl.
  rewrite Hn. reflexivity.
Qed.

(** Whatever [scrapeContactInfo] throws is the terminal error, and its text
    names [maxRetries] attempts. *)
Lemma retryLoop_throws (remaining attempt : nat) (lastError : option jsstring)
  (url : jsstring) (st st' : State) (e : thrown) :
  retryLoop remaining attempt lastError url st = (Throw e, st') ->
  exists last, e = ErrorObj (finalErrorMessage url last).
Proof.
  revert attempt lastError st; induction remaining as [|remaining IH];
    intros attempt lastError st.
  - simpl. unfold throw. intros H. injection H as <- _. now exists lastError.
  - destruct (attemptBody url attempt st) as [[info | e1] st1] eqn:E.
    + rewrite (retryLoop_success remaining attempt lastError url st st1 info E). discriminate.
    + destruct (isNonRetryableError (asError e1)) eqn:En.
      * rewrite (retryLoop_stop remaining attempt lastError url st st1 e1 E En).
        intros H. injection H as <- _. now exists (Some (asError e1)).
      * rewrite (retryLoop_next remaining attempt lastError url st st1 e1 E En).
        apply IH.
Qed.

(** *** The policy in the words of its statement *)

Lemma Message_asError (e : thrown) : Message e (asError e).
Proof. destruct e; constructor. Qed.


Lemma HoldsPattern_iff (message : jsstring) :
  HoldsPattern message <-> isNonRetryableError message = true.
Proof. symmetry. apply isNonRetryableError_iff. Qed.

Lemma HoldsPattern_not (message : jsstring) :
  ~ HoldsPattern message <-> isNonRetryableError message = false.
Proof.
  rewrite HoldsPattern_iff. destruct (isNonRetryableError message); split;
    congruence.
Qed.

Lemma Retried_le (url : jsstring) (attempt attempt' : nat) (st st' : State) :
  Retried url attempt st attempt' st' -> attempt <= attempt'.
Proof. induction 1; lia. Qed.


(** Every pass of the loop is one of: the data of an attempt, a failure
    that ends the loop, a failure after which the budget is spent. *)
Lemma retryLoop_run (remaining attempt : nat) (lastError : option jsstring)
  (url : jsstring) (st st' : State) (o : outcome ContactInfo) :
  retryLoop (S remaining) attempt lastError url st = (o, st') ->
  exists k stk ok st1,
    Retried url attempt st k stk /\
    attempt <= k <= attempt + remaining /\
    attemptBody url k stk = (ok, st1) /\
    match ok with
    | Ok info => o = Ok info /\ st' = st1
    | Throw e =>
        exists message,
          Message e message /\
          o = Throw (ErrorObj (finalErrorMessage url (Some message))) /\
          (HoldsPattern message /\ st' = afterGivingUp k url message st1
           \/ ~ HoldsPattern message /\ k = attempt + remaining /\
              st' = afterWarning k url message st1)
    end.
Proof.
  revert attempt lastError st; induction remaining as [|remaining IH];
    intros attempt lastError st;
    destruct (attemptBody url attempt st) as [[info | e] st1] eqn:E.
  - rewrite (retryLoop_success 0 attempt lastError url st st1 info E).
    intros H. injection H as <- <-.
    exists attempt, st, (Ok info), st1.
    split; [constructor|]. split; [lia|]. auto.
  - destruct (isNonRetryableError (asError e)) eqn:En.
    + rewrite (retryLoop_stop 0 attempt lastError url st st1 e E En).
      intros H. injection H as <- <-.
      exists attempt, st, (Throw e), st1.
      split; [constructor|]. split; [lia|]. split; [exact E|].
      exists (asError e). split; [apply Message_asError|]. split; [reflexivity|].
      left. split; [now apply HoldsPattern_iff | reflexivity].
    + rewrite (retryLoop_next 0 attempt lastError url st st1 e E En).
      cbn [retryLoop]. unfold throw. intros H. injection H as <- <-.
      exists attempt, st, (Throw e), st1.
      split; [constructor|]. split; [lia|]. split; [exact E|].
      exists (asError e). split; [apply Message_asError|]. split; [reflexivity|].
      right. split; [now apply HoldsPattern_not|]. split; [lia | reflexivity].
  - rewrite (retryLoop_success (S remaining) attempt lastError url st st1 info E).
    intros H. injection H as <- <-.
    exists attempt, st, (Ok info), st1.
    split; [constructor|]. split; [lia|]. auto.
  - destruct (isNonRetryableError (asError e)) eqn:En.
    + rewrite (retryLoop_stop (S remaining) attempt lastError url st st1 e E En).
      intros H. injection H as <- <-.
      exists attempt, st, (Throw e), st1.
      split; [constructor|]. split; [lia|]. split; [exact E|].
      exists (asError e). split; [apply Message_asError|]. split; [reflexivity|].
      left. split; [now apply HoldsPattern_iff | reflexivity].
    + rewrite (retryLoop_next (S remaining) attempt lastError url st st1 e E En).
      intros H. apply IH in H as (k & stk & ok & st2 & Hrun & Hk & Hbody & Hok).
      exists k, stk, ok, st2. split.
      { apply Retried_next with e (asError e) st1;
          [exact E | apply Message_asError | now apply HoldsPattern_not | exact Hrun]. }
      split; [lia|]. split; [exact Hbody|].
      destruct ok as [info | e2]; [exact Hok|].
      destruct Hok as (message & Hm & Ho & Hend). exists message.
      split; [exact Hm|]. split; [exact Ho|].
      destruct Hend as [Hend | (Hn & Hlast & Hst)]; [now left|].
      right. split; [exact Hn|]. split; [lia | exact Hst].
Qed.


End WithWorld.
End FetcherFacts.

Module FetcherSpec.
Import JSFacts FetcherFacts.

Section WithWorld.
Context {U : Unicode} {L : UrlSyntax} {W : Web}.


End WithWorld.



(** The same with a connection that times out on a port whose number
    contains [404]: the error is a time-out, and it is not retried. *)
Lemma timeout_not_retried :
  exists e st',
    scrapeContactInfo (U := latin1) (L := Scripted.urls) (W := Scripted.web)
      (js "https://example.fi:4040/")
      (Scripted.start [Throw (ErrorObj (js "connect ETIMEDOUT 192.0.2.10:4040"));
                       Scripted.respond 200 "OK" []])
    = (Throw e, st') /\
    world st' = [Scripted.respond 200 "OK" []] /\
    failedAttempts (console st') = 1.
Proof.
  eexists. eexists. split; [vm_compute; reflexivity|]. split; reflexivity.
Qed.

(** C3: the URL is answered by HTTP 404 on the first attempt.  One attempt is
    made (one warning is written, one answer of the script is used), and the
    terminal error says [after 3 attempts]. *)
Theorem terminal_error_after_one_attempt :
  exists st',
    scrapeContactInfo (U := latin1) (L := Scripted.urls) (W := Scripted.web) exampleUrl
      (Scripted.start [Scripted.respond 404 "Not Found" []; Scripted.respond 200 "OK" []])
    = (Throw (ErrorObj
         (js "Failed to scrape https://example.fi after 3 attempts: HTTP 404: Not Found")),
       st') /\
    failedAttempts (console st') = 1 /\
    world st' = [Scripted.respond 200 "OK" []].
Proof. eexists. split; [vm_compute; reflexivity|]. split; reflexivity. Qed.

End FetcherSpec.

(* ================================================================== *)
(** ** Batch orchestrator *)
(* ================================================================== *)

Module BatchFacts.

Lemma chunkLoop_concat {A : Type} (urls : list A) (fuel i : nat) :
  length urls <= i + fuel * concurrencyLimit ->
  concat (chunkLoop fuel i urls) = skipn i urls.
Proof.
  revert i; induction fuel as [|fuel IH]; intros i Hfuel; simpl.
  - symmetry. apply skipn_all2. simpl in Hfuel. lia.
  - destruct (Nat.ltb_spec i (length urls)) as [Hi | Hi].
    + simpl. rewrite IH by (unfold concurrencyLimit in *; lia).
      unfold slice. replace (i + concurrencyLimit - i) with concurrencyLimit by lia.
      rewrite Nat.add_comm, <- skipn_skipn. apply firstn_skipn.
    + simpl. symmetry. now apply skipn_all2.
Qed.

(** The chunks, put end to end, are the input. *)
Lemma chunksOf_concat {A : Type} (urls : list A) : concat (chunksOf urls) = urls.
Proof.
  unfold chunksOf. rewrite chunkLoop_concat; [reflexivity|].
  unfold concurrencyLimit. lia.
Qed.

Section WithWorld.
Context {U : Unicode} {L : UrlSyntax} {W : Web}.

(** The [try]/[catch] of a chunk task turns every outcome into a result. *)
Lemma scrapeOne_spec (url : jsstring) (st : State) :
  scrapeOne url st =
  let (o, st1) := scrapeContactInfo url st in
  (Ok (resultOf url o (isoNow (world st1))), st1).
Proof.
  unfold scrapeOne, tryCatch, bind, now, ret.
  destruct (scrapeContactInfo url st) as [[info | e] st1]; reflexivity.
Qed.

Lemma mapM_scrapeOne (urls : list jsstring) (st : State) :
  exists results st',
    mapM scrapeOne urls st = (Ok results, st') /\ Collected st urls results st'.
Proof.
  revert st; induction urls as [|url urls IH]; intros st; simpl.
  - exists [], st. split; [reflexivity | constructor].
  - unfold bind. rewrite scrapeOne_spec.
    destruct (scrapeContactInfo url st) as [o st1] eqn:E.
    destruct (IH st1) as (results & st' & Hrun & Hcol). rewrite Hrun.
    exists (resultOf url o (isoNow (world st1)) :: results), st'.
    split; [reflexivity | now constructor].
Qed.

Lemma Collected_app (st st1 st2 : State) (urls1 urls2 : list jsstring)
  (results1 results2 : list ScrapingResult) :
  Collected st urls1 results1 st1 ->
  Collected st1 urls2 results2 st2 ->
  Collected st (urls1 ++ urls2) (results1 ++ results2) st2.
Proof. induction 1; simpl; intros H2; [exact H2 | constructor; auto]. Qed.

Lemma processChunks_spec (chunks : list (list jsstring)) (done : list jsstring)
  (results0 : list ScrapingResult) (st0 st : State) :
  Collected st0 done results0 st ->
  exists results st',
    processChunks chunks results0 st = (Ok results, st') /\
    Collected st0 (done ++ concat chunks) results st'.
Proof.
  revert done results0 st; induction chunks as [|chunk chunks IH];
    intros done results0 st Hdone; simpl.
  - exists results0, st. rewrite app_nil_r. split; [reflexivity | exact Hdone].
  - unfold bind. destruct (mapM_scrapeOne chunk st) as (rs & st1 & Hrun & Hcol).
    rewrite Hrun.
    destruct (IH (done ++ chunk) (results0 ++ rs) st1) as (results & st' & Hrest & Hall).
    { now apply Collected_app with st. }
    exists results, st'. split; [exact Hrest|]. now rewrite app_assoc.
Qed.

Lemma Collected_length (st st' : State) (urls : list jsstring)
  (results : list ScrapingResult) :
  Collected st urls results st' -> length results = length urls.
Proof. induction 1; simpl; congruence. Qed.

Lemma Collected_urls (st st' : State) (urls : list jsstring)
  (results : list ScrapingResult) :
  Collected st urls results st' -> List.map url results = urls.
Proof.
  induction 1; simpl; [reflexivity|]. rewrite IHCollected.
  destruct o; reflexivity.
Qed.

(** The results collected hold, field by field, what is owed for each URL:
    on failure the message of the error that the pipeline of the URL
    threw. *)
Lemma Collected_Answered (st st' : State) (urls : list jsstring)
  (results : list ScrapingResult) :
  Collected st urls results st' -> Answered st urls results st'.
Proof.
  induction 1 as [st | st url urls o st1 results st' Hrun Hrest IH]; [constructor|].
  apply Answered_cons with o st1; [exact Hrun | | exact IH].
  destruct o as [info | e]; [apply Reported_data|].
  apply Reported_error. destruct e; constructor.
Qed.

(** A batch of at most 50 URLs is answered by the results of all of them. *)
Lemma PUT_accepts (urls : list jsstring) (st : State) :
  length urls <= 50 ->
  exists results st',
    PUT (BodyJson (UrlsArray urls)) st = (ResultsJson 200 results, st') /\
    Collected st urls results st'.
Proof.
  intros Hlen. unfold PUT.
  destruct (Nat.ltb_spec 50 (length urls)) as [H | _]; [lia|].
  destruct (processChunks_spec (chunksOf urls) [] [] st st (Collected_nil st))
    as (results & st' & Hrun & Hcol).
  simpl in Hcol. rewrite chunksOf_concat in Hcol. rewrite Hrun.
  now exists results, st'.
Qed.

End WithWorld.
End BatchFacts.

Module UploadFacts.
Import UploadRoute.

Section WithUrlSyntax.
Context {L : UrlSyntax}.

(** On a form that holds a File the handler is [POST], and nothing is
    logged. *)
Lemma handler_file (file : File) :
  handler (Form (FieldFile file)) = (POST (Some file), false).
Proof. reflexivity. Qed.

(** The handler answers 500 only from its [catch] block: when the form cannot
    be read or the field is a non-empty string. *)
Lemma handler_error (request : uploadRequest) (status : N) (message : jsstring) :
  fst (handler request) = UploadError status message ->
  status = 400%N /\ snd (handler request) = false \/
  status = 500%N /\ snd (handler request) = true /\
  (request = FormRejected \/ exists c value, request = Form (FieldString (c :: value))).
Proof.
  destruct request as [|[|[|c value]|file]]; cbn [handler fst snd].
  - intros H. injection H as <- _. right. auto.
  - intros H. injection H as <- _. left. auto.
  - intros H. injection H as <- _. left. auto.
  - intros H. injection H as <- _. right. split; [reflexivity|].
    split; [reflexivity|]. right. now exists c, value.
  - unfold POST. intros H. left. split; [|reflexivity].
    destruct (negb _); [now injection H as <- _|].
    destruct (N.ltb _ _); [now injection H as <- _|].
    destruct (Nat.eqb _ _); [now injection H as <- _|].
    destruct (Nat.ltb _ _); [now injection H as <- _ | discriminate].
Qed.

End WithUrlSyntax.

End UploadFacts.

Module BatchSpec.
Import BatchFacts.

Section WithWorld.
Context {U : Unicode} {L : UrlSyntax} {W : Web}.

(** C1: a batch of at most 50 URLs is answered with exactly one result per
    URL, in the order of the input; the result of a URL is built from the
    outcome of the pipeline of that URL alone, a thrown error becoming a
    result with [success = false] and the message of the error, and the
    pipelines of the other URLs are run all the same.  The fields are written
    out by [Answered]: when the pipeline of a URL returns, the result of the
    URL holds its data and no error; when it throws an [Error], the result
    holds no data and the message of that very error; when it throws any
    other value, the words [Unknown error]. *)
Theorem batch_one_result_per_url (urls : list jsstring) (st : State) :
  length urls <= 50 ->
  exists results st',
    PUT (BodyJson (UrlsArray urls)) st = (ResultsJson 200 results, st') /\
    length results = length urls /\
    List.map url results = urls /\
    Collected st urls results st' /\
    Forall (fun r => success r = true /\ data r <> None /\ error r = None \/
                     success r = false /\ data r = None /\ error r <> None) results /\
    Answered st urls results st'.
Proof.
  intros Hlen. destruct (PUT_accepts urls st Hlen) as (results & st' & Hrun & Hcol).
  exists results, st'. split; [exact Hrun|].
  split; [now apply Collected_length with st st'|].
  split; [now apply Collected_urls with st st'|].
  split; [exact Hcol|].
  split; [|now apply Collected_Answered].
  clear Hrun Hlen. induction Hcol; constructor; auto.
  destruct o; simpl; [left | right]; repeat split; congruence.
Qed.

(** C8: a batch of more than 50 URLs, so one of 51, is refused with status
    400 and the state is left as it was: no request is made and nothing is
    logged; a batch of exactly 50 URLs is processed. *)
Theorem batch_size_limit :
  (forall urls st, 50 < length urls ->
     PUT (BodyJson (UrlsArray urls)) st =
     (ErrorJson 400 (js "Maximum 50 URLs allowed per batch"), st)) /\
  (forall urls st, length urls = 50 ->
     exists results st',
       PUT (BodyJson (UrlsArray urls)) st = (ResultsJson 200 results, st') /\
       length results = 50 /\
       Collected st urls results st').
Proof.
  split.
  - intros urls st H. unfold PUT.
    destruct (Nat.ltb_spec 50 (length urls)) as [_ | H']; [reflexivity | lia].
  - intros urls st H.
    destruct (PUT_accepts urls st) as (results & st' & Hrun & Hcol); [lia|].
    exists results, st'. split; [exact Hrun|]. split; [|exact Hcol].
    rewrite <- H. now apply Collected_length with st st'.
Qed.

End WithWorld.

Section WithUrls.
Context {U : Unicode} {L : UrlSyntax} {W : Web}.

(** C10: an empty [urls] array is answered with status 200 and no result,
    nothing being requested or logged, while the upload route answers a file
    in which no valid URL is found with status 400. *)
Theorem empty_batch_accepted :
  (forall st, PUT (BodyJson (UrlsArray [])) st = (ResultsJson 200 [], st)) /\
  (forall file, CSVUtils.parseCSVUrls (UploadRoute.fileText file) = [] ->
     exists message, UploadRoute.POST (Some file) = UploadRoute.UploadError 400 message) /\
  (forall file,
     UploadRoute.endsWith (UploadRoute.fileName file) (js ".csv") = true ->
     (UploadRoute.size file <= 5 * 1024 * 1024)%N ->
     CSVUtils.parseCSVUrls (UploadRoute.fileText file) = [] ->
     UploadRoute.POST (Some file) =
     UploadRoute.UploadError 400 (js "No valid URLs found in CSV file")).
Proof.
  split; [reflexivity|]. split.
  - intros file H. unfold UploadRoute.POST. rewrite H. simpl.
    destruct (negb _); [eexists; reflexivity|].
    destruct (_ <? _)%N; eexists; reflexivity.
  - intros file Hname Hsize H.
    assert (E : (5 * 1024 * 1024 <? UploadRoute.size file)%N = false)
      by (apply N.ltb_ge; exact Hsize).
    unfold UploadRoute.POST. rewrite Hname. cbn [negb]. rewrite E, H. reflexivity.
Qed.

End WithUrls.

Lemma batch_one_result_per_url_witness :
  exists results st',
    PUT (U := latin1) (L := Scripted.urls) (W := Scripted.web)
        (BodyJson (UrlsArray [js "https://a.fi"; js "not a url"; js "https://b.fi"]))
        (Scripted.start [Scripted.respond 200 "OK" []; Scripted.respond 200 "OK" []])
    = (ResultsJson 200 results, st') /\
    length results = 3 /\
    List.map url results = [js "https://a.fi"; js "not a url"; js "https://b.fi"] /\
    Collected (U := latin1) (L := Scripted.urls) (W := Scripted.web)
      (Scripted.start [Scripted.respond 200 "OK" []; Scripted.respond 200 "OK" []])
      [js "https://a.fi"; js "not a url"; js "https://b.fi"] results st' /\
    Forall (fun r => success r = true /\ data r <> None /\ error r = None \/
                     success r = false /\ data r = None /\ error r <> None) results /\
    Answered (U := latin1) (L := Scripted.urls) (W := Scripted.web)
      (Scripted.start [Scripted.respond 200 "OK" []; Scripted.respond 200 "OK" []])
      [js "https://a.fi"; js "not a url"; js "https://b.fi"] results st' /\
    List.map error results
    = [None;
       Some (js "Failed to scrape not a url after 3 attempts: Invalid URL provided");
       None].
Proof.
  destruct (batch_one_result_per_url (U := latin1) (L := Scripted.urls)
              (W := Scripted.web)
              [js "https://a.fi"; js "not a url"; js "https://b.fi"]
              (Scripted.start [Scripted.respond 200 "OK" []; Scripted.respond 200 "OK" []]))
    as (results & st' & HPUT & Hlen & Hurls & Hcol & Hall & Hans);
    [simpl; lia|].
  exists results, st'.
  split; [exact HPUT|]. split; [exact Hlen|]. split; [exact Hurls|].
  split; [exact Hcol|]. split; [exact Hall|]. split; [exact Hans|].
  assert (Herrors :
            List.map error
              match fst (PUT (U := latin1) (L := Scripted.urls) (W := Scripted.web)
                           (BodyJson (UrlsArray [js "https://a.fi"; js "not a url";
                                                 js "https://b.fi"]))
                           (Scripted.start [Scripted.respond 200 "OK" [];
                                            Scripted.respond 200 "OK" []])) with
              | ResultsJson _ answered => answered
              | ErrorJson _ _ => []
              end
            = [None;
               Some (js "Failed to scrape not a url after 3 attempts: Invalid URL provided");
               None]) by (vm_compute; reflexivity).
  rewrite HPUT in Herrors. exact Herrors.
Defined.

Lemma batch_size_limit_witness :
  PUT (U := latin1) (L := Scripted.urls) (W := Scripted.web)
      (BodyJson (UrlsArray fiftyOne)) (Scripted.start [])
  = (ErrorJson 400 (js "Maximum 50 URLs allowed per batch"), Scripted.start []) /\
  exists results st',
    PUT (U := latin1) (L := Scripted.urls) (W := Scripted.web)
        (BodyJson (UrlsArray fifty)) (Scripted.start [])
    = (ResultsJson 200 results, st') /\
    length results = 50 /\
    Collected (U := latin1) (L := Scripted.urls) (W := Scripted.web)
      (Scripted.start []) fifty results st'.
Proof.
  destruct (batch_size_limit (U := latin1) (L := Scripted.urls) (W := Scripted.web))
    as [Hover Hfull].
  split.
  - apply Hover. vm_compute. lia.
  - apply Hfull. reflexivity.
Defined.

Lemma empty_batch_accepted_witness :
  UploadRoute.POST (L := Scripted.urls) (Some noUrlFile)
  = UploadRoute.UploadError 400 (js "No valid URLs found in CSV file").
Proof.
  destruct (empty_batch_accepted (U := latin1) (L := Scripted.urls) (W := Scripted.web))
    as [_ [_ H]].
  apply H; [reflexivity | vm_compute; discriminate | reflexivity].
Defined.

End BatchSpec.

(* ================================================================== *)
(** ** CSV: what the parser reads back from an export *)
(* ================================================================== *)

Module CsvFacts.
Import JSFacts CsvParser CSVUtils.

Lemma includes_single (v : jsstring) (c : N) : includes v [c] = true <-> In c v.
Proof.
  rewrite includes_iff. split.
  - intros [before [after ->]]. apply in_or_app. right. now left.
  - intros H. apply in_split in H as [before [after ->]]. now exists before, after.
Qed.

Lemma includes_single_false (v : jsstring) (c : N) : includes v [c] = false -> ~ In c v.
Proof. intros H Hin. apply includes_single in Hin. congruence. Qed.

(** A value is written as it is when it holds no comma, quote or line feed,
    and between quotes with its quotes doubled otherwise. *)
Lemma escapeCSVValue_cases (v : jsstring) :
  (escapeCSVValue v = v /\ ~ In 44%N v /\ ~ In 34%N v /\ ~ In 10%N v) \/
  escapeCSVValue v = 34%N :: doubleQuotes v ++ [34%N].
Proof.
  unfold escapeCSVValue.
  destruct (includes v [44%N]) eqn:E1; [now right|].
  destruct (includes v [34%N]) eqn:E2; [now right|].
  destruct (includes v [10%N]) eqn:E3; [now right|].
  left. simpl. repeat split; now apply includes_single_false.
Qed.

(** The scan between two cells after the header row, and inside a quoted
    cell. *)
Local Notation "'st0'" := (mkScan false false false 10%N).
Local Notation "'st1'" := (mkScan false true false 10%N).

(** One step of the scan, case by case. *)
Lemma transform_escape (q f : bool) (n : N) (acc rest : jsstring) :
  nextIs quote rest = true ->
  transform (mkScan false q f n) false acc (34%N :: rest) =
  transform (mkScan true q f n) false (34%N :: acc) rest.
Proof. intros H. cbn [transform escaped quoted first newline negb]. unfold quote in *.
  now rewrite H. Qed.

Lemma transform_unescape (q f : bool) (n : N) (acc rest : jsstring) :
  transform (mkScan true q f n) false acc (34%N :: rest) =
  transform (mkScan false q f n) false (34%N :: acc) rest.
Proof. reflexivity. Qed.

Lemma transform_toggle (q f : bool) (n : N) (acc rest : jsstring) :
  nextIs quote rest = false ->
  transform (mkScan false q f n) false acc (34%N :: rest) =
  transform (mkScan false (negb q) f n) false (34%N :: acc) rest.
Proof. intros H. cbn [transform escaped quoted first newline negb]. unfold quote in *.
  now rewrite H. Qed.

Lemma transform_inside (c : N) (acc rest : jsstring) :
  c <> 34%N ->
  transform st1 false acc (c :: rest) = transform st1 false (c :: acc) rest.
Proof.
  intros H. apply N.eqb_neq in H.
  cbn [transform escaped quoted first newline negb]. unfold quote. now rewrite H.
Qed.

Lemma transform_outside (c : N) (acc rest : jsstring) :
  c <> 34%N -> c <> 10%N ->
  transform st0 false acc (c :: rest) = transform st0 false (c :: acc) rest.
Proof.
  intros H H'. apply N.eqb_neq in H, H'.
  cbn [transform escaped quoted first newline negb]. unfold quote. now rewrite H, H'.
Qed.

Lemma doubleQuotes_quote (v : jsstring) :
  doubleQuotes (34%N :: v) = 34%N :: 34%N :: doubleQuotes v.
Proof. reflexivity. Qed.

Lemma doubleQuotes_other (c : N) (v : jsstring) :
  c <> 34%N -> doubleQuotes (c :: v) = c :: doubleQuotes v.
Proof.
  intros H. apply N.eqb_neq in H. unfold doubleQuotes. cbn [flat_map]. now rewrite H.
Qed.

Lemma transform_plain (v acc tail : jsstring) :
  (forall c, In c v -> c <> 34%N /\ c <> 10%N) ->
  transform st0 false acc (v ++ tail) = transform st0 false (rev v ++ acc) tail.
Proof.
  revert acc; induction v as [|c v IH]; intros acc Hv; [reflexivity|].
  destruct (Hv c (or_introl eq_refl)) as [Hq Hn].
  simpl app. rewrite transform_outside by assumption.
  rewrite IH by (intros d Hd; apply Hv; now right).
  simpl rev. now rewrite <- app_assoc.
Qed.

Lemma transform_quoted_aligned (w acc tail : jsstring) :
  nextIs quote tail = false ->
  transform st1 false acc (doubleQuotes w ++ 34%N :: tail) =
  transform st0 false (34%N :: rev (doubleQuotes w) ++ acc) tail.
Proof.
  intros Htail. revert acc; induction w as [|c w IH]; intros acc.
  - simpl app. now rewrite transform_toggle.
  - destruct (N.eqb_spec c 34) as [-> | Hc].
    + rewrite doubleQuotes_quote. simpl app.
      rewrite transform_escape by reflexivity. rewrite transform_unescape, IH.
      simpl rev. now rewrite <- !app_assoc.
    + rewrite doubleQuotes_other by assumption. simpl app.
      rewrite transform_inside by assumption. rewrite IH.
      simpl rev. now rewrite <- !app_assoc.
Qed.

Lemma transform_quoted (v acc tail : jsstring) :
  nextIs quote tail = false ->
  transform st0 false acc (34%N :: doubleQuotes v ++ 34%N :: tail) =
  transform st0 false (rev (34%N :: doubleQuotes v ++ [34%N]) ++ acc) tail.
Proof.
  intros Htail. revert acc; induction v as [|c v IH]; intros acc.
  - simpl app. rewrite transform_escape by reflexivity. now rewrite transform_unescape.
  - destruct (N.eqb_spec c 34) as [-> | Hc].
    + rewrite doubleQuotes_quote. simpl app.
      rewrite transform_escape by reflexivity. rewrite transform_unescape, IH.
      simpl rev. rewrite !rev_app_distr. simpl. now rewrite <- !app_assoc.
    + rewrite transform_toggle.
      * rewrite transform_quoted_aligned by assumption.
        simpl rev. rewrite !rev_app_distr. simpl. now rewrite <- !app_assoc.
      * rewrite doubleQuotes_other by assumption. simpl. now apply N.eqb_neq.
Qed.

(** The scan for row ends passes over a written cell without ending a row. *)
Lemma transform_cell (v acc tail : jsstring) :
  nextIs quote tail = false ->
  transform st0 false acc (escapeCSVValue v ++ tail) =
  transform st0 false (rev (escapeCSVValue v) ++ acc) tail.
Proof.
  intros Htail. destruct (escapeCSVValue_cases v) as [[-> [H1 [H2 H3]]] | ->].
  - apply transform_plain. intros c Hc. split; intros ->; contradiction.
  - rewrite <- app_comm_cons, <- app_assoc. simpl app at 2. now apply transform_quoted.
Qed.

Lemma transform_row (cells : list jsstring) (acc tail : jsstring) :
  nextIs quote tail = false ->
  transform st0 false acc (rowText cells ++ tail) =
  transform st0 false (rev (rowText cells) ++ acc) tail.
Proof.
  intros Htail. unfold rowText. revert acc; induction cells as [|v cells IH]; intros acc.
  - reflexivity.
  - destruct cells as [|v2 cells].
    + simpl. now apply transform_cell.
    + change (join [44%N] (List.map escapeCSVValue (v :: v2 :: cells)))
        with (escapeCSVValue v ++ [44%N] ++ join [44%N] (List.map escapeCSVValue (v2 :: cells))).
      rewrite <- !app_assoc. rewrite transform_cell by reflexivity.
      rewrite (transform_plain [44%N]).
      * rewrite IH. rewrite !rev_app_distr, <- !app_assoc. reflexivity.
      * intros c [<- | []]. split; discriminate.
Qed.

Lemma transform_newline (acc rest : jsstring) :
  transform st0 false acc (10%N :: rest) =
  let '(lines, st', leftover) := transform st0 false [] rest in
  (rev acc :: lines, st', leftover).
Proof. reflexivity. Qed.

(** The rows of an export are found again as they were written. *)
Lemma transform_rows (rows : list (list jsstring)) (row : list jsstring) :
  transform st0 false [] (join [10%N] (List.map rowText (row :: rows))) =
  (removelast (List.map rowText (row :: rows)), st0,
   last (List.map rowText (row :: rows)) []).
Proof.
  revert row; induction rows as [|row2 rows IH]; intros row.
  - simpl join. rewrite <- (app_nil_r (rowText row)) at 1.
    rewrite transform_row by reflexivity. simpl. now rewrite app_nil_r, rev_involutive.
  - change (join [10%N] (List.map rowText (row :: row2 :: rows)))
      with (rowText row ++ 10%N :: join [10%N] (List.map rowText (row2 :: rows))).
    rewrite transform_row by reflexivity. rewrite transform_newline, IH.
    rewrite app_nil_r, rev_involutive. reflexivity.
Qed.

(** One step of the cell loop, case by case. *)
Lemma cellLoop_open (cell rest : jsstring) :
  cellLoop false cell (34%N :: rest) = cellLoop true (34%N :: cell) rest.
Proof. reflexivity. Qed.

Lemma cellLoop_close (cell rest : jsstring) :
  cellLoop true cell (34%N :: 44%N :: rest) =
  parseCell (rev (34%N :: cell)) :: cellLoop false [] rest.
Proof. reflexivity. Qed.

Lemma cellLoop_pair (cell rest : jsstring) :
  cellLoop true cell (34%N :: 34%N :: rest) = cellLoop true (34%N :: 34%N :: cell) rest.
Proof. reflexivity. Qed.

Lemma cellLoop_inside (c : N) (cell rest : jsstring) :
  c <> 34%N -> cellLoop true cell (c :: rest) = cellLoop true (c :: cell) rest.
Proof.
  intros H. apply N.eqb_neq in H. cbn [cellLoop negb andb orb]. unfold quote.
  rewrite H. cbn [andb orb]. now rewrite andb_false_r.
Qed.

Lemma cellLoop_outside (c : N) (cell rest : jsstring) :
  c <> 34%N -> c <> 44%N -> cellLoop false cell (c :: rest) = cellLoop false (c :: cell) rest.
Proof.
  intros H H'. apply N.eqb_neq in H, H'. cbn [cellLoop negb andb orb].
  unfold quote, comma. now rewrite H, H'.
Qed.

Lemma cellLoop_comma (cell rest : jsstring) :
  cellLoop false cell (44%N :: rest) = parseCell (rev cell) :: cellLoop false [] rest.
Proof. reflexivity. Qed.

Lemma cellLoop_plain (v cell rest : jsstring) :
  (forall c, In c v -> c <> 34%N /\ c <> 44%N) ->
  cellLoop false cell (v ++ 44%N :: rest) =
  parseCell (rev cell ++ v) :: cellLoop false [] rest.
Proof.
  revert cell; induction v as [|c v IH]; intros cell Hv.
  - simpl app. now rewrite cellLoop_comma, app_nil_r.
  - destruct (Hv c (or_introl eq_refl)) as [Hq Hc].
    simpl app. rewrite cellLoop_outside by assumption.
    rewrite IH by (intros d Hd; apply Hv; now right).
    simpl rev. now rewrite <- app_assoc.
Qed.

Lemma cellLoop_quoted_aligned (w cell rest : jsstring) :
  cellLoop true cell (doubleQuotes w ++ 34%N :: 44%N :: rest) =
  parseCell (rev cell ++ doubleQuotes w ++ [34%N]) :: cellLoop false [] rest.
Proof.
  revert cell; induction w as [|c w IH]; intros cell.
  - simpl app. now rewrite cellLoop_close.
  - destruct (N.eqb_spec c 34) as [-> | Hc].
    + rewrite doubleQuotes_quote. simpl app. rewrite cellLoop_pair, IH.
      simpl rev. now rewrite <- !app_assoc.
    + rewrite doubleQuotes_other by assumption. simpl app.
      rewrite cellLoop_inside by assumption. rewrite IH.
      simpl rev. now rewrite <- !app_assoc.
Qed.

Lemma unescape_plain (v : jsstring) : ~ In 34%N v -> unescape v = v.
Proof.
  induction v as [|c v IH]; intros Hv; [reflexivity|].
  assert (Hc : (c =? quote)%N = false).
  { apply N.eqb_neq. intros ->. apply Hv. now left. }
  cbn [unescape]. destruct v as [|d v]; [reflexivity|].
  rewrite Hc. cbn [andb]. f_equal. apply IH. intros H. apply Hv. now right.
Qed.

Lemma unescape_doubleQuotes (v : jsstring) : unescape (doubleQuotes v) = v.
Proof.
  induction v as [|c v IH]; [reflexivity|].
  destruct (N.eqb_spec c 34) as [-> | Hc].
  - rewrite doubleQuotes_quote. cbn [unescape]. unfold quote. cbn [N.eqb Pos.eqb andb].
    now rewrite IH.
  - rewrite doubleQuotes_other by assumption. cbn [unescape].
    apply N.eqb_neq in Hc. destruct (doubleQuotes v) as [|d rest] eqn:E.
    + cbn [unescape] in IH. now rewrite <- IH.
    + unfold quote. rewrite Hc. cbn [andb]. now rewrite IH.
Qed.

(** A written cell is read back as the value that was written. *)
Lemma parseCell_escapeCSVValue (v : jsstring) : parseCell (escapeCSVValue v) = v.
Proof.
  destruct (escapeCSVValue_cases v) as [[-> [_ [Hq _]]] | ->].
  - destruct v as [|c v]; [reflexivity|]. unfold parseCell.
    assert (Hc : (c =? quote)%N = false).
    { apply N.eqb_neq. intros ->. apply Hq. now left. }
    rewrite Hc. cbn [andb]. now apply unescape_plain.
  - assert (Hlast : last (34%N :: doubleQuotes v ++ [34%N]) 0%N = 34%N)
      by (rewrite app_comm_cons; apply last_last).
    unfold parseCell. rewrite Hlast. cbn [tl]. unfold quote. cbn [N.eqb Pos.eqb andb].
    rewrite removelast_last. apply unescape_doubleQuotes.
Qed.

Lemma cellLoop_first (v rest : jsstring) :
  cellLoop false [] (escapeCSVValue v ++ 44%N :: rest) = v :: cellLoop false [] rest.
Proof.
  rewrite <- (parseCell_escapeCSVValue v) at 2.
  destruct (escapeCSVValue_cases v) as [[E [Hc [Hq _]]] | E]; rewrite E.
  - apply (cellLoop_plain v []). intros c Hin. split; intros ->; contradiction.
  - simpl app. rewrite cellLoop_open. rewrite <- app_assoc. simpl app.
    now rewrite cellLoop_quoted_aligned.
Qed.


Lemma parseLine_header : parseLine headerText = headers.
Proof. vm_compute. reflexivity. Qed.

Lemma headerText_value :
  headerText =
  [85; 82; 76; 44; 78; 97; 109; 101; 44; 84; 105; 116; 108; 101; 44; 80; 104; 111;
   110; 101; 44; 69; 109; 97; 105; 108; 44; 69; 114; 114; 111; 114]%N.
Proof. vm_compute. reflexivity. Qed.

(** *** The text that the bytes of an export decode to *)

Lemma startsWithLow_app (a b : jsstring) (c : N) :
  isLowSurrogate c = false -> startsWithLow (a ++ c :: b) = startsWithLow a.
Proof. intros Hc. destruct a as [|d a]; [exact Hc | reflexivity]. Qed.

(** A code unit that is no surrogate is kept where it is, and what stands
    before it and after it is decoded apart. *)
Lemma decodeEncoded_app (a b : jsstring) (c : N) (paired : bool) :
  isHighSurrogate c = false -> isLowSurrogate c = false ->
  decodeEncoded paired (a ++ c :: b)
  = decodeEncoded paired a ++ c :: decodeEncoded false b.
Proof.
  intros Hh Hl. revert paired; induction a as [|d a IH]; intros paired.
  - cbn [app decodeEncoded]. rewrite Hh, Hl. cbn [andb orb]. now destruct paired.
  - cbn [app decodeEncoded]. rewrite (startsWithLow_app a b c Hl).
    destruct paired; [now rewrite IH|].
    destruct (isHighSurrogate d && startsWithLow a); [now rewrite IH|].
    destruct (isHighSurrogate d || isLowSurrogate d); now rewrite IH.
Qed.

Lemma toWellFormed_app (a b : jsstring) (c : N) :
  isHighSurrogate c = false -> isLowSurrogate c = false ->
  toWellFormed (a ++ c :: b) = toWellFormed a ++ c :: toWellFormed b.
Proof. apply decodeEncoded_app. Qed.

Lemma toWellFormed_cons (c : N) (s : jsstring) :
  isHighSurrogate c = false -> isLowSurrogate c = false ->
  toWellFormed (c :: s) = c :: toWellFormed s.
Proof. intros Hh Hl. apply (toWellFormed_app [] s c Hh Hl). Qed.

Lemma startsWithLow_doubleQuotes (v : jsstring) :
  startsWithLow (doubleQuotes v) = startsWithLow v.
Proof.
  destruct v as [|d v]; [reflexivity|]. unfold doubleQuotes. cbn [flat_map].
  destruct (N.eqb_spec d 34) as [-> | _]; reflexivity.
Qed.

Lemma decodeEncoded_doubleQuotes (v : jsstring) (paired : bool) :
  decodeEncoded paired (doubleQuotes v) = doubleQuotes (decodeEncoded paired v).
Proof.
  revert paired; induction v as [|c v IH]; intros paired; [reflexivity|].
  destruct (N.eqb_spec c 34) as [-> | Hc].
  - rewrite doubleQuotes_quote.
    replace (decodeEncoded paired (34%N :: v)) with (34%N :: decodeEncoded false v)
      by (now destruct paired).
    rewrite doubleQuotes_quote, <- IH. now destruct paired.
  - rewrite doubleQuotes_other by assumption. cbn [decodeEncoded].
    rewrite startsWithLow_doubleQuotes.
    destruct paired; [now rewrite doubleQuotes_other, IH|].
    destruct (isHighSurrogate c && startsWithLow v);
      [now rewrite doubleQuotes_other, IH|].
    destruct (isHighSurrogate c || isLowSurrogate c) eqn:Es.
    + rewrite doubleQuotes_other by discriminate. now rewrite IH.
    + now rewrite doubleQuotes_other, IH.
Qed.

(** Decoding changes surrogates only, and only into U+FFFD. *)
Lemma decodeEncoded_In (k : N) (v : jsstring) (paired : bool) :
  isHighSurrogate k = false -> isLowSurrogate k = false -> k <> 65533%N ->
  In k (decodeEncoded paired v) <-> In k v.
Proof.
  intros Hh Hl Hk. revert paired; induction v as [|c v IH]; intros paired;
    [reflexivity|].
  cbn [decodeEncoded].
  destruct paired; [cbn [In]; now rewrite IH|].
  destruct (isHighSurrogate c && startsWithLow v); [cbn [In]; now rewrite IH|].
  destruct (isHighSurrogate c || isLowSurrogate c) eqn:Es; cbn [In]; rewrite IH;
    [|reflexivity].
  split; intros [H | H]; auto; [congruence|].
  subst c. rewrite Hh, Hl in Es. discriminate.
Qed.

Lemma includes_toWellFormed (k : N) (v : jsstring) :
  isHighSurrogate k = false -> isLowSurrogate k = false -> k <> 65533%N ->
  includes (toWellFormed v) [k] = includes v [k].
Proof.
  intros Hh Hl Hk. pose proof (decodeEncoded_In k v false Hh Hl Hk) as H.
  fold (toWellFormed v) in H. rewrite <- !includes_single in H.
  now apply Bool.eq_true_iff_eq.
Qed.

Lemma toWellFormed_escapeCSVValue (v : jsstring) :
  toWellFormed (escapeCSVValue v) = escapeCSVValue (toWellFormed v).
Proof.
  unfold escapeCSVValue.
  rewrite !includes_toWellFormed by (reflexivity || discriminate).
  destruct (includes v [44%N] || includes v [34%N] || includes v [10%N]);
    [|reflexivity].
  cbn [app]. rewrite toWellFormed_cons by reflexivity.
  rewrite toWellFormed_app by reflexivity. f_equal.
  unfold toWellFormed. now rewrite decodeEncoded_doubleQuotes.
Qed.

Lemma toWellFormed_join (c : N) (parts : list jsstring) :
  isHighSurrogate c = false -> isLowSurrogate c = false ->
  toWellFormed (join [c] parts) = join [c] (List.map toWellFormed parts).
Proof.
  intros Hh Hl. induction parts as [|p parts IH]; [reflexivity|].
  destruct parts as [|p2 parts]; [reflexivity|].
  change (join [c] (p :: p2 :: parts)) with (p ++ c :: join [c] (p2 :: parts)).
  rewrite toWellFormed_app by assumption. rewrite IH. reflexivity.
Qed.

Lemma toWellFormed_rowText (cells : list jsstring) :
  toWellFormed (rowText cells) = rowText (List.map toWellFormed cells).
Proof.
  unfold rowText. rewrite toWellFormed_join by reflexivity.
  rewrite !map_map. f_equal. apply map_ext. intros v.
  apply toWellFormed_escapeCSVValue.
Qed.

(** The bytes of an export decode to the export of the decoded cells. *)
Lemma toWellFormed_csvOfRows (rows : list (list jsstring)) :
  toWellFormed (csvOfRows rows) = csvOfRows (List.map (List.map toWellFormed) rows).
Proof.
  assert (Hheader : toWellFormed headerText = headerText)
    by (vm_compute; reflexivity).
  unfold csvOfRows. rewrite toWellFormed_join by reflexivity.
  cbn [List.map]. rewrite Hheader. apply (f_equal (join [10%N])).
  apply (f_equal (cons headerText)).
  rewrite !map_map. apply map_ext. intros row. apply toWellFormed_rowText.
Qed.

(** Decoding keeps every code unit that is no surrogate and adds none but
    U+FFFD. *)
Lemma decodeEncoded_from (k : N) (v : jsstring) (paired : bool) :
  In k (decodeEncoded paired v) -> k = 65533%N \/ In k v.
Proof.
  revert paired; induction v as [|c v IH]; intros paired; [intros []|].
  cbn [decodeEncoded].
  assert (Hrest : forall p, In k (decodeEncoded p v) -> k = 65533%N \/ In k (c :: v)).
  { intros p H. apply IH in H as [H | H]; [now left | right; now right]. }
  destruct paired; [intros [H | H]; [right; now left | now apply Hrest with false]|].
  destruct (isHighSurrogate c && startsWithLow v);
    [intros [H | H]; [right; now left | now apply Hrest with true]|].
  destruct (isHighSurrogate c || isLowSurrogate c);
    (intros [H | H]; [|now apply Hrest with false]).
  - now left.
  - right. now left.
Qed.

(** The last code unit of a text is a carriage return exactly when that of
    the decoded text is. *)
Lemma decodeEncoded_last (a : jsstring) (c : N) (paired : bool) :
  exists decoded c',
    decodeEncoded paired (a ++ [c]) = decoded ++ [c'] /\
    (c' = c \/ c' = 65533%N /\ (isHighSurrogate c || isLowSurrogate c) = true).
Proof.
  revert paired; induction a as [|d a IH]; intros paired.
  - cbn [app decodeEncoded startsWithLow]. destruct paired; [exists [], c; auto|].
    rewrite andb_false_r.
    destruct (isHighSurrogate c || isLowSurrogate c) eqn:Es;
      [exists [], 65533%N | exists [], c]; auto.
  - cbn [app decodeEncoded].
    destruct paired.
    { destruct (IH false) as (decoded & c' & -> & H). now exists (d :: decoded), c'. }
    destruct (isHighSurrogate d && startsWithLow (a ++ [c])).
    { destruct (IH true) as (decoded & c' & -> & H). now exists (d :: decoded), c'. }
    destruct (IH false) as (decoded & c' & -> & H).
    destruct (isHighSurrogate d || isLowSurrogate d);
      [now exists (65533%N :: decoded), c' | now exists (d :: decoded), c'].
Qed.

Lemma endsWith_cr_toWellFormed (s : jsstring) :
  CsvParser.endsWith cr (toWellFormed s) = CsvParser.endsWith cr s.
Proof.
  destruct (rev s) as [|c a] eqn:E.
  - apply (f_equal (@rev N)) in E. rewrite rev_involutive in E. now subst s.
  - apply (f_equal (@rev N)) in E. rewrite rev_involutive in E. cbn [rev] in E. subst s.
    destruct (decodeEncoded_last (rev a) c false) as (decoded & c' & Hd & Hc).
    unfold toWellFormed. rewrite Hd. unfold CsvParser.endsWith.
    rewrite !rev_app_distr. cbn [rev app].
    destruct Hc as [-> | [-> Hs]]; [reflexivity|].
    unfold cr. destruct (N.eqb_spec c 13) as [-> | _]; [discriminate Hs | reflexivity].
Qed.

Lemma transform_header (rest : jsstring) :
  transform initialScan true [] (headerText ++ 10%N :: rest) =
  let '(lines, st', leftover) := transform st0 false [] rest in
  (headerText :: lines, st', leftover).
Proof. rewrite headerText_value. cbn [app]. reflexivity. Qed.

Lemma splitLines_header : splitLines headerText = [headerText].
Proof. vm_compute. reflexivity. Qed.

Lemma rowText_wide_nonempty (row : list jsstring) : wide row -> rowText row <> [].
Proof.
  intros (v & v2 & cells & ->).
  change (rowText (v :: v2 :: cells))
    with (escapeCSVValue v ++ [44%N] ++ rowText (v2 :: cells)).
  intros H. apply app_eq_nil in H as [_ H]. discriminate.
Qed.

Lemma last_map_wide (rows : list (list jsstring)) (row : list jsstring) :
  Forall wide (row :: rows) -> last (List.map rowText (row :: rows)) [] <> [].
Proof.
  revert row; induction rows as [|row2 rows IH]; intros row H.
  - simpl. apply rowText_wide_nonempty. now inversion H.
  - change (last (List.map rowText (row :: row2 :: rows)) [])
      with (last (List.map rowText (row2 :: rows)) []).
    apply IH. now inversion H.
Qed.

Lemma wide_decoded (row : list jsstring) :
  wide row -> wide (List.map toWellFormed row).
Proof.
  intros (v & v2 & cells & ->).
  now exists (toWellFormed v), (toWellFormed v2), (List.map toWellFormed cells).
Qed.

(** The rows that the scan finds in a text that needs no decoding. *)
Lemma scan_csvOfRows (rows : list (list jsstring)) (row : list jsstring) :
  Forall wide (row :: rows) ->
  (let '(lines, st, leftover) :=
     transform initialScan true [] (csvOfRows (row :: rows)) in
   lines ++ match leftover with
            | [] => []
            | _ :: _ => if escaped st then [] else [leftover]
            end)
  = headerText :: List.map rowText (row :: rows).
Proof.
  intros Hwide. unfold csvOfRows.
  change (join [10%N] (headerText :: List.map rowText (row :: rows)))
    with (headerText ++ 10%N :: join [10%N] (List.map rowText (row :: rows))).
  rewrite transform_header, transform_rows.
  pose proof (last_map_wide rows row Hwide) as Hlast.
  destruct (last (List.map rowText (row :: rows)) []) as [|c leftover] eqn:E;
    [congruence|].
  cbn [escaped]. rewrite <- E. rewrite <- app_comm_cons. f_equal.
  symmetry. apply app_removelast_last. discriminate.
Qed.

(** The parser finds the header row and the rows of an export, as they are
    decoded from its bytes. *)
Lemma splitLines_csvOfRows (rows : list (list jsstring)) :
  Forall wide rows ->
  splitLines (csvOfRows rows)
  = headerText :: List.map rowText (List.map (List.map toWellFormed) rows).
Proof.
  intros Hwide. destruct rows as [|row rows]; [apply splitLines_header|].
  unfold splitLines. rewrite toWellFormed_csvOfRows.
  apply (scan_csvOfRows (List.map (List.map toWellFormed) rows)
                        (List.map toWellFormed row)).
  change (Forall wide (List.map (List.map toWellFormed) (row :: rows))).
  apply Forall_map. eapply Forall_impl; [|exact Hwide]. apply wide_decoded.
Qed.










Section WithUrlSyntax.
Context {L : UrlSyntax}.


End WithUrlSyntax.

Lemma rowsOf_shape (result : ScrapingResult) :
  Forall (fun row => exists v2 cells, row = url result :: v2 :: cells) (rowsOf result).
Proof.
  unfold rowsOf. destruct (success result); [destruct (data result) as [d|]|].
  - destruct (contacts d) as [|contact rest].
    + repeat constructor. eexists. eexists. reflexivity.
    + apply Forall_map. apply Forall_forall. intros c _. eexists. eexists. reflexivity.
  - repeat constructor. eexists. eexists. reflexivity.
  - repeat constructor. eexists. eexists. reflexivity.
Qed.

Lemma createCSVFromResults_rows (results : list ScrapingResult) :
  createCSVFromResults results = csvOfRows (flat_map rowsOf results).
Proof.
  unfold createCSVFromResults, csvOfRows, headerText. now rewrite map_map.
Qed.

End CsvFacts.

Module CsvSpec.
Import JSFacts CsvFacts CsvParser CSVUtils.

Section WithUrlSyntax.
Context {L : UrlSyntax}.


End WithUrlSyntax.



End CsvSpec.

(* ================================================================== *)
(** * Further properties of the code *)
(* ================================================================== *)

Import Shapes Effects MoreExamples.

Module NormalizerMore.
Import JSFacts RegexFacts NormalizerFacts.

Lemma valid_phone_canonical (p : jsstring) :
  isValidPhoneNumber p = true ->
  exists ds, normalizePhoneNumber p = js "+358" ++ ds /\
             forallb isDigit ds = true /\ 8 <= length ds <= 9.
Proof.
  intros Hvalid.
  assert (Hshape : FinnishNumeric (stripNonPhone p)).
  { unfold isValidPhoneNumber in Hvalid. apply orb_true_iff in Hvalid as [H | H].
    - now apply reCleanPhone_spec.
    - now apply reSpacedPhone_clean. }
  destruct Hshape as (ds & Hs & Hd & Hlen). exists ds. split; [|now split].
  destruct Hs as [Hs | Hs].
  - now apply normalize_national.
  - rewrite normalize_international; rewrite Hs; [reflexivity | apply startsWith_app].
Qed.

(** X1: a phone string that [isValidPhoneNumber] accepts is normalized to
    [+358] followed by 8 or 9 digits, and the normalized string is accepted
    again. *)
Theorem valid_phone_normalizes_to_canonical (p : jsstring) :
  isValidPhoneNumber p = true ->
  canonicalPhone (normalizePhoneNumber p) /\
  isValidPhoneNumber (normalizePhoneNumber p) = true.
Proof.
  intros Hvalid. destruct (valid_phone_canonical p Hvalid) as (ds & Hnorm & Hd & Hlen).
  rewrite Hnorm. split.
  - now exists ds.
  - unfold isValidPhoneNumber. apply orb_true_iff. left. apply reCleanPhone_spec.
    rewrite stripNonPhone_app, (stripNonPhone_digits ds Hd).
    exists ds. split; [now right | now split].
Qed.

Lemma valid_phone_normalizes_to_canonical_witness :
  canonicalPhone (normalizePhoneNumber (js "040-123 4567")) /\
  isValidPhoneNumber (normalizePhoneNumber (js "040-123 4567")) = true.
Proof.
  apply (valid_phone_normalizes_to_canonical (js "040-123 4567")).
  vm_compute. reflexivity.
Defined.

End NormalizerMore.

(** Boolean tests on code units, turned into arithmetic. *)
Ltac to_arith H :=
  repeat (rewrite orb_true_iff in H || rewrite andb_true_iff in H
          || rewrite N.leb_le in H || rewrite N.eqb_eq in H).

Module EmailFacts.
Import JSFacts RegexFacts EmailShape.

Lemma localClass_printable (c : N) :
  localClass c = true -> printable c = true /\ c <> 64%N.
Proof.
  unfold localClass, alnum, inRange, oneOf, printable.
  change (js "._%+-") with [46; 95; 37; 43; 45]%N. cbn [existsb]. intros H.
  to_arith H. rewrite andb_true_iff, !N.leb_le. lia.
Qed.

Lemma domainClass_printable (c : N) :
  domainClass c = true -> printable c = true /\ c <> 64%N.
Proof.
  unfold domainClass, alnum, inRange, oneOf, printable.
  change (js ".-") with [46; 45]%N. cbn [existsb]. intros H.
  to_arith H. rewrite andb_true_iff, !N.leb_le. lia.
Qed.

Lemma alpha_printable (c : N) : alpha c = true -> printable c = true /\ c <> 64%N.
Proof.
  unfold alpha, inRange, printable. intros H.
  to_arith H. rewrite andb_true_iff, !N.leb_le. lia.
Qed.

Lemma class_run (p : N -> bool) (s : jsstring) :
  (forall c, p c = true -> printable c = true /\ c <> 64%N) ->
  forallb p s = true ->
  forallb printable s = true /\ occurrences 64 s = 0.
Proof.
  intros Hp. unfold occurrences. induction s as [|c s IH]; simpl; [auto|].
  intros H. apply andb_true_iff in H as [Hc Hs].
  destruct (Hp c Hc) as [Hpr Hne]. destruct (IH Hs) as [IH1 IH2].
  rewrite Hpr, IH1. split; [reflexivity|].
  destruct (N.eq_dec c 64); [contradiction | exact IH2].
Qed.

Lemma occurrences_app (c : N) (s t : jsstring) :
  occurrences c (s ++ t) = occurrences c s + occurrences c t.
Proof. apply count_occ_app. Qed.

End EmailFacts.

Module NormalizerEmail.
Import JSFacts RegexFacts EmailShape EmailFacts.

(** X2: an address that [isValidEmail] accepts has exactly one [@], with
    something before it, then a domain that ends with a dot and at least two
    letters, and it is made of printable ASCII only (no white space). *)
Theorem valid_email_shape (e : jsstring) :
  isValidEmail e = true ->
  occurrences 64 e = 1 /\
  forallb printable e = true /\
  exists localPart domain tld,
    e = localPart ++ [64%N] ++ domain ++ [46%N] ++ tld /\
    localPart <> [] /\ domain <> [] /\ 2 <= length tld /\ forallb alpha tld = true.
Proof.
  unfold isValidEmail. rewrite test_anchored by reflexivity.
  unfold emailBody. cbn [seqs Lang Plus].
  intros (l & r1 & -> & (Hl & Hl1 & _) & a & r2 & -> & -> & d & r3 & -> &
          (Hd & Hd1 & _) & dot & t & -> & -> & Ht & Ht2 & _).
  destruct (class_run _ l localClass_printable Hl) as [Pl Ol].
  destruct (class_run _ d domainClass_printable Hd) as [Pd Od].
  destruct (class_run _ t alpha_printable Ht) as [Pt Ot].
  split; [|split].
  - rewrite !occurrences_app, Ol, Od, Ot. reflexivity.
  - rewrite !forallb_app, Pl, Pd, Pt. reflexivity.
  - exists l, d, t. repeat split; auto.
    + intros ->. simpl in Hl1. lia.
    + intros ->. simpl in Hd1. lia.
Qed.

Lemma valid_email_shape_witness :
  occurrences 64 (js "info@example.fi") = 1.
Proof.
  apply (valid_email_shape (js "info@example.fi")). vm_compute. reflexivity.
Defined.

End NormalizerEmail.

Module ExtractorMore.
Import JSFacts ExtractorFacts.

Section WithUnicode.
Context {U : Unicode}.

Lemma isDuplicate_false (acc : list Contact) (c : Contact) :
  ~ In (nameKey c) (List.map nameKey acc) -> isDuplicate acc c = false.
Proof.
  intros H. destruct (isDuplicate acc c) eqn:E; [|reflexivity].
  apply isDuplicate_iff in E as [d [Hd Ed]]. exfalso. apply H.
  rewrite <- Ed. now apply in_map.
Qed.

(** Contacts whose names already differ up to case are all pushed. *)
Lemma fold_pushUnique_distinct (l acc : list Contact) :
  NoDup (List.map nameKey (acc ++ l)) ->
  fold_left pushUnique l acc = acc ++ l.
Proof.
  revert acc; induction l as [|x l IH]; intros acc H; simpl.
  - now rewrite app_nil_r.
  - unfold pushUnique at 2. rewrite isDuplicate_false.
    + rewrite IH; rewrite <- app_assoc; [reflexivity | exact H].
    + rewrite map_app in H. simpl in H. apply NoDup_remove_2 in H.
      intros Hin. apply H. apply in_or_app. now left.
Qed.

(** X3: deduplication is idempotent, and a list of at most 10 contacts
    whose names differ up to case is returned as it is. *)
Theorem removeDuplicateContacts_idempotent :
  (forall contacts,
     removeDuplicateContacts (removeDuplicateContacts contacts)
     = removeDuplicateContacts contacts) /\
  (forall contacts,
     NoDup (List.map nameKey contacts) -> length contacts <= 10 ->
     removeDuplicateContacts contacts = contacts).
Proof.
  assert (Hid : forall contacts,
            NoDup (List.map nameKey contacts) -> length contacts <= 10 ->
            removeDuplicateContacts contacts = contacts).
  { intros contacts Hnd Hlen. unfold removeDuplicateContacts.
    rewrite (fold_pushUnique_distinct contacts []) by exact Hnd.
    now apply firstn_all2. }
  split; [|exact Hid]. intros contacts. apply Hid.
  - unfold removeDuplicateContacts.
    destruct (fold_pushUnique_spec contacts []) as (extra & -> & _ & _ & Hnd & _).
    change ([] ++ extra) with extra in *.
    rewrite <- firstn_map. apply NoDup_firstn. apply Hnd. constructor.
  - unfold removeDuplicateContacts. apply firstn_le_length.
Qed.

End WithUnicode.

(** Three contacts, the second with the name of the first in capitals: it
    is dropped, deduplicating again changes nothing, and the two contacts
    left, whose names differ, are returned as they are. *)
Lemma removeDuplicateContacts_idempotent_witness :
  removeDuplicateContacts (U := latin1)
    (removeDuplicateContacts (U := latin1)
       [toimitusjohtajaContact; shoutedContact; liisaContact])
  = removeDuplicateContacts (U := latin1)
      [toimitusjohtajaContact; shoutedContact; liisaContact] /\
  removeDuplicateContacts (U := latin1)
    [toimitusjohtajaContact; shoutedContact; liisaContact]
  = [toimitusjohtajaContact; liisaContact] /\
  removeDuplicateContacts (U := latin1) [toimitusjohtajaContact; liisaContact]
  = [toimitusjohtajaContact; liisaContact].
Proof.
  destruct (removeDuplicateContacts_idempotent (U := latin1)) as [Hidem Hsame].
  split; [apply Hidem|]. split; [vm_compute; reflexivity|].
  apply Hsame.
  - constructor; [intros [H | []]; vm_compute in H; discriminate|].
    constructor; [intros []|]. constructor.
  - simpl. lia.
Defined.

End ExtractorMore.

(* ================================================================== *)
(** ** What a match is made of *)
(* ================================================================== *)

Module MatchFacts.
Import JSFacts RegexFacts.

Lemma Suffix_refl (s : jsstring) : Suffix s s.
Proof. now exists []. Qed.

Lemma Suffix_cons (x s : jsstring) (c : N) : Suffix x s -> Suffix x (c :: s).
Proof. intros [before ->]. now exists (c :: before). Qed.

Lemma orElse_inv (a b : option jsstring) (x : jsstring) :
  orElse a b = Some x -> a = Some x \/ b = Some x.
Proof. destruct a; simpl; auto. Qed.

Section Runs.
Variable p : N -> bool.
Variable k : cont.
Hypothesis Hk : suffixCont k.

Lemma exactly_suffix (n : nat) (prev : option N) (s x : jsstring) :
  exactly n p prev s k = Some x -> Suffix x s.
Proof.
  revert prev s; induction n as [|n IH]; intros prev s; simpl.
  - apply Hk.
  - destruct s as [|c s]; [discriminate|]. destruct (p c); [|discriminate].
    intros H. apply Suffix_cons. now apply IH in H.
Qed.

Lemma upto_suffix (n : nat) (prev : option N) (s x : jsstring) :
  upto n p prev s k = Some x -> Suffix x s.
Proof.
  revert prev s; induction n as [|n IH]; intros prev s; simpl.
  - apply Hk.
  - destruct s as [|c s]; [apply Hk|]. destruct (p c); [|apply Hk].
    intros H. apply orElse_inv in H as [H | H].
    + apply Suffix_cons. now apply IH in H.
    + now apply Hk in H.
Qed.

Lemma many_suffix (prev : option N) (s x : jsstring) :
  many p prev s k = Some x -> Suffix x s.
Proof.
  revert prev; induction s as [|c s IH]; intros prev; simpl.
  - apply Hk.
  - destruct (p c); [|apply Hk].
    intros H. apply orElse_inv in H as [H | H].
    + apply Suffix_cons. now apply IH in H.
    + now apply Hk in H.
Qed.

End Runs.

(** The matcher answers with what is left of its input. *)
Lemma rmatch_suffix (r : regex) :
  forall k, suffixCont k ->
  forall prev s x, rmatch r prev s k = Some x -> Suffix x s.
Proof.
  induction r as [c|p|r1 IH1 r2 IH2|r1 IH1 r2 IH2|r1 IH1|p lo more| | |];
    intros k Hk prev s x; simpl.
  - destruct s as [|d s]; [discriminate|]. destruct (c =? d)%N; [|discriminate].
    intros H. apply Suffix_cons. now apply Hk in H.
  - destruct s as [|d s]; [discriminate|]. destruct (p d); [|discriminate].
    intros H. apply Suffix_cons. now apply Hk in H.
  - apply IH1. intros prev' s' x'. now apply IH2.
  - intros H. apply orElse_inv in H as [H | H]; [now apply IH1 in H | now apply IH2 in H].
  - intros H. apply orElse_inv in H as [H | H]; [now apply IH1 in H | now apply Hk in H].
  - destruct more as [n|]; apply exactly_suffix; intros prev' s' x'.
    + now apply upto_suffix.
    + now apply many_suffix.
  - destruct (xorb _ _); [apply Hk | discriminate].
  - destruct prev; [discriminate | apply Hk].
  - destruct s; [apply Hk | discriminate].
Qed.

Lemma execFrom_unfold (r : regex) (prev : option N) (s : jsstring) :
  execFrom r prev s =
  match rmatch r prev s done with
  | Some rest => Some (firstn (length s - length rest) s, rest)
  | None =>
      match s with
      | c :: s' => execFrom r (Some c) s'
      | [] => None
      end
  end.
Proof. destruct s; reflexivity. Qed.

Lemma rmatch_done_split (r : regex) (prev : option N) (s rest : jsstring) :
  rmatch r prev s done = Some rest ->
  s = firstn (length s - length rest) s ++ rest.
Proof.
  intros E. apply rmatch_suffix in E as [before ->];
    [|intros ? ? ? H; injection H as <-; apply Suffix_refl].
  rewrite length_app, Nat.add_sub, firstn_app, Nat.sub_diag, firstn_all.
  simpl. now rewrite app_nil_r.
Qed.

(** A match is a piece of the text searched. *)
Lemma execFrom_spec (r : regex) (prev : option N) (s m rest : jsstring) :
  execFrom r prev s = Some (m, rest) -> exists before, s = before ++ m ++ rest.
Proof.
  revert prev; induction s as [|c s IH]; intros prev; rewrite execFrom_unfold;
    (destruct (rmatch r prev _ done) as [rest'|] eqn:E;
     [ intros H; injection H as <- <-; exists []; now apply rmatch_done_split in E | ]).
  - discriminate.
  - intros H. apply IH in H as [before ->]. now exists (c :: before).
Qed.

Lemma firstMatch_includes (r : regex) (s m : jsstring) :
  firstMatch r s = Some m -> includes s m = true.
Proof.
  unfold firstMatch. destruct (execFrom r None s) as [[m' rest]|] eqn:E; [|discriminate].
  intros H. injection H as ->. apply execFrom_spec in E as [before ->].
  apply includes_iff. now exists before, rest.
Qed.

Lemma trimStart_Suffix (s : jsstring) : Suffix (trimStart s) s.
Proof.
  induction s as [|c s IH]; simpl; [apply Suffix_refl|].
  destruct (isSpace c); [now apply Suffix_cons | apply Suffix_refl].
Qed.

(** [trim] only removes code units at the two ends. *)
Lemma trim_spec (s : jsstring) : exists before after, s = before ++ trim s ++ after.
Proof.
  unfold trim. destruct (trimStart_Suffix s) as [before Hs].
  destruct (trimStart_Suffix (rev (trimStart s))) as [after Ht].
  exists before, (rev after). rewrite Hs at 1. f_equal.
  rewrite <- (rev_involutive (trimStart s)) at 1. rewrite Ht at 1.
  now rewrite rev_app_distr.
Qed.

Lemma includes_trans (s m t : jsstring) :
  includes s m = true -> includes m t = true -> includes s t = true.
Proof.
  rewrite !includes_iff. intros (a & b & ->) (c & d & ->).
  exists (a ++ c), (d ++ b). now rewrite <- !app_assoc.
Qed.

End MatchFacts.

Module ContactFields.
Import JSFacts ExtractorFacts MatchFacts.

Section WithUnicode.
Context {U : Unicode}.

(** X4: the fields of an extracted contact come from the text of its
    region: the name is not empty and occurs in the text as it is; a phone,
    when there is one, is the normal form of a piece of the text and is in
    canonical [+358] form; an email, when there is one, is the lower-cased
    form of a valid address that occurs in the text. *)
Theorem extracted_contact_from_text (text : jsstring) (contact : Contact) :
  extractContactFromElement text = Some contact ->
  name contact <> [] /\
  includes text (name contact) = true /\
  (forall ph, phone contact = Some ph ->
     canonicalPhone ph /\
     exists m, includes text m = true /\ ph = normalizePhoneNumber m) /\
  (forall e, email contact = Some e ->
     exists m, includes text m = true /\ isValidEmail m = true /\ e = toLowerCase m).
Proof.
  unfold extractContactFromElement.
  pose proof (firstSome_spec (fun pattern => firstMatch pattern text) namePatterns) as Hn.
  destruct (firstSome _ namePatterns) as [m|]; [|discriminate].
  destruct Hn as (_ & pattern & _ & _ & Hm & _).
  destruct (trim m) as [|c nm] eqn:Et; [discriminate|].
  intros H. injection H as <-. cbn [name phone email].
  split; [discriminate|]. split.
  - apply includes_trans with m; [now apply firstMatch_includes in Hm|].
    apply includes_iff. destruct (trim_spec m) as (a & b & E). rewrite Et in E.
    now exists a, b.
  - split.
    + intros ph Hph. unfold findPhone in Hph.
      pose proof (firstSome_spec
        (fun pattern =>
           match firstMatch pattern text with
           | Some m => if isValidPhoneNumber m then Some (normalizePhoneNumber m) else None
           | None => None
           end) phonePatterns) as Hp.
      rewrite Hph in Hp. destruct Hp as (_ & pat & _ & _ & Hpat & _).
      destruct (firstMatch pat text) as [pm|] eqn:Epm; [|discriminate].
      destruct (isValidPhoneNumber pm) eqn:Ev; [|discriminate].
      injection Hpat as <-. split.
      * now apply NormalizerMore.valid_phone_canonical.
      * exists pm. split; [now apply firstMatch_includes in Epm | reflexivity].
    + intros e He. unfold findEmail in He.
      destruct (firstMatch emailPattern text) as [em|] eqn:Eem; [|discriminate].
      destruct (isValidEmail em) eqn:Ev; [|discriminate].
      injection He as <-. exists em. split; [now apply firstMatch_includes in Eem | auto].
Qed.

End WithUnicode.

Lemma extracted_contact_from_text_witness :
  includes toimitusjohtajaRegion (name toimitusjohtajaContact) = true.
Proof.
  apply (extracted_contact_from_text (U := latin1) toimitusjohtajaRegion
           toimitusjohtajaContact).
  vm_compute. reflexivity.
Defined.

End ContactFields.

(* ================================================================== *)
(** ** Extraction over a page *)
(* ================================================================== *)

Module PageFacts.
Import JSFacts ExtractorFacts MatchFacts Regions.

Lemma fold_left_invariant {A B : Type} (Inv : A -> Prop) (f : A -> B -> A)
  (l : list B) (a : A) :
  Inv a -> (forall a b, Inv a -> Inv (f a b)) -> Inv (fold_left f l a).
Proof.
  intros Ha Hf. revert a Ha; induction l as [|b l IH]; intros a Ha; simpl; auto.
Qed.

Lemma setAdd_NoDup (set : list jsstring) (x : jsstring) :
  NoDup set -> NoDup (setAdd set x).
Proof.
  intros H. unfold setAdd. destruct (existsb (JS.eqb x) set) eqn:E; [exact H|].
  apply NoDup_app; [exact H | repeat constructor; intros [] |].
  intros y Hy [Hxy | []]. subst y.
  assert (existsb (JS.eqb x) set = true) as E'
    by (apply existsb_exists; exists x; split; [exact Hy | now apply eqb_eq]).
  congruence.
Qed.

Lemma setAdd_Forall (Q : jsstring -> Prop) (set : list jsstring) (x : jsstring) :
  Forall Q set -> Q x -> Forall Q (setAdd set x).
Proof.
  intros H Hx. unfold setAdd. destruct (existsb (JS.eqb x) set); [exact H|].
  apply Forall_app. split; [exact H | now constructor].
Qed.

Lemma flat_map_nil {A B : Type} (f : A -> list B) (l : list A) :
  (forall a, In a l -> f a = []) -> flat_map f l = [].
Proof.
  induction l as [|a l IH]; intros H; simpl; [reflexivity|].
  rewrite H by now left. apply IH. intros b Hb. apply H. now right.
Qed.

Lemma flat_map_flat_map {A B C : Type} (f : A -> list B) (g : B -> list C)
  (l : list A) :
  flat_map g (flat_map f l) = flat_map (fun a => flat_map g (f a)) l.
Proof.
  induction l as [|a l IH]; simpl; [reflexivity|]. now rewrite flat_map_app, IH.
Qed.

Section WithPage.
Context {U : Unicode} {W : Web}.

Lemma contactsOf_In (elements : list Element) (c : Contact) :
  In c (contactsOf elements) <->
  exists element, In element elements /\
                  extractContactFromElement (text element) = Some c.
Proof.
  unfold contactsOf. rewrite in_flat_map. split.
  - intros (el & Hel & Hc). exists el. split; [exact Hel|].
    destruct (extractContactFromElement (text el)) as [c'|]; [|contradiction].
    destruct Hc as [<- | []]. reflexivity.
  - intros (el & Hel & Hc). exists el. split; [exact Hel|]. rewrite Hc. now left.
Qed.

(** The three scans of [extractGroupedContacts], as one scan. *)
Lemma extractGroupedContacts_scanned (dom : Dom) :
  extractGroupedContacts dom = removeDuplicateContacts (contactsOf (scannedElements dom)).
Proof.
  unfold extractGroupedContacts, scannedElements, contactsOf.
  now rewrite !flat_map_app, flat_map_flat_map.
Qed.

Lemma extractGroupedContacts_bounded (dom : Dom) :
  length (extractGroupedContacts dom) <= 10.
Proof. unfold extractGroupedContacts, removeDuplicateContacts. apply firstn_le_length. Qed.

Lemma extractGroupedContacts_spec (dom : Dom) :
  exists uniqueContacts,
    extractGroupedContacts dom = firstn 10 uniqueContacts /\
    Subsequence uniqueContacts (contactsOf (scannedElements dom)) /\
    NoDup (List.map nameKey uniqueContacts) /\
    forall c, In c uniqueContacts -> FirstOccurrence (contactsOf (scannedElements dom)) c.
Proof.
  rewrite extractGroupedContacts_scanned. unfold removeDuplicateContacts.
  destruct (fold_pushUnique_spec (contactsOf (scannedElements dom)) [])
    as (extra & -> & Hsub & Hfirst & Hnd & _).
  exists extra. change ([] ++ extra) with extra in *.
  repeat split; auto.
  - apply Hnd. constructor.
  - now apply Hfirst.
Qed.

Lemma extractGroupedContacts_NoDup (dom : Dom) :
  NoDup (List.map nameKey (extractGroupedContacts dom)).
Proof.
  destruct (extractGroupedContacts_spec dom) as (u & -> & _ & Hnd & _).
  rewrite <- firstn_map. now apply NoDup_firstn.
Qed.

Lemma phoneSet_add (set : list jsstring) (phone : jsstring) :
  phoneSet set ->
  phoneSet (if isValidPhoneNumber phone
            then setAdd set (normalizePhoneNumber phone) else set).
Proof.
  intros [Hnd Hall]. destruct (isValidPhoneNumber phone) eqn:E; [|now split].
  split; [now apply setAdd_NoDup|]. apply setAdd_Forall; [exact Hall|].
  now apply NormalizerMore.valid_phone_canonical.
Qed.

Lemma extractPhoneNumbers_phoneSet (dom : Dom) : phoneSet (extractPhoneNumbers dom).
Proof.
  unfold extractPhoneNumbers. apply fold_left_invariant.
  - apply fold_left_invariant.
    + split; constructor.
    + intros set element Hset. destruct (attr element (js "href")) as [[|c href]|]; auto.
      now apply phoneSet_add.
  - intros set pattern Hset. apply fold_left_invariant; [exact Hset|].
    intros set' m Hset'. now apply phoneSet_add.
Qed.

Lemma emailSet_add (set : list jsstring) (email : jsstring) :
  emailSet set ->
  emailSet (if isValidEmail email then setAdd set (toLowerCase email) else set).
Proof.
  intros [Hnd Hall]. destruct (isValidEmail email) eqn:E; [|now split].
  split; [now apply setAdd_NoDup|]. apply setAdd_Forall; [exact Hall|].
  now exists email.
Qed.

Lemma extractEmailAddresses_emailSet (dom : Dom) : emailSet (extractEmailAddresses dom).
Proof.
  unfold extractEmailAddresses. apply fold_left_invariant.
  - apply fold_left_invariant.
    + split; constructor.
    + intros set element Hset. destruct (attr element (js "href")) as [[|c href]|]; auto.
      now apply emailSet_add.
  - intros set m Hset. now apply emailSet_add.
Qed.


End WithPage.
End PageFacts.

Module PeopleFacts.
Import JSFacts PageFacts Regions.

(** The name pattern of [extractPeople] starts with an upper-case letter. *)
Lemma namePattern_needs_upper (prev : option N) (s : jsstring) (k : cont) :
  match s with c :: _ => upperFi c = false | [] => True end ->
  rmatch (nth 0 namePatterns Eol) prev s k = None.
Proof.
  intros H. cbn [nth namePatterns seqs capitalized rmatch].
  destruct (xorb (wordBefore prev) (wordAfter s)); [|reflexivity].
  destruct s as [|c s]; [reflexivity|]. now rewrite H.
Qed.

Lemma execFrom_no_upper (prev : option N) (s : jsstring) :
  forallb (fun c => negb (upperFi c)) s = true ->
  execFrom (nth 0 namePatterns Eol) prev s = None.
Proof.
  revert prev; induction s as [|c s IH]; intros prev H;
    rewrite MatchFacts.execFrom_unfold.
  - now rewrite namePattern_needs_upper.
  - simpl in H. apply andb_true_iff in H as [Hc Hs]. apply negb_true_iff in Hc.
    rewrite namePattern_needs_upper by exact Hc. now apply IH.
Qed.

Lemma matchAll_no_upper (s : jsstring) :
  forallb (fun c => negb (upperFi c)) s = true ->
  matchAll (nth 0 namePatterns Eol) s = [].
Proof.
  intros H. unfold matchAll. cbn [matchAllFrom]. now rewrite execFrom_no_upper.
Qed.

End PeopleFacts.

Module PageSpec.
Import JSFacts ExtractorFacts PageFacts PeopleFacts Regions.

Section WithPage.
Context {U : Unicode} {W : Web}.

(** X5: the grouped contacts of a page are at most 10, no two with the same
    name up to case; each one was extracted from one of the scanned regions,
    and they stand in the order in which the scan met them (selectors, then
    cards, then the catch-all scan). *)
Theorem grouped_contacts_from_regions (dom : Dom) :
  let found := extractGroupedContacts dom in
  length found <= 10 /\
  NoDup (List.map nameKey found) /\
  Subsequence found (contactsOf (scannedElements dom)) /\
  forall c, In c found ->
    FirstOccurrence (contactsOf (scannedElements dom)) c /\
    exists element, In element (scannedElements dom) /\
                    extractContactFromElement (text element) = Some c.
Proof.
  cbv zeta. split; [apply extractGroupedContacts_bounded|].
  split; [apply extractGroupedContacts_NoDup|].
  destruct (extractGroupedContacts_spec dom) as (u & Hu & Hsub & _ & Hfirst).
  rewrite Hu. split; [now apply Subsequence_firstn|].
  intros c Hc.
  assert (Hin : In c u).
  { rewrite <- (firstn_skipn 10 u). apply in_or_app. now left. }
  split; [now apply Hfirst|]. apply contactsOf_In.
  now apply Subsequence_In with u.
Qed.

(** X6: the phone numbers of a page hold no number twice, and every one of
    them is [+358] followed by 8 or 9 digits. *)
Theorem phone_numbers_unique_canonical (dom : Dom) :
  NoDup (extractPhoneNumbers dom) /\
  Forall canonicalPhone (extractPhoneNumbers dom).
Proof.
  destruct (extractPhoneNumbers_phoneSet dom) as [Hnd Hall].
  split; assumption.
Qed.

(** X7: the email addresses of a page hold no address twice, and every one
    of them is the lower-cased form of an address that [isValidEmail]
    accepts. *)
Theorem email_addresses_unique_lowered (dom : Dom) :
  NoDup (extractEmailAddresses dom) /\
  Forall (fun e => exists m, isValidEmail m = true /\ e = toLowerCase m)
         (extractEmailAddresses dom).
Proof.
  destruct (extractEmailAddresses_emailSet dom) as [Hnd Hall].
  split; assumption.
Qed.

(** X8: [extractPeople] looks for names, which start with an upper-case
    letter, in the lower-cased text of a section; when lower-casing leaves no
    upper-case letter of the name classes, it finds no one. *)
Theorem people_never_found (dom : Dom) :
  peopleTextLowered dom = true -> extractPeople dom = [].
Proof.
  intros H. unfold peopleTextLowered in H. rewrite forallb_forall in H.
  unfold extractPeople.
  rewrite (flat_map_nil _ peopleSelectors); [reflexivity|].
  intros selector Hsel. apply H in Hsel. rewrite forallb_forall in Hsel.
  apply flat_map_nil. intros element Hel. apply Hsel in Hel.
  now rewrite matchAll_no_upper.
Qed.

End WithPage.

Lemma people_never_found_witness :
  extractPeople (U := latin1) (W := Scripted.web)
    [Scripted.mkElement [js ".team-member"] toimitusjohtajaRegion None] = [].
Proof.
  apply (people_never_found (U := latin1) (W := Scripted.web)).
  vm_compute. reflexivity.
Defined.

End PageSpec.

(* ================================================================== *)
(** ** The attempts of [scrapeContactInfo] *)
(* ================================================================== *)

Module AttemptFacts.
Import JSFacts FetcherFacts PageFacts Regions.

Section WithWorld.
Context {U : Unicode} {L : UrlSyntax} {W : Web}.

Lemma silent_ret {A : Type} (a : A) : silent (ret a).
Proof. intros st o st' H. injection H as _ <-. reflexivity. Qed.

Lemma silent_throw {A : Type} (e : thrown) : silent (throw (A := A) e).
Proof. intros st o st' H. injection H as _ <-. reflexivity. Qed.

Lemma silent_bind {A B : Type} (m : M A) (f : A -> M B) :
  silent m -> (forall a, silent (f a)) -> silent (bind m f).
Proof.
  intros Hm Hf st o st'. unfold bind. destruct (m st) as [[a | e] st1] eqn:E.
  - intros H. apply Hf in H. apply Hm in E. congruence.
  - intros H. injection H as _ <-. now apply Hm in E.
Qed.

Lemma silent_liftWorld {A : Type} (f : World -> A * World) : silent (liftWorld f).
Proof.
  intros st o st'. unfold liftWorld. destruct (f (world st)).
  intros H. injection H as _ <-. reflexivity.
Qed.

Lemma silent_liftOutcome {A : Type} (f : World -> outcome A * World) :
  silent (liftOutcome f).
Proof.
  intros st o st'. unfold liftOutcome. destruct (f (world st)).
  intros H. injection H as _ <-. reflexivity.
Qed.

Lemma silent_sleep (ms : N) : silent (sleep ms).
Proof. intros st o st' H. injection H as _ <-. reflexivity. Qed.

(** The request of an attempt writes nothing on the console. *)
Lemma fetchAttempt_silent (url : jsstring) (attempt : nat) :
  silent (fetchAttempt url attempt).
Proof.
  unfold fetchAttempt.
  apply silent_bind; [destruct (isValidUrl url); [apply silent_ret | apply silent_throw]|].
  intros _. apply silent_bind;
    [destruct (1 <? attempt); [apply silent_sleep | apply silent_ret]|].
  intros _. apply silent_bind; [apply silent_liftWorld|].
  intros i. apply silent_bind; [apply silent_liftWorld|].
  intros jitter. apply silent_bind; [apply silent_sleep|].
  intros _. apply silent_bind.
  - destruct (attempt =? 1); [apply silent_liftOutcome|].
    destruct (attempt =? 2); apply silent_liftOutcome.
  - intros response. destruct (400 <=? status response)%N;
      [apply silent_throw | apply silent_ret].
Qed.

(** What one pass through the [try] block does: it fails and writes
    nothing, or it answers with what was extracted from the page and writes
    one line. *)
Lemma attemptBody_effect (url : jsstring) (attempt : nat) (st st' : State)
  (o : outcome ContactInfo) :
  attemptBody url attempt st = (o, st') ->
  match o with
  | Throw _ => console st' = console st
  | Ok info =>
      failedAttempts (console st') = failedAttempts (console st) /\
      exists dom, info = pageInfo dom
  end.
Proof.
  unfold attemptBody, bind at 1.
  destruct (fetchAttempt url attempt st) as [[response | e] st1] eqn:E.
  - apply fetchAttempt_silent in E. unfold extractPage, bind, ofOutcome.
    destruct (cheerio_load (responseData response)) as [dom | e].
    + unfold log, ret. intros H. injection H as <- <-. cbn [console]. split.
      * unfold failedAttempts. rewrite filter_app, length_app, E. simpl. lia.
      * now exists dom.
    + intros H. injection H as <- <-. exact E.
  - intros H. injection H as <- <-. now apply fetchAttempt_silent in E.
Qed.

Lemma failedAttempts_app (a b : list logEntry) :
  failedAttempts (a ++ b) = failedAttempts a + failedAttempts b.
Proof. unfold failedAttempts. now rewrite filter_app, length_app. Qed.

(** The loop makes at most [remaining] attempts; a success comes after
    fewer failures than that, and a failure after at least one. *)
Lemma retryLoop_attempts (remaining attempt : nat) (lastError : option jsstring)
  (url : jsstring) (st st' : State) (o : outcome ContactInfo) :
  retryLoop remaining attempt lastError url st = (o, st') ->
  failedAttempts (console st') <= failedAttempts (console st) + remaining /\
  failedAttempts (console st) <= failedAttempts (console st') /\
  match o with
  | Ok info =>
      failedAttempts (console st') < failedAttempts (console st) + remaining /\
      exists dom, info = pageInfo dom
  | Throw e =>
      (1 <= remaining -> failedAttempts (console st) < failedAttempts (console st')) /\
      exists last, e = ErrorObj (finalErrorMessage url last) /\
                   (lastError <> None \/ 1 <= remaining -> last <> None)
  end.
Proof.
  revert attempt lastError st; induction remaining as [|remaining IH];
    intros attempt lastError st.
  - simpl. unfold throw. intros H. injection H as <- <-.
    repeat split; try lia. exists lastError. split; [reflexivity|].
    intros [H | H]; [exact H | lia].
  - destruct (attemptBody url attempt st) as [[info | e1] st1] eqn:E.
    + rewrite (retryLoop_success remaining attempt lastError url st st1 info E).
      intros H. injection H as <- <-.
      apply attemptBody_effect in E as [Hc Hdom]. rewrite Hc.
      repeat split; try lia. exact Hdom.
    + pose proof (attemptBody_effect _ _ _ _ _ E) as Hc. cbn in Hc.
      destruct (isNonRetryableError (asError e1)) eqn:En.
      * rewrite (retryLoop_stop remaining attempt lastError url st st1 e1 E En).
        intros H. injection H as <- <-. unfold gaveUp. cbn [console].
        rewrite !failedAttempts_app, Hc. cbn.
        repeat split; try lia. exists (Some (asError e1)). split; [reflexivity|].
        discriminate.
      * rewrite (retryLoop_next remaining attempt lastError url st st1 e1 E En).
        intros H. apply IH in H as (Hle & Hge & Ho).
        unfold warned in Hle, Hge, Ho. cbn [console] in Hle, Hge, Ho.
        rewrite failedAttempts_app, Hc in Hle, Hge, Ho. cbn in Hle, Hge, Ho.
        split; [lia|]. split; [lia|]. destruct o as [info | e].
        -- destruct Ho as [Hlt Hdom]. split; [lia | exact Hdom].
        -- destruct Ho as [_ (last & -> & Hlast)]. split; [lia|].
           exists last. split; [reflexivity|]. intros _. apply Hlast.
           left. discriminate.
Qed.

(** Every retried attempt leaves one warning. *)
Lemma Retried_failed (url : jsstring) (attempt attempt' : nat) (st st' : State) :
  Retried url attempt st attempt' st' ->
  failedAttempts (console st') = failedAttempts (console st) + (attempt' - attempt).
Proof.
  induction 1 as [attempt st | attempt st e message st1 attempt' st' Hbody Hm Hn Hrest IH].
  - lia.
  - pose proof (Retried_le _ _ _ _ _ Hrest) as Hle.
    apply attemptBody_effect in Hbody. cbn in Hbody.
    rewrite IH. unfold afterWarning. cbn [console].
    rewrite failedAttempts_app, Hbody. cbn. lia.
Qed.

End WithWorld.
End AttemptFacts.

Module AttemptSpec.
Import JSFacts FetcherFacts PageFacts AttemptFacts Regions.

Section WithWorld.
Context {U : Unicode} {L : UrlSyntax} {W : Web}.

(** X9: [scrapeContactInfo] never makes more than 3 attempts.  When it
    answers, at most 2 attempts have failed before: some attempt [k] returned
    the data after [k - 1] retried attempts.  When it throws, between 1 and 3
    attempts have failed: the last of them is some attempt [k], reached after
    [k - 1] retried attempts, which threw an error, and what is thrown is the
    terminal error built from the message of that error. *)
Theorem attempts_bounded (url : jsstring) (st st' : State) (o : outcome ContactInfo) :
  scrapeContactInfo url st = (o, st') ->
  let failed := failedAttempts (console st') - failedAttempts (console st) in
  failedAttempts (console st) <= failedAttempts (console st') /\
  match o with
  | Ok info =>
      failed <= 2 /\
      exists k stk,
        Retried url 1 st k stk /\ 1 <= k <= 3 /\
        attemptBody url k stk = (Ok info, st') /\ failed = k - 1
  | Throw e =>
      1 <= failed <= 3 /\
      exists message, e = ErrorObj (finalErrorMessage url (Some message)) /\
      exists k stk ek st1,
        Retried url 1 st k stk /\ 1 <= k <= 3 /\
        attemptBody url k stk = (Throw ek, st1) /\
        Message ek message /\ failed = k
  end.
Proof.
  unfold scrapeContactInfo, maxRetries. intros H.
  apply retryLoop_run in H as (k & stk & ok & st1 & Hrun & Hk & Hbody & Hok).
  pose proof (Retried_failed url 1 k st stk Hrun) as Hfailed.
  pose proof (attemptBody_effect url k stk st1 ok Hbody) as Heffect.
  cbv zeta. destruct ok as [info | ek].
  - destruct Hok as [-> ->]. destruct Heffect as [Hsame _].
    split; [lia|]. split; [lia|]. exists k, stk.
    split; [exact Hrun|]. split; [lia|]. split; [exact Hbody | lia].
  - destruct Hok as (message & Hm & -> & Hend).
    assert (Hcount : failedAttempts (console st') = failedAttempts (console st) + k).
    { destruct Hend as [[_ ->] | (_ & _ & ->)];
        unfold afterGivingUp, afterWarning; cbn [console];
        rewrite failedAttempts_app, Heffect, Hfailed; cbn; lia. }
    split; [lia|]. split; [lia|]. exists message. split; [reflexivity|].
    exists k, stk, ek, st1.
    split; [exact Hrun|]. split; [lia|]. split; [exact Hbody|].
    split; [exact Hm | lia].
Qed.


End WithWorld.

(** The example URL answered by HTTP 404: one attempt fails, and the error
    thrown is built from the message of that attempt. *)
Lemma attempts_bounded_witness :
  failedAttempts (console (Scripted.start [Scripted.respond 404 "Not Found" []]))
  <= failedAttempts (console notFoundEnd) /\
  1 <= failedAttempts (console notFoundEnd)
       - failedAttempts (console (Scripted.start [Scripted.respond 404 "Not Found" []]))
    <= 3 /\
  exists message,
    ErrorObj (js "Failed to scrape https://example.fi after 3 attempts: HTTP 404: Not Found")
    = ErrorObj (finalErrorMessage exampleUrl (Some message)) /\
    exists k stk ek st1,
      Retried (U := latin1) (L := Scripted.urls) (W := Scripted.web) exampleUrl 1
        (Scripted.start [Scripted.respond 404 "Not Found" []]) k stk /\
      1 <= k <= 3 /\
      attemptBody (U := latin1) (L := Scripted.urls) (W := Scripted.web) exampleUrl k stk
      = (Throw ek, st1) /\
      Message ek message /\
      failedAttempts (console notFoundEnd)
      - failedAttempts (console (Scripted.start [Scripted.respond 404 "Not Found" []]))
      = k.
Proof.
  apply (attempts_bounded (U := latin1) (L := Scripted.urls) (W := Scripted.web)
           exampleUrl (Scripted.start [Scripted.respond 404 "Not Found" []]) notFoundEnd
           (Throw (ErrorObj
              (js "Failed to scrape https://example.fi after 3 attempts: HTTP 404: Not Found")))).
  vm_compute. reflexivity.
Defined.


End AttemptSpec.

(* ================================================================== *)
(** ** The batch route: chunks and answers *)
(* ================================================================== *)

Module ChunkFacts.
Import BatchFacts.

Lemma chunkLoop_nonempty {A : Type} (urls : list A) (fuel i : nat) :
  chunkLoop fuel i urls <> [] -> i < length urls.
Proof.
  destruct fuel as [|fuel]; simpl; [congruence|].
  destruct (Nat.ltb_spec i (length urls)); [auto | congruence].
Qed.

Lemma slice_length {A : Type} (urls : list A) (i : nat) :
  length (slice i (i + concurrencyLimit) urls) = Nat.min 5 (length urls - i).
Proof.
  unfold slice, concurrencyLimit. rewrite length_firstn, length_skipn.
  replace (i + 5 - i) with 5 by lia. reflexivity.
Qed.

Lemma chunkLoop_sizes {A : Type} (urls : list A) (fuel i : nat) :
  Forall (fun chunk => 1 <= length chunk <= 5) (chunkLoop fuel i urls) /\
  forall before chunk after,
    chunkLoop fuel i urls = before ++ chunk :: after -> after <> [] ->
    length chunk = 5.
Proof.
  revert i; induction fuel as [|fuel IH]; intros i; simpl.
  - split; [constructor|]. intros before chunk after H. now destruct before.
  - destruct (Nat.ltb_spec i (length urls)) as [Hi | Hi].
    + destruct (IH (i + concurrencyLimit)) as [IH1 IH2]. split.
      * constructor; [rewrite slice_length; lia | exact IH1].
      * intros before chunk after H Hafter. destruct before as [|b before].
        -- simpl in H. injection H as <- Hrest.
           assert (Hnext : i + concurrencyLimit < length urls).
           { apply chunkLoop_nonempty with fuel. now rewrite Hrest. }
           rewrite slice_length. unfold concurrencyLimit in Hnext. lia.
        -- simpl in H. injection H as _ Hrest. now apply IH2 with before after.
    + split; [constructor|]. intros before chunk after H. now destruct before.
Qed.

Lemma chunkLoop_count {A : Type} (urls : list A) (fuel i : nat) :
  length urls <= i + fuel * concurrencyLimit ->
  5 * length (chunkLoop fuel i urls) < length urls - i + 5 /\
  length urls - i <= 5 * length (chunkLoop fuel i urls).
Proof.
  unfold concurrencyLimit. revert i; induction fuel as [|fuel IH]; intros i Hfuel;
    cbn [chunkLoop].
  - cbn [length]. lia.
  - destruct (Nat.ltb_spec i (length urls)) as [Hi | Hi]; cbn [length]; [|lia].
    specialize (IH (i + concurrencyLimit)). unfold concurrencyLimit in IH.
    assert (H : length urls <= i + 5 + fuel * 5) by lia. apply IH in H.
    unfold concurrencyLimit. lia.
Qed.

End ChunkFacts.

Module BatchMore.
Import BatchFacts ChunkFacts.

(** X11: the chunks of a batch are the input cut in order into pieces of 5:
    put end to end they are the input, no chunk is empty or longer than 5,
    every chunk but the last has exactly 5 URLs, and there are as many chunks
    as the length of the input divided by 5 and rounded up. *)
Theorem chunks_partition {A : Type} (urls : list A) :
  concat (chunksOf urls) = urls /\
  Forall (fun chunk => 1 <= length chunk <= 5) (chunksOf urls) /\
  (forall before chunk after,
     chunksOf urls = before ++ chunk :: after -> after <> [] -> length chunk = 5) /\
  5 * length (chunksOf urls) < length urls + 5 /\
  length urls <= 5 * length (chunksOf urls).
Proof.
  split; [apply chunksOf_concat|]. unfold chunksOf.
  destruct (chunkLoop_sizes urls (length urls) 0) as [H1 H2].
  split; [exact H1|]. split; [exact H2|].
  destruct (chunkLoop_count urls (length urls) 0) as [H3 H4].
  - unfold concurrencyLimit. lia.
  - lia.
Qed.

Section WithWorld.
Context {U : Unicode} {L : UrlSyntax} {W : Web}.

(** X12: an error answer of the batch route never comes after a scrape: the
    state is then as it was, but for the line logged with a 500; the route
    answers 500 only when the body of the request cannot be read, and any
    other error answer is a 400. *)
Theorem batch_error_answers (body : requestBody) (st st' : State)
  (status : N) (message : jsstring) :
  PUT body st = (ErrorJson status message, st') ->
  world st' = world st /\
  (status = 500%N /\ body = BodyRejected /\ console st' = console st ++ [ErrorBatchFailed]
   \/ status = 400%N /\ body <> BodyRejected /\ st' = st).
Proof.
  destruct body as [|[| |urls]]; cbn [PUT].
  - intros H. injection H as <- _ <-. split; [reflexivity|]. left. auto.
  - intros H. injection H as <- _ <-. split; [reflexivity|]. right.
    repeat split; congruence.
  - intros H. injection H as <- _ <-. split; [reflexivity|]. right.
    repeat split; congruence.
  - destruct (Nat.ltb_spec 50 (length urls)) as [Hlen | Hlen].
    + intros H. injection H as <- _ <-. split; [reflexivity|]. right.
      repeat split; congruence.
    + destruct (PUT_accepts urls st Hlen) as (results & st1 & Hrun & _).
      unfold PUT in Hrun.
      destruct (Nat.ltb_spec 50 (length urls)) as [Hlen' | _]; [lia|].
      rewrite Hrun. discriminate.
Qed.

End WithWorld.

Lemma batch_error_answers_witness :
  world (W := Scripted.web) (Scripted.start [Scripted.respond 200 "OK" []])
  = world (W := Scripted.web) (Scripted.start [Scripted.respond 200 "OK" []]) /\
  (400%N = 500%N /\ BodyJson UrlsNotArray = BodyRejected /\
   console (W := Scripted.web) (Scripted.start [Scripted.respond 200 "OK" []])
   = console (W := Scripted.web) (Scripted.start [Scripted.respond 200 "OK" []])
     ++ [ErrorBatchFailed]
   \/ 400%N = 400%N /\ BodyJson UrlsNotArray <> BodyRejected /\
      Scripted.start [Scripted.respond 200 "OK" []]
      = Scripted.start [Scripted.respond 200 "OK" []]).
Proof.
  apply (batch_error_answers (U := latin1) (L := Scripted.urls) (W := Scripted.web)
           (BodyJson UrlsNotArray) _ _ 400%N (js "URLs array is required")).
  reflexivity.
Defined.

End BatchMore.

(* ================================================================== *)
(** ** CSV: what is read, and what is read back *)
(* ================================================================== *)

Module TrimFacts.
Import MatchFacts.

Lemma trimStart_head (s : jsstring) (c : N) (rest : jsstring) :
  trimStart s = c :: rest -> isSpace c = false.
Proof.
  induction s as [|d s IH]; simpl; [discriminate|].
  destruct (isSpace d) eqn:E; [exact IH|]. intros H. injection H as <- _. exact E.
Qed.

Lemma trimStart_fixed (s : jsstring) :
  (forall c rest, s = c :: rest -> isSpace c = false) -> trimStart s = s.
Proof.
  destruct s as [|d s]; simpl; [reflexivity|]. intros H.
  now rewrite (H d s eq_refl).
Qed.

Lemma trimStart_idempotent (s : jsstring) : trimStart (trimStart s) = trimStart s.
Proof.
  apply trimStart_fixed. intros c rest H. now apply trimStart_head with s rest.
Qed.

Lemma trim_idempotent (s : jsstring) : trim (trim s) = trim s.
Proof.
  unfold trim.
  assert (H : trimStart (rev (trimStart (rev (trimStart s))))
              = rev (trimStart (rev (trimStart s)))).
  { apply trimStart_fixed. intros c rest Hc.
    destruct (trimStart_Suffix (rev (trimStart s))) as [pre Hpre].
    assert (Hb : trimStart (rev (trimStart s)) = rev rest ++ [c]).
    { rewrite <- (rev_involutive (trimStart (rev (trimStart s)))), Hc. reflexivity. }
    rewrite Hb in Hpre.
    assert (Ha : trimStart s = c :: rest ++ rev pre).
    { rewrite <- (rev_involutive (trimStart s)), Hpre, !rev_app_distr. simpl.
      now rewrite rev_involutive. }
    now apply trimStart_head with s (rest ++ rev pre). }
  rewrite H, rev_involutive. f_equal. apply trimStart_idempotent.
Qed.

End TrimFacts.

Module CsvRows.
Import JSFacts CsvFacts CsvParser CSVUtils.

(** A line without row end and quote is not cut by the scan for row ends,
    also when it is the first line. *)
Lemma transform_first_line (v acc : jsstring) (atStart : bool) :
  (forall c, In c v -> c <> 10%N /\ c <> 13%N /\ c <> 34%N) ->
  transform initialScan atStart acc v = ([], initialScan, rev acc ++ v).
Proof.
  revert acc atStart; induction v as [|c v IH]; intros acc atStart Hv.
  - simpl. now rewrite app_nil_r.
  - destruct (Hv c (or_introl eq_refl)) as (H10 & H13 & H34).
    apply N.eqb_neq in H10, H13, H34.
    unfold initialScan in *.
    cbn [transform escaped quoted first newline].
    unfold quote, nl, cr.
    rewrite H34, H10, H13. cbn [andb negb]. rewrite H10.
    rewrite IH by (intros d Hd; apply Hv; now right).
    cbn [rev]. now rewrite <- app_assoc.
Qed.

Lemma splitLines_single (v : jsstring) :
  (forall c, In c v -> c <> 10%N /\ c <> 13%N /\ c <> 34%N) ->
  length (splitLines v) <= 1.
Proof.
  intros Hv. unfold splitLines. rewrite transform_first_line.
  - cbn [rev app]. destruct (toWellFormed v); simpl; lia.
  - intros c Hc. apply decodeEncoded_from in Hc as [-> | Hc]; [|now apply Hv].
    repeat split; discriminate.
Qed.

Lemma parse_length (csvContent : jsstring) :
  length (parse csvContent) = length (splitLines csvContent) - 1.
Proof.
  unfold parse. destruct (splitLines csvContent) as [|line lines]; [reflexivity|].
  cbn [List.map length]. rewrite !length_map. lia.
Qed.

Section WithUrlSyntax.
Context {L : UrlSyntax}.

Lemma parseCSVUrls_rows (rows : list object) :
  let urls :=
    flat_map
      (fun row =>
         match objectValues row with
         | (c :: v) :: _ =>
             if isValidUrl (trim (c :: v)) then [trim (c :: v)] else []
         | _ => []
         end) rows in
  Forall (fun u => trim u = u /\ isValidUrl u = true) urls /\
  length urls <= length rows.
Proof.
  induction rows as [|row rows [IH1 IH2]]; cbn zeta in *; cbn [flat_map].
  - split; [constructor | reflexivity].
  - destruct (objectValues row) as [|[|c v] values]; cbn [app length];
      try (split; [exact IH1 | lia]).
    destruct (isValidUrl (trim (c :: v))) eqn:E; cbn [app length].
    + split; [|lia]. constructor; [|exact IH1].
      split; [apply TrimFacts.trim_idempotent | exact E].
    + split; [exact IH1 | lia].
Qed.

(** The URLs read from a text: all kept as they are, at most one for each
    row after the header row. *)
Lemma parseCSVUrls_bounds (csvContent : jsstring) :
  Forall (fun u => trim u = u /\ isValidUrl u = true) (parseCSVUrls csvContent) /\
  length (parseCSVUrls csvContent) <= length (splitLines csvContent) - 1.
Proof.
  destruct (parseCSVUrls_rows (parse csvContent)) as [H1 H2].
  split; [exact H1|]. rewrite <- parse_length. exact H2.
Qed.

End WithUrlSyntax.

End CsvRows.

Module RowFacts.
Import JSFacts CsvFacts CsvParser CSVUtils.

Lemma endsWith_app (c : N) (s t : jsstring) :
  t <> [] -> endsWith c (s ++ t) = endsWith c t.
Proof.
  intros Ht. unfold endsWith. rewrite rev_app_distr.
  destruct (rev t) as [|d t'] eqn:E; [|reflexivity].
  exfalso. apply Ht. rewrite <- (rev_involutive t), E. reflexivity.
Qed.

Lemma endsWith_single (c d : N) : endsWith c [d] = (d =? c)%N.
Proof. reflexivity. Qed.

Lemma endsWith_In (c : N) (s : jsstring) : endsWith c s = true -> In c s.
Proof.
  unfold endsWith. destruct (rev s) as [|d t] eqn:E; [discriminate|].
  intros H. apply N.eqb_eq in H. subst d. apply in_rev. rewrite E. now left.
Qed.

Lemma escapeCSVValue_nonempty (v : jsstring) : v <> [] -> escapeCSVValue v <> [].
Proof.
  intros Hv. destruct (escapeCSVValue_cases v) as [[-> _] | ->]; [exact Hv | discriminate].
Qed.

Lemma escapeCSVValue_end (c : N) (v : jsstring) :
  c <> 34%N -> endsWith c (escapeCSVValue v) = true -> endsWith c v = true.
Proof.
  intros Hc. destruct (escapeCSVValue_cases v) as [[-> _] | ->]; [auto|].
  rewrite app_comm_cons, endsWith_app by discriminate.
  rewrite endsWith_single. intros H. apply N.eqb_eq in H. congruence.
Qed.

Lemma escapeCSVValue_no_comma_end (v : jsstring) :
  endsWith 44%N (escapeCSVValue v) = false.
Proof.
  destruct (escapeCSVValue_cases v) as [[-> [Hcomma _]] | ->].
  - destruct (endsWith 44%N v) eqn:E; [|reflexivity].
    exfalso. apply Hcomma. now apply endsWith_In.
  - rewrite app_comm_cons, endsWith_app by discriminate. reflexivity.
Qed.

Lemma rowText_cons (v v2 : jsstring) (cells : list jsstring) :
  rowText (v :: v2 :: cells) = escapeCSVValue v ++ 44%N :: rowText (v2 :: cells).
Proof. reflexivity. Qed.

Lemma rowText_empty (cells : list jsstring) :
  rowText cells = [] -> cells = [] \/ cells = [[]].
Proof.
  destruct cells as [|v [|v2 cells]]; [now left | |].
  - intros H. right. destruct v as [|c v]; [reflexivity|].
    exfalso. now apply (escapeCSVValue_nonempty (c :: v)).
  - rewrite rowText_cons. intros H. now apply app_eq_nil in H as [_ H].
Qed.

(** The last code unit of a row of an export is the last one of its last
    cell as it is written, or a separator after which the last cell is
    empty. *)
Lemma rowText_end (c : N) (cells : list jsstring) :
  c <> 44%N ->
  endsWith c (rowText cells) = endsWith c (escapeCSVValue (last cells [])).
Proof.
  intros Hc. induction cells as [|v cells IH]; [reflexivity|].
  destruct cells as [|v2 cells]; [reflexivity|].
  rewrite rowText_cons. change (last (v :: v2 :: cells) []) with (last (v2 :: cells) []).
  rewrite <- IH. destruct (rowText (v2 :: cells)) as [|d text] eqn:E.
  - change (escapeCSVValue v ++ [44%N]) with (escapeCSVValue v ++ [44%N]).
    rewrite endsWith_app by discriminate. rewrite endsWith_single.
    apply N.eqb_neq. congruence.
  - change (escapeCSVValue v ++ 44%N :: d :: text)
      with (escapeCSVValue v ++ [44%N] ++ d :: text).
    rewrite app_assoc. now rewrite endsWith_app by discriminate.
Qed.

Lemma cellLoop_plain_end (v cell : jsstring) :
  (forall c, In c v -> c <> 34%N /\ c <> 44%N) ->
  cellLoop false cell v =
  match rev cell ++ v with
  | [] => []
  | _ :: _ => [parseCell (rev cell ++ v)]
  end.
Proof.
  revert cell; induction v as [|c v IH]; intros cell Hv.
  - rewrite app_nil_r. destruct cell as [|d cell]; [reflexivity|].
    cbn [cellLoop]. destruct (rev (d :: cell)) eqn:E; [|reflexivity].
    apply (f_equal (@length N)) in E. rewrite length_rev in E. discriminate.
  - destruct (Hv c (or_introl eq_refl)) as [Hq Hcomma].
    rewrite cellLoop_outside by assumption.
    rewrite IH by (intros d Hd; apply Hv; now right).
    cbn [rev]. now rewrite <- app_assoc.
Qed.

Lemma cellLoop_quoted_end (w cell : jsstring) :
  cellLoop true cell (doubleQuotes w ++ [34%N]) =
  [parseCell (rev cell ++ doubleQuotes w ++ [34%N])].
Proof.
  revert cell; induction w as [|c w IH]; intros cell.
  - reflexivity.
  - destruct (N.eqb_spec c 34) as [-> | Hc].
    + rewrite doubleQuotes_quote. simpl app. rewrite cellLoop_pair, IH.
      simpl rev. now rewrite <- !app_assoc.
    + rewrite doubleQuotes_other by assumption. simpl app.
      rewrite cellLoop_inside by assumption. rewrite IH.
      simpl rev. now rewrite <- !app_assoc.
Qed.

Lemma cellLoop_last (v : jsstring) :
  v <> [] -> cellLoop false [] (escapeCSVValue v) = [v].
Proof.
  intros Hv. pose proof (parseCell_escapeCSVValue v) as Hcell.
  destruct (escapeCSVValue_cases v) as [[E [Hcomma [Hq _]]] | E];
    rewrite E in Hcell |- *.
  - rewrite cellLoop_plain_end.
    + cbn [rev app]. destruct v as [|c v]; [now elim Hv|]. now rewrite Hcell.
    + intros c Hc. split; intros ->; auto.
  - rewrite cellLoop_open, cellLoop_quoted_end. cbn [rev app]. now rewrite Hcell.
Qed.

(** The cell loop reads a row of an export back cell by cell. *)
Lemma cells_of_rowText (cells : list jsstring) :
  cells <> [[]] ->
  cellLoop false [] (rowText cells)
  ++ (if endsWith 44%N (rowText cells) then [[]] else []) = cells.
Proof.
  induction cells as [|v cells IH]; [reflexivity|].
  destruct cells as [|v2 cells]; intros Hcells.
  - change (rowText [v]) with (escapeCSVValue v).
    rewrite escapeCSVValue_no_comma_end, app_nil_r. apply cellLoop_last.
    intros ->. now apply Hcells.
  - rewrite rowText_cons, cellLoop_first.
    destruct (rowText (v2 :: cells)) as [|d text] eqn:E.
    + apply rowText_empty in E as [E | E]; [discriminate|]. rewrite E.
      rewrite endsWith_app by discriminate. reflexivity.
    + change (escapeCSVValue v ++ 44%N :: d :: text)
        with (escapeCSVValue v ++ [44%N] ++ d :: text).
      rewrite app_assoc, endsWith_app by discriminate.
      cbn [app]. f_equal. apply IH. intros Hone. rewrite Hone in E. discriminate.
Qed.

Lemma parseLine_rowText (cells : list jsstring) :
  cells <> [[]] -> endsWith cr (last cells []) = false ->
  parseLine (rowText cells) = cells.
Proof.
  intros Hcells Hcr. unfold parseLine.
  assert (H : endsWith cr (rowText cells) = false).
  { unfold cr in *. rewrite rowText_end by discriminate.
    destruct (endsWith 13%N (escapeCSVValue (last cells []))) eqn:E; [|reflexivity].
    apply escapeCSVValue_end in E; [congruence | discriminate]. }
  rewrite H. now apply cells_of_rowText.
Qed.

Lemma last_decoded (row : list jsstring) :
  last (List.map toWellFormed row) [] = toWellFormed (last row []).
Proof.
  induction row as [|cell row IH]; [reflexivity|].
  destruct row as [|cell2 row]; [reflexivity|]. exact IH.
Qed.

Lemma rowsOf_last (result : ScrapingResult) :
  Forall (fun row => last row [] = [] \/
                     last row [] = orDefault (error result) (js "Unknown error"))
         (rowsOf result).
Proof.
  unfold rowsOf.
  destruct (success result), (data result) as [d|];
    try (constructor; [now right | constructor]).
  destruct (contacts d) as [|contact others].
  - constructor; [now left | constructor].
  - apply Forall_forall. intros row Hrow. apply in_map_iff in Hrow as (c & <- & _).
    now left.
Qed.

End RowFacts.

Module CsvMore.
Import JSFacts CsvFacts CsvParser CSVUtils CsvRows RowFacts.

Section WithUrlSyntax.
Context {L : UrlSyntax}.

(** X13: every URL that parseCSVUrls returns is trimmed and parses as a
    URL, and there is at most one of them for each row after the first: the
    first row of the text is the header row and is never read as data. *)
Theorem parsed_urls_valid (csvContent : jsstring) :
  Forall (fun u => trim u = u /\ isValidUrl u = true) (parseCSVUrls csvContent) /\
  length (parseCSVUrls csvContent) <= length (splitLines csvContent) - 1.
Proof. exact (parseCSVUrls_bounds csvContent). Qed.

(** X14: a CSV file of one line (no line feed, no carriage return, no
    quote) is refused by the upload route with a 400, whatever the line
    holds: the line is taken for the header row and no URL is found. *)
Theorem single_line_upload_refused (file : UploadRoute.File) :
  (forall c, In c (UploadRoute.fileText file) -> c <> 10%N /\ c <> 13%N /\ c <> 34%N) ->
  parseCSVUrls (UploadRoute.fileText file) = [] /\
  exists message, UploadRoute.POST (Some file) = UploadRoute.UploadError 400 message.
Proof.
  intros Hline.
  assert (Hnone : parseCSVUrls (UploadRoute.fileText file) = []).
  { destruct (parseCSVUrls_bounds (UploadRoute.fileText file)) as [_ Hlen].
    pose proof (splitLines_single _ Hline).
    destruct (parseCSVUrls (UploadRoute.fileText file)); [reflexivity|].
    simpl in Hlen. lia. }
  split; [exact Hnone|]. unfold UploadRoute.POST.
  destruct (negb _); [eauto|]. destruct (N.ltb _ _); [eauto|].
  rewrite Hnone. cbn [length Nat.eqb]. eauto.
Qed.

End WithUrlSyntax.

Lemma single_line_upload_refused_witness :
  parseCSVUrls (L := Scripted.urls) (UploadRoute.fileText bareUrlFile) = [] /\
  exists message,
    UploadRoute.POST (L := Scripted.urls) (Some bareUrlFile)
    = UploadRoute.UploadError 400 message.
Proof.
  apply (single_line_upload_refused (L := Scripted.urls) bareUrlFile).
  intros c Hc. vm_compute in Hc.
  repeat (destruct Hc as [<- | Hc]; [repeat split; discriminate|]).
  destruct Hc.
Defined.

(** X15: the parser reads back every cell of an export, as it is decoded
    from the bytes of the export: the rows of the text that
    createCSVFromResults writes are, cell by cell, the header row and the rows
    of the results with U+FFFD in the place of every surrogate outside a pair,
    provided no error message ends with a carriage return (the parser drops a
    carriage return at the end of a row).  When no cell holds a surrogate
    outside a pair, the rows read back are the rows of the results. *)
Theorem export_reads_back (results : list ScrapingResult) :
  (forall r e, In r results -> error r = Some e -> endsWith cr e = false) ->
  List.map parseLine (splitLines (createCSVFromResults results))
  = headers :: List.map (List.map toWellFormed) (flat_map rowsOf results) /\
  (Forall (Forall (fun cell => toWellFormed cell = cell)) (flat_map rowsOf results) ->
   List.map parseLine (splitLines (createCSVFromResults results))
   = headers :: flat_map rowsOf results).
Proof.
  intros Herr.
  assert (Hrows : Forall (fun row => wide row /\ endsWith cr (last row []) = false)
                         (flat_map rowsOf results)).
  { apply Forall_forall. intros row Hrow.
    apply in_flat_map in Hrow as (r & Hr & Hrow).
    pose proof (rowsOf_shape r) as Hshape. pose proof (rowsOf_last r) as Hlast.
    rewrite Forall_forall in Hshape, Hlast.
    destruct (Hshape row Hrow) as (v2 & cells & ->). split; [now exists (url r), v2, cells|].
    destruct (Hlast _ Hrow) as [H | H];
      (etransitivity; [apply (f_equal (endsWith cr)); exact H|]); [reflexivity|].
    destruct (error r) as [[|c e]|] eqn:E; try reflexivity.
    now apply (Herr r (c :: e)). }
  assert (Hread : List.map parseLine (splitLines (createCSVFromResults results))
                  = headers :: List.map (List.map toWellFormed) (flat_map rowsOf results)).
  { rewrite createCSVFromResults_rows.
    rewrite splitLines_csvOfRows
      by (eapply Forall_impl; [|exact Hrows]; now intros row [H _]).
    cbn [List.map]. rewrite parseLine_header. f_equal.
    rewrite !map_map. apply map_ext_in. intros row Hrow. rewrite Forall_forall in Hrows.
    destruct (Hrows row Hrow) as [(v & v2 & cells & ->) Hcr].
    apply parseLine_rowText; [discriminate|].
    rewrite last_decoded, endsWith_cr_toWellFormed. exact Hcr. }
  split; [exact Hread|]. intros Hcells. rewrite Hread. f_equal.
  rewrite <- (map_id (flat_map rowsOf results)) at 2.
  apply map_ext_in. intros row Hrow. rewrite Forall_forall in Hcells.
  specialize (Hcells row Hrow). rewrite <- (map_id row) at 2.
  apply map_ext_in. intros cell Hcell. rewrite Forall_forall in Hcells.
  now apply Hcells.
Qed.

(** An export that is read back as it was written, and the failure of a URL
    that is a surrogate outside a pair, read back as U+FFFD. *)
Lemma export_reads_back_witness :
  List.map parseLine (splitLines (createCSVFromResults [twoContacts; failedFetch]))
  = headers :: flat_map rowsOf [twoContacts; failedFetch] /\
  List.map parseLine (splitLines (createCSVFromResults [loneSurrogateResult]))
  = [headers; [[65533%N]; []; []; []; []; js "Invalid URL provided"]].
Proof.
  split.
  - destruct (export_reads_back [twoContacts; failedFetch]) as [_ Hsame].
    + intros r e [<- | [<- | []]] He; vm_compute in He; [discriminate|].
      injection He as <-. vm_compute. reflexivity.
    + apply Hsame.
      repeat (apply Forall_cons || apply Forall_nil); vm_compute; reflexivity.
  - destruct (export_reads_back [loneSurrogateResult]) as [Hread _].
    + intros r e [<- | []] He. vm_compute in He. injection He as <-.
      vm_compute. reflexivity.
    + etransitivity; [exact Hread | vm_compute; reflexivity].
Defined.

(** X16: escaping a cell loses nothing.  What the parser decodes from the
    bytes of an escaped cell is the cell, with U+FFFD in the place of every
    surrogate outside a pair, so it is the cell itself when the cell holds
    none; two cells with the same escaped text are the same cell; the escaped
    text is the cell itself exactly when the cell has no comma, no quote and
    no line feed, and otherwise it is the cell with its quotes doubled,
    between two quotes. *)
Theorem escapeCSVValue_faithful (v : jsstring) :
  parseCell (toWellFormed (escapeCSVValue v)) = toWellFormed v /\
  (toWellFormed v = v -> parseCell (toWellFormed (escapeCSVValue v)) = v) /\
  (forall w, escapeCSVValue v = escapeCSVValue w -> v = w) /\
  (escapeCSVValue v = v <-> ~ In 44%N v /\ ~ In 34%N v /\ ~ In 10%N v) /\
  (escapeCSVValue v <> v ->
   escapeCSVValue v = 34%N :: doubleQuotes v ++ [34%N]).
Proof.
  assert (Hdecoded : parseCell (toWellFormed (escapeCSVValue v)) = toWellFormed v)
    by (rewrite toWellFormed_escapeCSVValue; apply parseCell_escapeCSVValue).
  split; [exact Hdecoded|]. split; [intros Hv; now rewrite Hdecoded|]. split.
  { intros w H. rewrite <- (parseCell_escapeCSVValue v), H.
    apply parseCell_escapeCSVValue. }
  assert (Hquoted : escapeCSVValue v = 34%N :: doubleQuotes v ++ [34%N] ->
                    escapeCSVValue v <> v).
  { intros E Hv. rewrite E in Hv. apply (f_equal (@length N)) in Hv.
    cbn [length] in Hv. rewrite length_app in Hv. cbn [length] in Hv.
    assert (length v <= length (doubleQuotes v)).
    { clear. induction v as [|c v IH]; [reflexivity|].
      unfold doubleQuotes in *. cbn [flat_map].
      destruct (c =? 34)%N; cbn [app length]; lia. }
    lia. }
  split.
  - split.
    + intros Hv. destruct (escapeCSVValue_cases v) as [[_ H] | E]; [exact H|].
      now apply Hquoted in E.
    + intros (H1 & H2 & H3). unfold escapeCSVValue.
      destruct (includes v [44%N]) eqn:E1;
        [apply includes_single in E1; contradiction|].
      destruct (includes v [34%N]) eqn:E2;
        [apply includes_single in E2; contradiction|].
      destruct (includes v [10%N]) eqn:E3;
        [apply includes_single in E3; contradiction|].
      reflexivity.
  - intros Hv. destruct (escapeCSVValue_cases v) as [[E _] | E]; [contradiction|].
    exact E.
Qed.

End CsvMore.

Module UploadMore.
Import BatchFacts CSVUtils CsvMore UploadRoute.

Section WithWorld.
Context {U : Unicode} {L : UrlSyntax} {W : Web}.

(** X17: what the upload route accepts, the batch route accepts: when the
    upload answers with URLs, the file is named .csv and is at most 5 MB, the
    URLs are those that parseCSVUrls finds, each trimmed and valid, there are
    between 1 and 50 of them, the count is their number, and the batch route
    answers them with 200 and one result per URL. *)
Theorem uploaded_urls_feed_batch (file : File) (urls : list jsstring) (count : nat)
  (st : State) :
  POST (Some file) = UploadOk urls count ->
  endsWith (fileName file) (js ".csv") = true /\
  (size file <= 5 * 1024 * 1024)%N /\
  urls = parseCSVUrls (fileText file) /\
  count = length urls /\ 1 <= count <= 50 /\
  Forall (fun u => trim u = u /\ isValidUrl u = true) urls /\
  exists results st',
    PUT (BodyJson (UrlsArray urls)) st = (ResultsJson 200 results, st') /\
    List.map url results = urls.
Proof.
  unfold POST. destruct (endsWith (fileName file) (js ".csv")); [|discriminate].
  cbn [negb]. destruct (N.ltb_spec (5 * 1024 * 1024) (size file)) as [|Hsize];
    [discriminate|].
  destruct (Nat.eqb_spec (length (parseCSVUrls (fileText file))) 0); [discriminate|].
  destruct (Nat.ltb_spec 50 (length (parseCSVUrls (fileText file)))); [discriminate|].
  intros Hok. injection Hok as <- <-.
  split; [reflexivity|]. split; [exact Hsize|]. split; [reflexivity|].
  split; [reflexivity|]. split; [lia|].
  split; [apply CsvRows.parseCSVUrls_bounds|].
  destruct (PUT_accepts (parseCSVUrls (fileText file)) st) as (results & st' & HPUT & Hc);
    [assumption|].
  exists results, st'. split; [exact HPUT|]. now apply Collected_urls with st st'.
Qed.

End WithWorld.

Lemma uploaded_urls_feed_batch_witness :
  exists results st',
    PUT (U := latin1) (L := Scripted.urls) (W := Scripted.web)
      (BodyJson (UrlsArray [exampleUrl]))
      (Scripted.start [Scripted.respond 200 "OK" teamPage])
    = (ResultsJson 200 results, st') /\
    List.map url results = [exampleUrl].
Proof.
  apply (uploaded_urls_feed_batch (U := latin1) (L := Scripted.urls) (W := Scripted.web)
           oneUrlFile [exampleUrl] 1
           (Scripted.start [Scripted.respond 200 "OK" teamPage])).
  vm_compute. reflexivity.
Defined.

End UploadMore.

(* ================================================================== *)
(** ** The single-URL route *)
(* ================================================================== *)

Module SingleFacts.
Import AttemptFacts.

Section WithWorld.
Context {U : Unicode} {L : UrlSyntax} {W : Web}.

(** What [scrapeContactInfo] throws is the terminal error, built from the
    message of a failed attempt. *)
Lemma scrape_failure_message (url : jsstring) (st st' : State) (e : thrown) :
  scrapeContactInfo url st = (Throw e, st') ->
  exists message, e = ErrorObj (finalErrorMessage url (Some message)).
Proof.
  unfold scrapeContactInfo, maxRetries. intros H.
  apply retryLoop_attempts in H as (_ & _ & _ & last & -> & Hlast).
  destruct last as [message|]; [now exists message|].
  exfalso. apply Hlast; [right; lia | reflexivity].
Qed.

End WithWorld.

End SingleFacts.

Module SingleSpec.
Import SingleRoute SingleFacts.

Section WithWorld.
Context {U : Unicode} {L : UrlSyntax} {W : Web}.

(** X18: the single-URL route answers an error payload only with status 400
    and only before any scrape: the URL of the body is then falsy or does not
    parse, the state is as it was and nothing is logged.  It answers 200 only
    with a successful result for the URL of the body, holding the data of a
    scrape that did not throw. *)
Theorem single_scrape_answers (req : request) (st st' : State) (answer : postResponse)
  (errors : list thrown) :
  POST req st = (mkAnswered (Ok answer) errors, st') ->
  match answer with
  | PostError status _ =>
      status = 400%N /\ st' = st /\ errors = [] /\
      (firstRead req = Ok UrlFalsy \/ firstRead req = Ok (UrlString []) \/
       exists url, firstRead req = Ok (UrlString url) /\ parsesAsUrl url = false)
  | PostResult status result =>
      status = 200%N /\ errors = [] /\
      (exists info,
         firstRead req = Ok (UrlString (url result)) /\
         url result <> [] /\ parsesAsUrl (url result) = true /\
         scrapeContactInfo (url result) st = (Ok info, st') /\
         success result = true /\ data result = Some info /\ error result = None)
      \/
      status = 500%N /\ success result = false /\ data result = None /\
      (exists cause body,
         errors = [cause] /\ secondRead req = Ok body /\
         url result = urlOrUnknown body /\
         error result = Some (errorMessage cause))
  end.
Proof.
  unfold POST, tryBlock, bind, ofOutcome, ret, now.
  destruct (firstRead req) as [[|[|c url]]|e0] eqn:Hfirst.
  - intros H. injection H as <- <- <-. auto 10.
  - intros H. injection H as <- <- <-. auto 10.
  - destruct (parsesAsUrl (c :: url)) eqn:Hurl.
    + destruct (scrapeContactInfo (c :: url) st) as [[info | e] st1] eqn:Hscrape.
      * intros H. injection H as <- <- <-. left. cbn.
        split; [reflexivity|]. split; [reflexivity|]. exists info.
        repeat split; auto. discriminate.
      * destruct (secondRead req) as [body | e'] eqn:Hsecond; [|discriminate].
        intros H. injection H as <- <- <-. right. cbn.
        repeat split. now exists e, body.
    + intros H. injection H as <- <- <-.
      repeat split. right. right. now exists (c :: url).
  - destruct (secondRead req) as [body | e'] eqn:Hsecond; [|discriminate].
    intros H. injection H as <- <- <-. right. cbn.
    repeat split. now exists e0, body.
Qed.

(** X19: the [catch] block of the single-URL route never answers.  When
    the first read of the body rejects, or the scrape of an accepted URL
    throws, the route passes the error to [console.error] and reads the body
    once more; that read rejects, and the route rejects with its error.  So
    every answer of the route comes from the [try] block, with nothing
    logged, and is a 400 or a 200: the failure result of status 500 is never
    sent. *)
Theorem single_scrape_failure (req : request) (st : State) :
  (forall e, firstRead req = Throw e ->
     POST req st = (mkAnswered (Throw (rereadError req)) [e], st)) /\
  (forall url e st1,
     firstRead req = Ok (UrlString url) -> url <> [] -> parsesAsUrl url = true ->
     scrapeContactInfo url st = (Throw e, st1) ->
     POST req st = (mkAnswered (Throw (rereadError req)) [e], st1)) /\
  (forall answer errors st',
     POST req st = (mkAnswered (Ok answer) errors, st') ->
     errors = [] /\
     match answer with
     | PostError status _ => status = 400%N
     | PostResult status result => status = 200%N /\ success result = true
     end).
Proof.
  split; [|split].
  - intros e Hfirst. unfold POST, tryBlock, bind, ofOutcome. now rewrite Hfirst.
  - intros url e st1 Hfirst Hurl Hparse Hscrape.
    unfold POST, tryBlock, bind, ofOutcome. rewrite Hfirst.
    destruct url as [|c url]; [congruence|]. now rewrite Hparse, Hscrape.
  - intros answer errors st'. unfold POST, tryBlock, bind, ofOutcome, ret, now.
    destruct (firstRead req) as [[|[|c url]]|e0]; cbn [secondRead].
    + intros H. injection H as <- <- <-. auto.
    + intros H. injection H as <- <- <-. auto.
    + destruct (parsesAsUrl (c :: url)).
      * destruct (scrapeContactInfo (c :: url) st) as [[info | e] st1].
        -- intros H. injection H as <- <- <-. auto.
        -- discriminate.
      * intros H. injection H as <- <- <-. auto.
    + discriminate.
Qed.

End WithWorld.

Lemma single_scrape_answers_witness :
  400%N = 400%N /\
  Scripted.start [] = Scripted.start [] /\
  @nil thrown = [] /\
  (firstRead unparsableRequest = Ok UrlFalsy \/
   firstRead unparsableRequest = Ok (UrlString []) \/
   exists url, firstRead unparsableRequest = Ok (UrlString url) /\
               Scripted.httpUrl url = false).
Proof.
  apply (single_scrape_answers (U := latin1) (L := Scripted.urls) (W := Scripted.web)
           unparsableRequest (Scripted.start []) (Scripted.start [])
           (PostError 400 (js "Invalid URL format")) []).
  vm_compute. reflexivity.
Defined.

(** The example URL answered by HTTP 404: the route logs the terminal error
    of the scraper and rejects with the error of the second read. *)
Lemma single_scrape_failure_witness :
  POST (U := latin1) (L := Scripted.urls) (W := Scripted.web) consumedRequest
    (Scripted.start [Scripted.respond 404 "Not Found" []])
  = (mkAnswered (Throw bodyUnusable)
       [ErrorObj (js "Failed to scrape https://example.fi after 3 attempts: HTTP 404: Not Found")],
     notFoundEnd).
Proof.
  destruct (single_scrape_failure (U := latin1) (L := Scripted.urls) (W := Scripted.web)
              consumedRequest (Scripted.start [Scripted.respond 404 "Not Found" []]))
    as (_ & Hthrows & _).
  apply (Hthrows exampleUrl).
  - reflexivity.
  - discriminate.
  - reflexivity.
  - vm_compute. reflexivity.
Defined.

End SingleSpec.

(* ================================================================== *)
(** ** The console of a scrape, and the two routes together *)
(* ================================================================== *)

Module TraceFacts.
Import JSFacts FetcherFacts AttemptFacts Trace.

Section WithWorld.
Context {U : Unicode} {L : UrlSyntax} {W : Web}.



(** A URL that does not parse: one attempt, no request, no delay. *)
Lemma scrape_invalid (url : jsstring) (st : State) :
  isValidUrl url = false ->
  scrapeContactInfo url st =
  (Throw (ErrorObj (finalErrorMessage url (Some (js "Invalid URL provided")))),
   gaveUp 1 url (ErrorObj (js "Invalid URL provided")) st).
Proof.
  intros Hurl. unfold scrapeContactInfo, maxRetries.
  apply (retryLoop_stop 2 1 None url st st (ErrorObj (js "Invalid URL provided"))).
  - now apply attemptBody_invalid.
  - vm_compute. reflexivity.
Qed.

Lemma Collected_invalid (st st' : State) (urls : list jsstring)
  (results : list ScrapingResult) :
  Forall (fun u => isValidUrl u = false) urls ->
  Collected st urls results st' ->
  world st' = world st /\
  results = List.map (invalidResult (isoNow (world st))) urls /\
  failedAttempts (console st') = failedAttempts (console st) + length urls.
Proof.
  intros Hurls Hc. induction Hc as [st | st u urls o st1 results st' Hrun Hc IH].
  - split; [reflexivity|]. split; [reflexivity|]. simpl. lia.
  - inversion Hurls as [|? ? Hu Hrest]; subst.
    rewrite (scrape_invalid u st Hu) in Hrun. injection Hrun as <- <-.
    destruct (IH Hrest) as (Hw & Hr & Hf). unfold gaveUp in *. cbn [world console] in *.
    split; [exact Hw|]. split.
    + cbn [List.map]. f_equal. exact Hr.
    + rewrite Hf, !failedAttempts_app. cbn. lia.
Qed.

End WithWorld.

End TraceFacts.

Module TraceSpec.
Import JSFacts FetcherFacts BatchFacts ExtractorFacts Trace TraceFacts SingleRoute.
Import TraceExamples.

Section WithWorld.
Context {U : Unicode} {L : UrlSyntax} {W : Web}.



(** X21: a batch all of whose URLs fail to parse is answered without any
    request or delay: the world is as it was, every result is the failure
    result of its URL with the terminal message for an invalid URL, and one
    failed attempt is logged for each URL. *)
Theorem batch_of_invalid_urls (urls : list jsstring) (st : State) :
  length urls <= 50 ->
  Forall (fun u => parsesAsUrl u = false) urls ->
  exists st',
    PUT (BodyJson (UrlsArray urls)) st
    = (ResultsJson 200 (List.map (invalidResult (isoNow (world st))) urls), st') /\
    world st' = world st /\
    failedAttempts (console st') = failedAttempts (console st) + length urls.
Proof.
  intros Hlen Hurls.
  destruct (PUT_accepts urls st Hlen) as (results & st' & HPUT & Hc).
  destruct (Collected_invalid st st' urls results Hurls Hc) as (Hw & -> & Hf).
  exists st'. auto.
Qed.

(** X22: the two routes on one accepted URL.  When the scrape answers, the
    single-URL route and a batch of that URL alone answer 200 with the same
    result and end in the same state.  When the scrape throws, the batch
    still answers 200, with a failure result for the URL, while the single-URL
    route logs the error and never answers 200. *)
Theorem routes_on_one_url (req : request) (url : jsstring) (st st1 : State)
  (o : outcome ContactInfo) :
  firstRead req = Ok (UrlString url) -> url <> [] -> parsesAsUrl url = true ->
  scrapeContactInfo url st = (o, st1) ->
  PUT (BodyJson (UrlsArray [url])) st
  = (ResultsJson 200 [resultOf url o (isoNow (world st1))], st1) /\
  match o with
  | Ok info =>
      POST req st
      = (mkAnswered (Ok (PostResult 200 (resultOf url o (isoNow (world st1))))) [], st1)
  | Throw e =>
      exists answer,
        POST req st = (mkAnswered answer [e], st1) /\
        forall result, answer <> Ok (PostResult 200 result)
  end.
Proof.
  intros Hfirst Hurl Hparse Hscrape. split.
  - destruct (PUT_accepts [url] st) as (results & st' & HPUT & Hc); [simpl; lia|].
    rewrite HPUT. inversion Hc as [|? ? ? o' st1' results' ? Hrun Hrest]; subst.
    inversion Hrest; subst. rewrite Hscrape in Hrun. now injection Hrun as <- <-.
  - unfold POST, tryBlock, bind, ofOutcome, now, ret. rewrite Hfirst.
    destruct url as [|c url]; [congruence|]. rewrite Hparse, Hscrape.
    destruct o as [info | e]; [reflexivity|].
    destruct (secondRead req) as [body | e'].
    + eexists. split; [reflexivity|]. discriminate.
    + eexists. split; [reflexivity|]. discriminate.
Qed.

End WithWorld.


Lemma batch_of_invalid_urls_witness :
  exists st',
    PUT (U := latin1) (L := Scripted.urls) (W := Scripted.web)
      (BodyJson (UrlsArray [js "not a url"; js "example.fi"])) (Scripted.start [])
    = (ResultsJson 200
         (List.map (invalidResult (@isoNow Scripted.web []))
                   [js "not a url"; js "example.fi"]), st') /\
    world st' = [] /\
    failedAttempts (console st') = 0 + 2.
Proof.
  apply (batch_of_invalid_urls (U := latin1) (L := Scripted.urls) (W := Scripted.web)
           [js "not a url"; js "example.fi"] (Scripted.start [])).
  - simpl. lia.
  - repeat constructor.
Defined.

Lemma routes_on_one_url_witness :
  PUT (U := latin1) (L := Scripted.urls) (W := Scripted.web)
    (BodyJson (UrlsArray [exampleUrl]))
    (Scripted.start [Scripted.respond 404 "Not Found" []])
  = (ResultsJson 200
       [resultOf exampleUrl
          (Throw (ErrorObj
             (js "Failed to scrape https://example.fi after 3 attempts: HTTP 404: Not Found")))
          (@isoNow Scripted.web (world notFoundEnd))], notFoundEnd) /\
  exists answer,
    POST (U := latin1) (L := Scripted.urls) (W := Scripted.web) consumedRequest
      (Scripted.start [Scripted.respond 404 "Not Found" []])
    = (mkAnswered answer
         [ErrorObj
            (js "Failed to scrape https://example.fi after 3 attempts: HTTP 404: Not Found")],
       notFoundEnd) /\
    forall result, answer <> Ok (PostResult 200 result).
Proof.
  apply (routes_on_one_url (U := latin1) (L := Scripted.urls) (W := Scripted.web)
           consumedRequest exampleUrl
           (Scripted.start [Scripted.respond 404 "Not Found" []]) notFoundEnd
           (Throw (ErrorObj
              (js "Failed to scrape https://example.fi after 3 attempts: HTTP 404: Not Found")))).
  - reflexivity.
  - discriminate.
  - reflexivity.
  - vm_compute. reflexivity.
Defined.

End TraceSpec.
